(** * Verification of the check50 checkers for the "theorie" puzzles

    A shallow embedding of the three validators of the repository:
    - [chips_and_circuits]: the multi-layer routing grid, nets and cost;
    - [lectures_and_lesroosters]: the relational schedule checks;
    - [rush_hour]: the sliding-vehicle board.

    Python integers are modelled by [Z], Python lists by [list] with
    the indexing rules of Python written out (negative indices wrap once,
    anything else raises [IndexError]), and exceptions by an explicit
    result type. *)

From Stdlib Require Import ZArith Lia Ascii String DecimalString.
From stdpp Require Import base list strings gmap sorting.

Local Open Scope Z_scope.

(** ** Python runtime fragments shared by the three packages *)

Module Py.

(** The exception classes that the modelled code can raise. *)
Inductive exn : Set :=
  | IndexError
  | TypeError
  | ValueError
  | AssertionError
  | Failure
  | UnconnectedNetError
  | InteruptedNetError
  | OccupiedByGateError
  | Collision
  | WallHit.

#[global] Instance exn_eq_dec : EqDecision exn.
Proof. solve_decision. Defined.

Inductive result (A : Type) : Type :=
  | Ok (a : A)
  | Raise (e : exn).
Arguments Ok {A} a.
Arguments Raise {A} e.

Definition bind {A B} (m : result A) (k : A -> result B) : result B :=
  match m with
  | Ok a => k a
  | Raise e => Raise e
  end.

Declare Scope py_scope.
Delimit Scope py_scope with py.
Notation "'do' x <- m ; k" := (bind m (fun x => k))
  (at level 10, x name, m at level 100, k at level 200,
   format "'[v' 'do'  x  <-  m ; '/' k ']'") : py_scope.
Notation "'do_' m ; k" := (bind m (fun _ => k))
  (at level 10, m at level 100, k at level 200,
   format "'[v' 'do_'  m ; '/' k ']'") : py_scope.
Open Scope py_scope.

(** [for x in xs: acc = body(acc, x)], stopping at the first exception. *)
Fixpoint for_each {A S} (body : S -> A -> result S) (acc : S) (xs : list A)
  : result S :=
  match xs with
  | [] => Ok acc
  | x :: xs' => do acc' <- body acc x; for_each body acc' xs'
  end.

(** [range(n)]: empty when [n <= 0]. *)
Definition range (n : Z) : list Z := Z.of_nat <$> seq 0 (Z.to_nat n).

(** Normalisation of a subscript against a length [len]. *)
Definition py_index (len : nat) (i : Z) : option nat :=
  if (0 <=? i) && (i <? Z.of_nat len) then Some (Z.to_nat i)
  else if (- Z.of_nat len <=? i) && (i <? 0) then Some (Z.to_nat (Z.of_nat len + i))
  else None.

(** The normalised position and the element that [l[i]] denotes. *)
Definition locate {A} (l : list A) (i : Z) : result (nat * A) :=
  match py_index (length l) i with
  | Some k => match l !! k with
              | Some a => Ok (k, a)
              | None => Raise IndexError
              end
  | None => Raise IndexError
  end.

(** [l[i]] *)
Definition getitem {A} (l : list A) (i : Z) : result A :=
  do p <- locate l i; Ok p.2.

(** [l[1:-1]] *)
Definition slice_1_m1 {A} (l : list A) : list A :=
  take (length l - 2)%nat (drop 1 l).

(** [max(l)] of a non-empty sequence; [ValueError] on the empty one. *)
Definition py_max (l : list Z) : result Z :=
  match l with
  | [] => Raise ValueError
  | x :: xs => Ok (fold_left Z.max xs x)
  end.

(** *** Strings *)

(** [x[2:-2]] *)
Definition str_slice_2_m2 (x : string) : string :=
  String.substring 2 (String.length x - 4) x.

(** [s.split(sep)] for a non-empty separator, scanning left to right;
    [skip] counts the characters of a separator occurrence still to pass. *)
Fixpoint split_go (sep : string) (skip : nat) (cur : string) (s : string)
  : list string :=
  match s with
  | EmptyString => [cur]
  | String c s' =>
      match skip with
      | S k => split_go sep k cur s'
      | O =>
          if String.prefix sep s
          then cur :: split_go sep (String.length sep - 1) EmptyString s'
          else split_go sep O (cur +:+ String c EmptyString) s'
      end
  end.

Definition split (sep : string) (s : string) : list string :=
  split_go sep 0 EmptyString s.

(** *** Regular expressions

    The fragment of [re] the checks use, matched by derivatives. *)
Inductive regex : Type :=
  | Void
  | Eps
  | Class (p : ascii -> bool)
  | Cat (r1 r2 : regex)
  | Alt (r1 r2 : regex)
  | Star (r : regex).

Fixpoint nullable (r : regex) : bool :=
  match r with
  | Void => false
  | Eps => true
  | Class _ => false
  | Cat r1 r2 => nullable r1 && nullable r2
  | Alt r1 r2 => nullable r1 || nullable r2
  | Star _ => true
  end.

Fixpoint deriv (c : ascii) (r : regex) : regex :=
  match r with
  | Void => Void
  | Eps => Void
  | Class p => if p c then Eps else Void
  | Cat r1 r2 =>
      if nullable r1 then Alt (Cat (deriv c r1) r2) (deriv c r2)
      else Cat (deriv c r1) r2
  | Alt r1 r2 => Alt (deriv c r1) (deriv c r2)
  | Star r1 => Cat (deriv c r1) (Star r1)
  end.

(** The whole of [s] is a word of [r]. *)
Fixpoint fullmatch (r : regex) (s : string) : bool :=
  match s with
  | EmptyString => nullable r
  | String c s' => fullmatch (deriv c r) s'
  end.

(** The words of a regular expression. *)
Inductive lang : regex -> string -> Prop :=
  | lang_eps : lang Eps EmptyString
  | lang_class p c : p c = true -> lang (Class p) (String c EmptyString)
  | lang_cat r1 r2 s1 s2 :
      lang r1 s1 -> lang r2 s2 -> lang (Cat r1 r2) (s1 +:+ s2)
  | lang_alt_l r1 r2 s : lang r1 s -> lang (Alt r1 r2) s
  | lang_alt_r r1 r2 s : lang r2 s -> lang (Alt r1 r2) s
  | lang_star_nil r : lang (Star r) EmptyString
  | lang_star_app r s1 s2 :
      lang r s1 -> lang (Star r) s2 -> lang (Star r) (s1 +:+ s2).

Definition Plus (r : regex) : regex := Cat r (Star r).
Definition Opt (r : regex) : regex := Alt r Eps.
Definition Lit (c : ascii) : regex := Class (fun d => bool_decide (d = c)).

(** [\d] on the ASCII characters the model has. *)
Definition is_digit (c : ascii) : bool :=
  let n := nat_of_ascii c in (48 <=? n)%nat && (n <=? 57)%nat.
Definition Digit : regex := Class is_digit.

(** A pattern anchored as [^r$] under [re.match]: [$] matches at the end of
    the string and also just before a newline that ends it. *)
Definition anchored_match (r : regex) (s : string) : bool :=
  fullmatch (Cat r (Opt (Lit "010"%char))) s.

End Py.
Import Py.

(** ** chips_and_circuits *)

Module Chips.

(** *** Gates, wires and nets *)

Record Gate : Set := mkGate {
  gate_id : string;
  gate_x : Z;
  gate_y : Z
}.

Record Wire : Set := mkWire {
  wire_x : Z;
  wire_y : Z;
  wire_z : Z
}.

(** [Wire._is_neighbor] is duck-typed: it reads [x], [y] and [z] of a wire
    or of a gate (whose [z] is the constant 0 set by [Gate.__init__]). *)
Class Positioned (A : Type) := position : A -> Z * Z * Z.

#[global] Instance Gate_positioned : Positioned Gate :=
  fun g => (gate_x g, gate_y g, 0).
#[global] Instance Wire_positioned : Positioned Wire :=
  fun w => (wire_x w, wire_y w, wire_z w).

Definition _is_neighbor `{Positioned A} (self : Wire) (other : A) (distance : Z)
  : bool :=
  let '(ox, oy, oz) := position other in
  Z.abs (wire_x self - ox) + Z.abs (wire_y self - oy) + Z.abs (wire_z self - oz)
    =? distance.

Definition is_connected_to_gate (self : Wire) (gate : Gate) : bool :=
  _is_neighbor self gate 0.

Definition is_neighbor_of_wire (self : Wire) (wire : Wire) : bool :=
  _is_neighbor self wire 1.

Record Net : Set := mkNet {
  gate_a : Gate;
  gate_b : Gate;
  wires : list Wire
}.

Definition _check_connected (self : Net) : result unit :=
  do first <- getitem (wires self) 0;
  do final <- getitem (wires self) (-1);
  if is_connected_to_gate first (gate_a self)
     && is_connected_to_gate final (gate_b self) then Ok tt
  else if is_connected_to_gate first (gate_b self)
          && is_connected_to_gate final (gate_a self) then Ok tt
  else Raise UnconnectedNetError.

Fixpoint _check_continuous_loop (cursor : Wire) (rest : list Wire) : result unit :=
  match rest with
  | [] => Ok tt
  | wire :: rest' =>
      if negb (is_neighbor_of_wire cursor wire) then Raise InteruptedNetError
      else _check_continuous_loop wire rest'
  end.

Definition _check_continuous (self : Net) : result unit :=
  do cursor <- getitem (wires self) 0;
  _check_continuous_loop cursor (drop 1 (wires self)).

(** [Net.__init__] *)
Definition Net_init (gate_a gate_b : Gate) (wires : list Wire) : result Net :=
  let self := mkNet gate_a gate_b wires in
  do_ _check_connected self;
  do_ _check_continuous self;
  Ok self.

(** Specification vocabulary for nets. *)

Definition manhattan (a b : Wire) : Z :=
  Z.abs (wire_x a - wire_x b) + Z.abs (wire_y a - wire_y b)
  + Z.abs (wire_z a - wire_z b).

(** A waypoint coincides with a gate: same cell of layer 0. *)
Definition coincides (w : Wire) (g : Gate) : Prop :=
  wire_x w = gate_x g /\ wire_y w = gate_y g /\ wire_z w = 0.

(** Distance of a waypoint to a gate in the 3D grid. *)
Definition gate_distance (w : Wire) (g : Gate) : Z :=
  Z.abs (wire_x w - gate_x g) + Z.abs (wire_y w - gate_y g) + Z.abs (wire_z w - 0).

Definition pairing (first final : Wire) (g1 g2 : Gate) : Prop :=
  coincides first g1 /\ coincides final g2.

Definition anchored (first final : Wire) (ga gb : Gate) : Prop :=
  pairing first final ga gb \/ pairing first final gb ga.

(** A gap: two consecutive waypoints that are not at distance 1. *)
Definition gap (ws : list Wire) : Prop :=
  exists i a b, ws !! i = Some a /\ ws !! S i = Some b /\ manhattan a b <> 1.

(** *** The grid *)

Inductive Occupant : Set :=
  | OccGate (g : Gate)
  | OccNet (n : Net).

Record Cell : Set := mkCell {
  occupants : list Occupant;
  is_gate : bool
}.

(** [Grid.Cell.__init__] *)
Definition Cell_init : Cell := mkCell [] false.

(** [Grid.Cell.add_net]; the message of the exception reads
    [self.occupants[0]]. *)
Definition add_net (net : Net) (self : Cell) : result Cell :=
  if is_gate self then
    do_ getitem (occupants self) 0;
    Raise OccupiedByGateError
  else Ok (mkCell (occupants self ++ [OccNet net]) (is_gate self)).

(** [Grid.Cell.set_as_gate] *)
Definition set_as_gate (gate : Gate) (self : Cell) : result Cell :=
  if is_gate self then Raise AssertionError
  else Ok (mkCell [OccGate gate] true).

Abbreviation Cells := (list (list (list Cell))).

(** [grid[z][y][x]] *)
Definition cell_at (grid : Cells) (z y x : Z) : result Cell :=
  do layer <- getitem grid z;
  do row <- getitem layer y;
  getitem row x.

(** [grid[z][y][x].method(...)]: the cell object reached by the three
    subscripts is updated in place; every cell of the grid is an object of
    its own, so no other cell changes. When the method raises, nothing is
    written. *)
Definition with_cell (grid : Cells) (z y x : Z) (method : Cell -> result Cell)
  : result Cells :=
  do pz <- locate grid z;
  do py <- locate pz.2 y;
  do px <- locate py.2 x;
  do cell' <- method px.2;
  Ok (<[pz.1 := <[py.1 := <[px.1 := cell']> py.2]> pz.2]> grid).

Record Grid : Type := mkGrid {
  gates : list Gate;
  nets : list Net;
  width : Z;
  height : Z;
  _grid : Cells
}.

Definition NUMBER_OF_LAYERS : Z := 8.

(** [Grid.place_gate]: [self._grid[0][gate.y][gate.x].set_as_gate(gate)] *)
Definition place_gate (self : Grid) (gate : Gate) : result Grid :=
  do cells <- with_cell (_grid self) 0 (gate_y gate) (gate_x gate) (set_as_gate gate);
  Ok (mkGrid (gates self) (nets self) (width self) (height self) cells).

(** [Grid.__init__], from the gates read out of the print file. *)
Definition Grid_init (file_gates : list Gate) : result Grid :=
  do max_x <- py_max (gate_x <$> file_gates);
  let width := max_x + 2 in
  do max_y <- py_max (gate_y <$> file_gates);
  let height := max_y + 2 in
  let create_layer (_ : Z) : list (list Cell) :=
    (fun _ => (fun _ => Cell_init) <$> range width) <$> range height in
  let grid := create_layer <$> range NUMBER_OF_LAYERS in
  for_each place_gate (mkGrid file_gates [] width height grid) file_gates.

(** The loop of [Grid.place_net]. The grid is a mutable object: the state
    reached when an exception escapes is returned with the exception. *)
Fixpoint place_net_loop (self : Grid) (net : Net) (ws : list Wire)
  : Grid * result unit :=
  match ws with
  | [] => (self, Ok tt)
  | wire :: ws' =>
      match with_cell (_grid self) (wire_z wire) (wire_y wire) (wire_x wire)
                      (add_net net) with
      | Ok cells =>
          place_net_loop
            (mkGrid (gates self) (nets self) (width self) (height self) cells)
            net ws'
      | Raise e => (self, Raise e)
      end
  end.

(** [Grid.place_net] *)
Definition place_net (self : Grid) (net : Net) : Grid * result unit :=
  let self := mkGrid (gates self) (nets self ++ [net]) (width self) (height self)
                     (_grid self) in
  place_net_loop self net (slice_1_m1 (wires net)).

(** [for net in nets: grid.place_net(net)] of [check_grid]. *)
Fixpoint place_nets (grid : Grid) (nets : list Net) : Grid * result unit :=
  match nets with
  | [] => (grid, Ok tt)
  | net :: rest =>
      match place_net grid net with
      | (grid', Ok _) => place_nets grid' rest
      | (grid', Raise e) => (grid', Raise e)
      end
  end.

(** [Grid.get_gate] *)
Definition get_gate (self : Grid) (gate_id' : string) : option Gate :=
  list_find (fun gate => gate_id gate = gate_id') (gates self) ≫= (fun p => Some p.2).

Definition len {A} (l : list A) : Z := Z.of_nat (length l).

(** [Grid.get_cost] *)
Definition get_cost (self : Grid) : result Z :=
  do cost <-
    for_each (fun cost z =>
      for_each (fun cost y =>
        for_each (fun cost x =>
          do cell <- cell_at (_grid self) z y x;
          if is_gate cell then Ok cost
          else
            let cost := cost + len (occupants cell) in
            let cost := cost + Z.max 0 (len (occupants cell) - 1) * 300 in
            Ok cost)
          cost (range (width self)))
        cost (range (height self)))
      0 (range NUMBER_OF_LAYERS);
  Ok (cost + len (nets self)).

(** Specification vocabulary for the cost: what one cell with [k] occupants
    contributes, and the sum over every cell of every layer. *)
Definition cell_contribution (c : Cell) : Z :=
  if is_gate c then 0
  else match occupants c with
       | [] => 0
       | _ :: _ => let k := len (occupants c) in k + 300 * (k - 1)
       end.

Definition sum_over {A} (f : A -> Z) (l : list A) : Z :=
  foldr (fun a acc => f a + acc) 0 l.

Definition cells_cost (grid : Cells) : Z :=
  sum_over (sum_over (sum_over cell_contribution)) grid.

(** Shape of a grid as [Grid.__init__] builds it: eight layers of [height]
    rows of [width] cells, a gate cell holding its gate. *)
Definition wf_cell (c : Cell) : Prop :=
  is_gate c = true -> occupants c <> [].

Definition wf_cells (w h : Z) (grid : Cells) : Prop :=
  length grid = Z.to_nat NUMBER_OF_LAYERS
  /\ Forall (fun layer =>
               length layer = Z.to_nat h
               /\ Forall (fun row => length row = Z.to_nat w /\ Forall wf_cell row)
                         layer) grid.

Definition wf_grid (g : Grid) : Prop :=
  wf_cells (width g) (height g) (_grid g).

Definition gate_pos (g : Gate) : Z * Z := (gate_x g, gate_y g).

(** The cell a wire or a gate addresses. *)
Definition cell_of_wire (grid : Cells) (w : Wire) : result Cell :=
  cell_at grid (wire_z w) (wire_y w) (wire_x w).

Definition cell_of_gate (grid : Cells) (g : Gate) : result Cell :=
  cell_at grid 0 (gate_y g) (gate_x g).

(** A small chip used in the examples: three gates, one net routed over
    layer 1, and a net that runs into the third gate. *)
Definition example_gates : list Gate :=
  [mkGate "1" 0 0; mkGate "2" 2 0; mkGate "3" 1 1].

Definition example_net : Net :=
  mkNet (mkGate "1" 0 0) (mkGate "2" 2 0)
    [mkWire 0 0 0; mkWire 0 0 1; mkWire 1 0 1; mkWire 2 0 1; mkWire 2 0 0].

Definition example_crossing_net : Net :=
  mkNet (mkGate "1" 0 0) (mkGate "2" 2 0)
    [mkWire 0 0 0; mkWire 0 1 0; mkWire 1 1 0; mkWire 2 1 0; mkWire 2 0 0].

Definition example_grid0 : Grid :=
  match Grid_init example_gates with
  | Ok g => g
  | Raise _ => mkGrid [] [] 0 0 []
  end.

Definition example_grid : Grid := (place_nets example_grid0 [example_net]).1.

(** *** The wires column in [check_file] *)

(** [r"^\d+,\d+(,\d+)?$"] *)
Definition wire_pattern : regex :=
  Cat (Plus Digit) (Cat (Lit ",") (Cat (Plus Digit)
      (Opt (Cat (Lit ",") (Plus Digit))))).

(** [coords = [x[2:-2].split("),(") for x in df["wires"][:-1]]] *)
Definition coords (wires_column : list string) : list (list string) :=
  (fun x => split "),(" (str_slice_2_m2 x)) <$> wires_column.

(** The list [wire_bools] after its second assignment: the row index and
    the text of every coordinate that does not match. *)
Definition wire_bools (wires_column : list string) : list (nat * string) :=
  '(i, c) ← imap (fun i c => (i, c)) (coords wires_column);
  x ← c;
  if anchored_match wire_pattern x then [] else [(i, "(" +:+ x +:+ ")")].

(** The last block of [check_file], on the wires fields of the data rows
    (the footer row is left out by [df["wires"][:-1]]). *)
Definition check_file_wires (wires_column : list string) : result unit :=
  match wire_bools wires_column with
  | [] => Ok tt
  | _ :: _ => Raise Failure
  end.

(** Specification vocabulary: the text of one coordinate tuple,
    [(<x>,<y>)] or [(<x>,<y>,<z>)], each number a non-empty run of digits. *)
Fixpoint all_digits (s : string) : bool :=
  match s with
  | EmptyString => true
  | String c s' => is_digit c && all_digits s'
  end.

Definition numeral (s : string) : Prop :=
  s <> EmptyString /\ all_digits s = true.

Inductive tuple_body : string -> Prop :=
  | body_xy x y : numeral x -> numeral y -> tuple_body (x +:+ "," +:+ y)
  | body_xyz x y z :
      numeral x -> numeral y -> numeral z ->
      tuple_body (x +:+ "," +:+ y +:+ "," +:+ z).

(** The tuples [(b1),(b2),...,(bn)] written one after the other, separated
    by commas. *)
Fixpoint tuples_text (bodies : list string) : string :=
  match bodies with
  | [] => EmptyString
  | [b] => "(" +:+ b +:+ ")"
  | b :: rest => "(" +:+ b +:+ ")," +:+ tuples_text rest
  end.

(** The same tuples without the outermost pair of brackets. *)
Fixpoint tuples_inner (bodies : list string) : string :=
  match bodies with
  | [] => EmptyString
  | [b] => b
  | b :: rest => b +:+ "),(" +:+ tuples_inner rest
  end.

(** No character of [s] is [c]. *)
Fixpoint free_of (c : ascii) (s : string) : bool :=
  match s with
  | EmptyString => true
  | String d s' => negb (bool_decide (d = c)) && free_of c s'
  end.

(** *** The nets column in [check_file] *)

(** [r"^\(\d+,\d+\)$"] *)
(** A field written in ASCII. The strings of this development are byte
    strings: on ASCII text they are Python's strings character for
    character, and the class [\d] of [re] holds the digits 0 to 9 only. *)
Definition ascii_text (x : string) : Prop :=
  Forall (fun c => (nat_of_ascii c < 128)%nat) (list_ascii_of_string x).

#[global] Instance ascii_text_dec x : Decision (ascii_text x).
Proof. unfold ascii_text. apply _. Defined.

Definition net_pattern : regex :=
  Cat (Lit "(") (Cat (Plus Digit) (Cat (Lit ",") (Cat (Plus Digit) (Lit ")")))).

(** The block of [check_file] on the net fields of the data rows:
    [net_bools] holds one truth value per row, and the check fails when
    [False] is among them. *)
Definition check_file_nets (net_column : list string) : result unit :=
  let net_bools := anchored_match net_pattern <$> net_column in
  if bool_decide (false ∈ net_bools) then Raise Failure else Ok tt.

(** *** [check_netlist_complete] *)

(** The three failures of [check_netlist_complete], with what their
    messages report. *)
Inductive netlist_failure : Type :=
  | DuplicateGates (duplicates : list (Z * Z))
  | MissingNets (missing_gates : gset (Z * Z))
  | AdditionalNets (extra_gates : gset (Z * Z)).

(** The loop [for a, b in output_gates] that turns a net of the netlist
    around when the output lists it the other way. *)
Definition orient_step (netlist_gates : gset (Z * Z)) (gate : Z * Z)
  : gset (Z * Z) :=
  let '(a, b) := gate in
  if bool_decide ((a, b) ∉ netlist_gates) && bool_decide ((b, a) ∈ netlist_gates)
  then {[(a, b)]} ∪ (netlist_gates ∖ {[(b, a)]})
  else netlist_gates.

(** The loop that collects [duplicates]; [seen] is its set. *)
Fixpoint collect_duplicates (seen : gset (Z * Z)) (output_gates : list (Z * Z))
  : list (Z * Z) :=
  match output_gates with
  | [] => []
  | gate :: rest =>
      if bool_decide (gate ∉ seen) then collect_duplicates ({[gate]} ∪ seen) rest
      else gate :: collect_duplicates seen rest
  end.

(** [check_netlist_complete], on the pairs of gate numbers read from the
    netlist file and from the net fields of the output ([check_file] has
    checked their format before). [None] is the normal return. *)
Definition check_netlist_complete (netlist_file output_data : list (Z * Z))
  : option netlist_failure :=
  let netlist_gates : gset (Z * Z) := list_to_set netlist_file in
  let output_gates := output_data in
  let netlist_gates := foldl orient_step netlist_gates output_gates in
  if negb (bool_decide
             (size (list_to_set output_gates : gset (Z * Z)) = length output_gates))
  then Some (DuplicateGates (collect_duplicates ∅ output_gates))
  else
    let output_gates : gset (Z * Z) := list_to_set output_gates in
    if negb (bool_decide (netlist_gates = output_gates)) then
      let missing_gates := netlist_gates ∖ output_gates in
      if negb (bool_decide (missing_gates = ∅))
      then Some (MissingNets missing_gates)
      else Some (AdditionalNets (output_gates ∖ netlist_gates))
    else None.

(** [is_cost_correct] *)
Definition is_cost_correct (output_cost cost : Z) : result unit :=
  if negb (bool_decide (output_cost = cost)) then Raise Failure else Ok tt.

Definition swap_gates (gate : Z * Z) : Z * Z := (gate.2, gate.1).

(** A property of every cell of every layer. *)
Definition all_cells (P : Cell -> Prop) (grid : Cells) : Prop :=
  Forall (Forall (Forall P)) grid.

#[global] Instance Wire_eq_dec : EqDecision Wire.
Proof. solve_decision. Defined.

Definition nonneg_wire (w : Wire) : Prop :=
  0 <= wire_x w /\ 0 <= wire_y w /\ 0 <= wire_z w.

End Chips.

(** ** lectures_and_lesroosters *)

Module Lectures.

(** A record of [output.csv]. *)
Record Row : Set := mkRow {
  student : string;
  course : string;
  activity : string;
  day : string;
  time : Z;
  room : string
}.

(** A record of [vakken.csv], with the columns the check reads. *)
Record CourseRow : Set := mkCourseRow {
  Vak : string;
  Hoorcolleges : Z;
  Werkcolleges : Z;
  Practica : Z
}.

(** [str(n)] *)
Definition str (n : Z) : string :=
  DecimalString.NilZero.string_of_int (Z.to_int n).

(** Truth value of a string. *)
Definition truthy (s : string) : bool :=
  negb (bool_decide (s = EmptyString)).

(** [only_biggest_in_evening] *)
Definition only_biggest_in_evening (schedule : list Row) : result unit :=
  if bool_decide (17 ∈ time <$> schedule) then
    let evening_group := filter (fun r => time r = 17) schedule in
    if negb (forallb truthy (room <$> evening_group)) then Raise Failure
    else
      do first <- getitem (room <$> evening_group) 0;
      if negb (bool_decide (first = "C0.110"%string)) then Raise Failure
      else Ok tt
  else Ok tt.

(** The keys of [schedule.groupby(["course", "activity"])], collected in
    the set [scheduled]. *)
Definition scheduled (schedule : list Row) : gset (string * string) :=
  list_to_set ((fun r => (course r, activity r)) <$> schedule).

(** The body of the loop over the rows of [vakken.csv]: the pairs it adds
    to [necessary], in order. *)
Definition necessary_of_row (row : CourseRow) : list (string * string) :=
  let h := Hoorcolleges row in
  let w := Werkcolleges row in
  let p := Practica row in
  ((fun j => (Vak row, "h" +:+ str (j + 1))) <$> range h)
  ++ ((fun j => (Vak row, "w" +:+ str (j + 1))) <$> range w)
  ++ ((fun j => (Vak row, "h" +:+ str (j + 1))) <$> range h).

Definition necessary (courses : list CourseRow) : gset (string * string) :=
  list_to_set (courses ≫= necessary_of_row).

(** [are_all_courses_scheduled]; [issubset] on the two sets. *)
Definition are_all_courses_scheduled
  (schedule : list Row) (courses : list CourseRow) : result unit :=
  if negb (bool_decide (necessary courses ⊆ scheduled schedule))
  then Raise Failure
  else Ok tt.

(** Specification vocabulary: the activity instances that the declared
    counts of a course require. *)
Definition required_of_row (row : CourseRow) : list (string * string) :=
  ((fun j => (Vak row, "h" +:+ str (j + 1))) <$> range (Hoorcolleges row))
  ++ ((fun j => (Vak row, "w" +:+ str (j + 1))) <$> range (Werkcolleges row))
  ++ ((fun j => (Vak row, "p" +:+ str (j + 1))) <$> range (Practica row)).

Definition required (courses : list CourseRow) : gset (string * string) :=
  list_to_set (courses ≫= required_of_row).

(** *** Data frames *)

(** [df.duplicated(subset)] on the keys of the rows: a row is marked when
    an earlier row has its key. *)
Fixpoint duplicated_go {K} `{Countable K} (seen : gset K) (keys : list K)
  : list bool :=
  match keys with
  | [] => []
  | k :: rest => bool_decide (k ∈ seen) :: duplicated_go ({[k]} ∪ seen) rest
  end.

Definition duplicated {R K} `{Countable K} (key : R -> K) (df : list R)
  : list bool :=
  duplicated_go ∅ (key <$> df).

(** [df[mask]]: the rows that a boolean column selects. *)
Fixpoint mask_rows {R} (df : list R) (mask : list bool) : list R :=
  match df, mask with
  | r :: df', b :: mask' =>
      if b then r :: mask_rows df' mask' else mask_rows df' mask'
  | _, _ => []
  end.

(** [df.shape[0]] *)
Definition shape0 {R} (df : list R) : Z := Z.of_nat (length df).

(** The texts that [read_csv] reads as a missing value. *)
Definition na_values : list string :=
  [EmptyString; "#N/A"; "#N/A N/A"; "#NA"; "-1.#IND"; "-1.#QNAN"; "-NaN";
   "-nan"; "1.#IND"; "1.#QNAN"; "<NA>"; "N/A"; "NA"; "NULL"; "NaN"; "None";
   "n/a"; "nan"; "null"]%string.

Definition isna (field : string) : bool := bool_decide (field ∈ na_values).

(** A field that [read_csv] keeps as the text it is, whatever else its
    column holds: it begins with a letter and spells no number and no truth
    value. A column of such fields and missing ones is a column of strings
    and [NaN]. *)
Definition is_letter (c : ascii) : bool :=
  let n := nat_of_ascii c in
  ((65 <=? n) && (n <=? 90) || (97 <=? n) && (n <=? 122))%nat.

Definition lower (c : ascii) : ascii :=
  let n := nat_of_ascii c in
  if ((65 <=? n) && (n <=? 90))%nat then ascii_of_nat (n + 32) else c.

Fixpoint lower_text (field : string) : string :=
  match field with
  | EmptyString => EmptyString
  | String c rest => String (lower c) (lower_text rest)
  end.

Definition textual (field : string) : bool :=
  match field with
  | EmptyString => false
  | String c _ =>
      is_letter c
      && negb (bool_decide
                 (lower_text field
                  ∈ ["inf"; "infinity"; "nan"; "true"; "false"]%string))
  end.

Definition text_or_missing (field : string) : Prop :=
  isna field = true \/ textual field = true.

#[global] Instance text_or_missing_dec field : Decision (text_or_missing field).
Proof. unfold text_or_missing. apply _. Defined.

(** [df.groupby(columns)], iterated: the rows with a missing value in a key
    column are left out ([key] gives [None] for them); there is one group
    for each key, in the order of the sorted keys; a group holds the rows of
    its key in the order of the frame. *)
Definition groupby {R K} `{EqDecision K} (le : relation K)
  `{!forall a b, Decision (le a b)} (key : R -> option K) (df : list R)
  : list (K * list R) :=
  (fun k => (k, filter (fun r => key r = Some k) df))
    <$> merge_sort le (remove_dups (omap key df)).

(** The value of a computation on [int64] whose exact result is [z]. *)
Definition int64 (z : Z) : Z := (z + 2 ^ 63) `mod` 2 ^ 64 - 2 ^ 63.

(** Comparison of tuples, column after column. *)
Definition then_by (c d : comparison) : comparison :=
  match c with
  | Eq => d
  | _ => c
  end.

Definition not_after (c : comparison) : Prop := c <> Gt.



(** The key of [schedule.groupby(["course", "activity", "room", "time",
    "day"])] and the order of these keys. *)
Definition course_key (r : Row)
  : option (string * string * string * Z * string) :=
  if isna (course r) || isna (activity r) || isna (room r) || isna (day r)
  then None
  else Some (course r, activity r, room r, time r, day r).

Definition course_key_le (a b : string * string * string * Z * string) : Prop :=
  not_after
    (then_by (String.compare a.1.1.1.1 b.1.1.1.1)
       (then_by (String.compare a.1.1.1.2 b.1.1.1.2)
          (then_by (String.compare a.1.1.2 b.1.1.2)
             (then_by (a.1.2 ?= b.1.2)
                (String.compare a.2 b.2))))).

#[global] Instance course_key_le_dec a b : Decision (course_key_le a b).
Proof. unfold course_key_le, not_after. apply _. Defined.


(** A record of [zalen.csv]. *)
Record RoomRow : Set := mkRoomRow {
  Zaalnummber : string;
  Max_capaciteit : Z
}.

(** [get_room_malus]; [iterrows] yields the positions of the rows, which
    [rooms.iloc[i]] reads again. The capacity is an [int64] of the frame,
    and so are the difference, its absolute value and the sum. *)
Definition get_room_malus (schedule : list Row) (rooms : list RoomRow)
  : result Z :=
  let courses := groupby course_key_le course_key schedule in
  for_each (fun malus_students_room (cg : _ * list Row) =>
              let students := shape0 cg.2 in
              do first <- getitem cg.2 0;
              let room := room first in
              for_each (fun malus_students_room i =>
                          do row <- getitem rooms i;
                          if bool_decide (Zaalnummber row = room) then
                            do row <- getitem rooms i;
                            let capacity := Max_capaciteit row in
                            if int64 (capacity - students) <? 0
                            then Ok (int64
                                       (malus_students_room
                                        + int64 (Z.abs (int64 (capacity
                                                               - students)))))
                            else Ok malus_students_room
                          else Ok malus_students_room)
                       malus_students_room (range (shape0 rooms)))
           0 courses.

(** The key of [df.groupby(["student", "day"])] and the order of these
    keys. *)
Definition student_day_key (r : Row) : option (string * string) :=
  if isna (student r) || isna (day r) then None
  else Some (student r, day r).

Definition student_day_le (a b : string * string) : Prop :=
  not_after (then_by (String.compare a.1 b.1) (String.compare a.2 b.2)).

#[global] Instance student_day_le_dec a b : Decision (student_day_le a b).
Proof. unfold student_day_le, not_after. apply _. Defined.

(** [group.sort_values("time")] *)
Definition time_le (a b : Row) : Prop := time a <= time b.

#[global] Instance time_le_dec a b : Decision (time_le a b).
Proof. unfold time_le. apply _. Defined.

Definition sort_values_time (group : list Row) : list Row :=
  merge_sort time_le group.

(** [courses.drop_duplicates("time")]: the first row of each time stays. *)
Definition drop_duplicates_time (courses : list Row) : list Row :=
  mask_rows courses (negb <$> duplicated time courses).

(** One turn of the loop of [check_free_slots], on the pair of [malus] and
    [infeasible_students]. The times are [int64] values of the frame, and so
    is their difference. *)
Definition free_slots_of_group (counts : Z * Z) (sg : (string * string) * list Row)
  : result (Z * Z) :=
  let '(malus, infeasible_students) := counts in
  let courses := sort_values_time sg.2 in
  let slots := drop_duplicates_time courses in
  if 1 <? shape0 slots then
    do first_row <- getitem slots 0;
    let first := time first_row in
    do last_row <- getitem slots (-1);
    let last := time last_row in
    if shape0 slots =? 2 then
      if int64 (last - first) =? 4 then Ok (malus + 1, infeasible_students)
      else if int64 (last - first) =? 6 then Ok (malus + 3, infeasible_students)
      else if 6 <? int64 (last - first) then Ok (malus, infeasible_students + 1)
      else Ok (malus, infeasible_students)
    else if shape0 slots =? 3 then
      if int64 (last - first) =? 6 then Ok (malus + 1, infeasible_students)
      else if int64 (last - first) =? 8 then Ok (malus + 3, infeasible_students)
      else Ok (malus, infeasible_students)
    else if shape0 slots =? 4 then
      if int64 (last - first) =? 10 then Ok (malus + 1, infeasible_students)
      else Ok (malus, infeasible_students)
    else Ok (malus, infeasible_students)
  else Ok (malus, infeasible_students).

(** [check_free_slots] *)
Definition check_free_slots (df : list Row) : result (Z * Z) :=
  let student_day :=
    groupby student_day_le student_day_key df in
  for_each free_slots_of_group (0, 0) student_day.

(** [not_exceed_free_slots] *)
Definition not_exceed_free_slots (schedule : list Row) : result Z :=
  do counts <- check_free_slots schedule;
  let '(malus, infeasible_students) := counts in
  if 0 <? infeasible_students then Raise Failure
  else Ok malus.

(** The frames that the theorems below are about: the named columns hold
    text or nothing. *)
Definition text_keys (schedule : list Row) : Prop :=
  forall r, r ∈ schedule ->
    text_or_missing (course r) /\ text_or_missing (activity r)
    /\ text_or_missing (room r) /\ text_or_missing (day r).

Definition text_student_days (schedule : list Row) : Prop :=
  forall r, r ∈ schedule ->
    text_or_missing (student r) /\ text_or_missing (day r).

(** Specification vocabulary: some student has, on some day, records at
    exactly two different times, and these are more than six hours apart.
    Records without a student or a day do not count. *)
Definition two_times_far_apart (schedule : list Row) : Prop :=
  exists k r1 r2,
    r1 ∈ schedule /\ r2 ∈ schedule
    /\ student_day_key r1 = Some k /\ student_day_key r2 = Some k
    /\ 6 < time r2 - time r1
    /\ forall r, r ∈ schedule -> student_day_key r = Some k ->
         time r = time r1 \/ time r = time r2.

(** Specification vocabulary: the number of records of the schedule that
    have the course, activity, room, time and day of [row]. *)
Definition group_size (schedule : list Row) (row : Row) : Z :=
  shape0 (filter (fun r => course_key r = course_key row) schedule).

End Lectures.

(** ** rush_hour *)

Module RushHour.

Record Vehicle : Set := mkVehicle {
  name : string;
  orientation : string;
  length : Z
}.

#[global] Instance Vehicle_eq_dec : EqDecision Vehicle.
Proof. solve_decision. Defined.

(** [Vehicle.__eq__] *)
Definition Vehicle_eq (self other : Vehicle) : bool :=
  bool_decide (name self = name other).

(** A tile holds a vehicle or [Board.EMPTY_TILE]. *)
Abbreviation Tile := (option Vehicle).
Definition EMPTY_TILE : Tile := None.

(** [tile == vehicle]: the empty tile is a string, equal to no vehicle. *)
Definition Tile_eq (tile : Tile) (vehicle : Vehicle) : bool :=
  match tile with
  | Some v => Vehicle_eq v vehicle
  | None => false
  end.

Record Board : Type := mkBoard {
  size : Z;
  vehicles : list Vehicle;
  _board : list (list Tile)
}.

(** [Board.__init__] *)
Definition Board_init (size : Z) : Board :=
  mkBoard size []
    ((fun _ => replicate (Z.to_nat size) EMPTY_TILE) <$> range size).

(** [i in range(n)] *)
Definition in_range (i n : Z) : bool := (0 <=? i) && (i <? n).

(** The list [locations] of [Board.place]. *)
Definition locations (vehicle : Vehicle) (col row : Z) : list (Z * Z) :=
  if bool_decide (orientation vehicle = "V"%string)
  then (fun i => (col, row + i)) <$> range (length vehicle)
  else (fun i => (col + i, row)) <$> range (length vehicle).

(** [self._board[col][row] = vehicle] *)
Definition set_tile (board : list (list Tile)) (col row : Z) (v : Vehicle)
  : result (list (list Tile)) :=
  do pc <- locate board col;
  do pr <- locate pc.2 row;
  Ok (<[pc.1 := <[pr.1 := Some v]> pc.2]> board).

(** One turn of the loop of [Board.place]. *)
Definition place_tile (size : Z) (vehicle : Vehicle)
  (board : list (list Tile)) (loc : Z * Z) : result (list (list Tile)) :=
  let '(col, row) := loc in
  if negb (in_range col size) || negb (in_range row size) then Raise WallHit
  else
    do column <- getitem board col;
    do tile <- getitem column row;
    match tile with
    | Some _ => Raise Collision
    | None => set_tile board col row vehicle
    end.

(** [Board.place]. The method fills the board it is called on; whenever it
    raises, its callers ([load] and [move]) drop that board, so the result
    carries the board on success only. *)
Definition place (self : Board) (vehicle : Vehicle) (col row : Z) : result Board :=
  do board <- for_each (place_tile (size self) vehicle) (_board self)
                       (locations vehicle col row);
  Ok (mkBoard (size self) (vehicles self ++ [vehicle]) board).

(** The loop of [Board.location_of] over the cells in scanning order. *)
Fixpoint location_scan (board : list (list Tile)) (vehicle : Vehicle)
  (cells : list (Z * Z)) : result (option (Z * Z)) :=
  match cells with
  | [] => Ok None
  | (col, row) :: rest =>
      do column <- getitem board col;
      do tile <- getitem column row;
      if Tile_eq tile vehicle then Ok (Some (col, row))
      else location_scan board vehicle rest
  end.

(** [for row in range(size): for col in range(size)] *)
Definition scan_order (size : Z) : list (Z * Z) :=
  row ← range size; col ← range size; [(col, row)].

(** [Board.location_of]; the result is [None] when the loops end. *)
Definition location_of (self : Board) (vehicle : Vehicle)
  : result (option (Z * Z)) :=
  location_scan (_board self) vehicle (scan_order (size self)).

(** Unpacking [col, row] from the result of [location_of]. *)
Definition unpack (loc : option (Z * Z)) : result (Z * Z) :=
  match loc with
  | Some p => Ok p
  | None => Raise TypeError
  end.

(** One turn of the loop of [Board.move]. *)
Definition move_step (self : Board) (vehicle : Vehicle)
  (cursor_board : Board) (move : Z) : result Board :=
  let new_board := Board_init (size cursor_board) in
  let other_vehicles :=
    filter (fun v => negb (Vehicle_eq v vehicle) = true) (vehicles self) in
  do new_board <-
    for_each (fun new_board other_vehicle =>
                do loc <- location_of cursor_board other_vehicle;
                do cr <- unpack loc;
                place new_board other_vehicle cr.1 cr.2)
             new_board other_vehicles;
  do loc <- location_of cursor_board vehicle;
  do cr <- unpack loc;
  let '(col, row) :=
    if bool_decide (orientation vehicle = "V"%string)
    then (cr.1, cr.2 + move) else (cr.1 + move, cr.2) in
  place new_board vehicle col row.

(** [Board.move] *)
Definition move (self : Board) (vehicle : Vehicle) (steps : Z) : result Board :=
  let moves := if 0 <=? steps then replicate (Z.to_nat steps) 1
               else replicate (Z.to_nat (Z.abs steps)) (-1) in
  for_each (move_step self vehicle) self moves.

(** A record of the board file. *)
Record Entry : Set := mkEntry {
  entry_car : string;
  entry_orientation : string;
  entry_length : Z;
  entry_col : Z;
  entry_row : Z
}.

(** [Board.load], with the global [BOARD_SIZE] as a parameter. *)
Definition load (BOARD_SIZE : Z) (file : list Entry) : result Board :=
  for_each (fun board entry =>
              let vehicle := mkVehicle (entry_car entry) (entry_orientation entry)
                                       (entry_length entry) in
              let col := entry_col entry - 1 in
              let row := entry_row entry - 1 in
              do board <- place board vehicle col row;
              do loc <- location_of board vehicle;
              if bool_decide (loc = Some (col, row)) then Ok board
              else Raise AssertionError)
           (Board_init BOARD_SIZE) file.

(** [Board.is_solved] *)
Definition is_solved (self : Board) : result bool :=
  let goal_col := size self - 1 in
  let goal_row := (size self - 1) `div` 2 in
  do column <- getitem (_board self) goal_col;
  do vehicle_at_goal <- getitem column goal_row;
  match vehicle_at_goal with
  | None => Ok false
  | Some v => Ok (bool_decide (name v = "X"%string))
  end.

(** Specification vocabulary. *)

(** The tile stored for a cell whose coordinates are within the board. *)
Definition read (board : list (list Tile)) (loc : Z * Z) : option Tile :=
  column ← board !! Z.to_nat loc.1; column !! Z.to_nat loc.2.

Definition in_bounds (size : Z) (loc : Z * Z) : Prop :=
  (0 <= loc.1 < size) /\ (0 <= loc.2 < size).

#[global] Instance in_bounds_dec size loc : Decision (in_bounds size loc).
Proof. unfold in_bounds. apply _. Defined.

(** The cells a vehicle anchored at [(col, row)] takes up, from the anchor
    on. *)
Definition footprint (vehicle : Vehicle) (col row : Z) : list (Z * Z) :=
  locations vehicle col row.

Definition empty_at (self : Board) (loc : Z * Z) : Prop :=
  read (_board self) loc = Some None.

#[global] Instance empty_at_dec self loc : Decision (empty_at self loc).
Proof. unfold empty_at. apply _. Defined.

Definition occupied_at (self : Board) (loc : Z * Z) : Prop :=
  exists v, read (_board self) loc = Some (Some v).

(** A square array of tiles, as [Board.__init__] builds it. *)
Definition wf_tiles (size : Z) (board : list (list Tile)) : Prop :=
  List.length board = Z.to_nat size
  /\ Forall (fun column => List.length column = Z.to_nat size) board.

Definition wf_board (self : Board) : Prop :=
  wf_tiles (size self) (_board self).

(** A vehicle with the cell of its anchor. *)
Abbreviation Placement := (Vehicle * (Z * Z))%type.

Definition covers (p : Placement) (loc : Z * Z) : Prop :=
  loc ∈ footprint p.1 p.2.1 p.2.2.

(** The board obtained by placing the vehicles of a layout one after the
    other on an empty board, as [load] and [move] do. *)
Definition place_all (size : Z) (layout : list Placement) : result Board :=
  for_each (fun board p => place board p.1 p.2.1 p.2.2) (Board_init size) layout.

(** A board shows a layout: its tiles are the footprints of the layout. *)
Definition represents (sz : Z) (layout : list Placement) (self : Board) : Prop :=
  size self = sz
  /\ wf_tiles sz (_board self)
  /\ vehicles self = layout.*1
  /\ (forall p loc, p ∈ layout -> covers p loc -> in_bounds sz loc)
  /\ (forall loc v, in_bounds sz loc ->
        read (_board self) loc = Some (Some v)
        <-> exists p, p ∈ layout /\ p.1 = v /\ covers p loc).

(** The anchor of a vehicle after [d] unit steps along its orientation. *)
Definition shift (vehicle : Vehicle) (pos : Z * Z) (d : Z) : Z * Z :=
  if bool_decide (orientation vehicle = "V"%string)
  then (pos.1, pos.2 + d) else (pos.1 + d, pos.2).

(** [layout] is [layout0] with [vehicle] moved by [d]. *)
Definition moved (layout0 : list Placement) (vehicle : Vehicle) (d : Z)
  (layout : list Placement) : Prop :=
  forall p, p ∈ layout <->
    (p ∈ layout0 /\ name p.1 <> name vehicle)
    \/ (exists pos, (vehicle, pos) ∈ layout0 /\ p = (vehicle, shift vehicle pos d)).

(** The placement a record of the board file asks for. *)
Definition placement_of_entry (entry : Entry) : Placement :=
  (mkVehicle (entry_car entry) (entry_orientation entry) (entry_length entry),
   (entry_col entry - 1, entry_row entry - 1)).

(** The boards the checker works on: the loaded board and the boards that
    moves of its vehicles produce. *)
Inductive reachable (BOARD_SIZE : Z) : Board -> Prop :=
  | reachable_load file b :
      load BOARD_SIZE file = Ok b -> reachable BOARD_SIZE b
  | reachable_move b vehicle steps b' :
      reachable BOARD_SIZE b -> vehicle ∈ vehicles b ->
      move b vehicle steps = Ok b' -> reachable BOARD_SIZE b'.

(** A record of [output.csv]; the move column holds integers. *)
Record MoveEntry : Set := mkMoveEntry {
  move_car : string;
  move_steps : Z
}.

(** [check_moves], with the two files as the lists of their records. *)
Definition check_moves (BOARD_SIZE : Z) (board_file : list Entry)
  (output_file : list MoveEntry) : result unit :=
  do board <- load BOARD_SIZE board_file;
  let vehicles := vehicles board in
  do board <-
    for_each (fun board entry =>
                do vehicle <-
                  getitem (filter (fun vehicle => name vehicle = move_car entry)
                                  vehicles) 0;
                match move board vehicle (move_steps entry) with
                | Ok board => Ok board
                | Raise Collision => Raise Failure
                | Raise WallHit => Raise Failure
                | Raise e => Raise e
                end)
             board output_file;
  do solved <- is_solved board;
  if negb solved then Raise Failure else Ok tt.

(** [k] lies on the way from 0 to [n]. *)
Definition between (k n : Z) : Prop := 0 <= k <= n \/ n <= k <= 0.

(** The cells of [vehicle] anchored at [pos] are free on [layout]: within
    the walls and covered by no vehicle of another name. *)
Definition free_for (sz : Z) (layout : list Placement) (vehicle : Vehicle)
  (pos : Z * Z) : Prop :=
  forall loc, loc ∈ footprint vehicle pos.1 pos.2 ->
    in_bounds sz loc
    /\ forall q, q ∈ layout -> name q.1 <> name vehicle -> ~ covers q loc.

(** The rules of the game: the records of [output.csv] are played one after
    the other from a layout; each names a vehicle of the layout, which
    slides along its orientation over free cells only. *)
Inductive plays (sz : Z)
  : list Placement -> list MoveEntry -> list Placement -> Prop :=
  | plays_done layout : plays sz layout [] layout
  | plays_move layout entry vehicle pos layout' rest final :
      (vehicle, pos) ∈ layout ->
      name vehicle = move_car entry ->
      (forall k, between k (move_steps entry) ->
         free_for sz layout vehicle (shift vehicle pos k)) ->
      moved layout vehicle (move_steps entry) layout' ->
      plays sz layout' rest final ->
      plays sz layout (entry :: rest) final.

(** Boards used in the examples. *)
Definition example_board : Board :=
  match load 6 [mkEntry "A" "H" 2 1 1; mkEntry "B" "V" 3 4 1;
                mkEntry "X" "H" 2 2 3] with
  | Ok b => b
  | Raise _ => Board_init 6
  end.

Definition example_layout : list Placement :=
  [(mkVehicle "A" "H" 2, (0, 0)); (mkVehicle "B" "V" 3, (3, 0));
   (mkVehicle "X" "H" 2, (1, 2))].

Definition example_board_there : Board :=
  match move example_board (mkVehicle "A" "H" 2) 1 with
  | Ok b => b
  | Raise _ => Board_init 6
  end.

Definition example_board_back : Board :=
  match move example_board_there (mkVehicle "A" "H" 2) (-1) with
  | Ok b => b
  | Raise _ => Board_init 6
  end.

(** Two vehicles of the same name, as [load] accepts them. *)
Definition example_twins : Board :=
  match load 6 [mkEntry "A" "H" 2 3 3; mkEntry "A" "H" 2 1 1] with
  | Ok b => b
  | Raise _ => Board_init 6
  end.

Definition example_twins_there : Board :=
  match move example_twins (mkVehicle "A" "H" 2) 1 with
  | Ok b => b
  | Raise _ => Board_init 6
  end.

Definition example_twins_back : Board :=
  match move example_twins_there (mkVehicle "A" "H" 2) (-1) with
  | Ok b => b
  | Raise _ => Board_init 6
  end.

(** No two placements of a layout share a cell. *)
Definition disjoint_layout (layout : list Placement) : Prop :=
  forall i j p q loc,
    layout !! i = Some p -> layout !! j = Some q ->
    covers p loc -> covers q loc -> i = j.

(** The cell that [is_solved] looks at. *)
Definition goal_cell (size : Z) : Z * Z := (size - 1, (size - 1) `div` 2).

End RushHour.

(** * Properties *)

(** ** Facts about the Python fragments *)

Section PyFacts.

Lemma bind_Ok_inv {A B} (m : result A) (k : A -> result B) b :
  bind m k = Ok b -> exists a, m = Ok a /\ k a = Ok b.
Proof. destruct m as [a|e]; simpl; [eauto | discriminate]. Qed.

Lemma range_length n : length (range n) = Z.to_nat n.
Proof. unfold range. by rewrite length_fmap, length_seq. Qed.

Lemma elem_of_range n i : i ∈ range n <-> 0 <= i < n.
Proof.
  unfold range. rewrite list_elem_of_fmap. split.
  - intros (k & -> & Hk). apply elem_of_seq in Hk. lia.
  - intros Hi. exists (Z.to_nat i). split; [lia|]. apply elem_of_seq. lia.
Qed.

Lemma py_index_nonneg len i :
  0 <= i < Z.of_nat len -> py_index len i = Some (Z.to_nat i).
Proof.
  intros Hi. unfold py_index.
  destruct (Z.leb_spec 0 i), (Z.ltb_spec i (Z.of_nat len)); simpl; try lia; done.
Qed.

Lemma locate_nonneg {A} (l : list A) i a :
  0 <= i -> l !! Z.to_nat i = Some a -> locate l i = Ok (Z.to_nat i, a).
Proof.
  intros Hi Hl. unfold locate.
  rewrite py_index_nonneg, Hl; [done|].
  apply lookup_lt_Some in Hl. lia.
Qed.

Lemma getitem_nonneg {A} (l : list A) i a :
  0 <= i -> l !! Z.to_nat i = Some a -> getitem l i = Ok a.
Proof. intros Hi Hl. unfold getitem. by rewrite (locate_nonneg l i a). Qed.

Lemma getitem_head {A} (l : list A) a : head l = Some a -> getitem l 0 = Ok a.
Proof. destruct l; [discriminate|]. intros [= ->]. by apply getitem_nonneg. Qed.

Lemma getitem_last {A} (l : list A) a : last l = Some a -> getitem l (-1) = Ok a.
Proof.
  intros Hl. rewrite last_lookup in Hl.
  assert (length l <> 0)%nat as Hne by (destruct l; [discriminate | done]).
  unfold getitem, locate, py_index.
  destruct (Z.ltb_spec (-1) (Z.of_nat (length l))); simpl; [|lia].
  destruct (Z.leb_spec (- Z.of_nat (length l)) (-1)); simpl; [|lia].
  replace (Z.to_nat (Z.of_nat (length l) + -1)) with (pred (length l)) by lia.
  by rewrite Hl.
Qed.

End PyFacts.

(** ** Nets *)

Section NetFacts.
Import Chips.

Lemma is_connected_to_gate_spec w g :
  is_connected_to_gate w g = true <-> coincides w g.
Proof.
  unfold is_connected_to_gate, _is_neighbor, coincides, position, Gate_positioned.
  rewrite Z.eqb_eq. lia.
Qed.

Lemma coincides_iff_distance w g : coincides w g <-> gate_distance w g = 0.
Proof. unfold coincides, gate_distance. lia. Qed.

Lemma is_neighbor_of_wire_spec a b :
  is_neighbor_of_wire a b = true <-> manhattan a b = 1.
Proof.
  unfold is_neighbor_of_wire, _is_neighbor, manhattan, position, Wire_positioned.
  by rewrite Z.eqb_eq.
Qed.

Lemma _check_connected_spec ga gb ws first final :
  head ws = Some first -> last ws = Some final ->
  (anchored first final ga gb -> _check_connected (mkNet ga gb ws) = Ok tt)
  /\ (~ anchored first final ga gb ->
      _check_connected (mkNet ga gb ws) = Raise UnconnectedNetError).
Proof.
  intros Hh Hl. unfold _check_connected, anchored, pairing. simpl.
  rewrite (getitem_head _ _ Hh), (getitem_last _ _ Hl). simpl.
  pose proof (is_connected_to_gate_spec first ga).
  pose proof (is_connected_to_gate_spec first gb).
  pose proof (is_connected_to_gate_spec final ga).
  pose proof (is_connected_to_gate_spec final gb).
  destruct (is_connected_to_gate first ga), (is_connected_to_gate final gb),
    (is_connected_to_gate first gb), (is_connected_to_gate final ga);
    simpl; split; intros; try done; exfalso; intuition congruence.
Qed.

Lemma _check_continuous_loop_spec cursor rest :
  (gap (cursor :: rest) /\
   _check_continuous_loop cursor rest = Raise InteruptedNetError)
  \/ (~ gap (cursor :: rest) /\ _check_continuous_loop cursor rest = Ok tt).
Proof.
  revert cursor. induction rest as [|wire rest IH]; intros cursor; simpl.
  - right. split; [|done]. intros (i & a & b & _ & Hb & _).
    by destruct i.
  - destruct (is_neighbor_of_wire cursor wire) eqn:E; simpl.
    + apply is_neighbor_of_wire_spec in E.
      destruct (IH wire) as [[Hg ->]|[Hg ->]]; [left|right]; split; try done.
      * destruct Hg as (i & a & b & Ha & Hb & Hd). by exists (S i), a, b.
      * intros (i & a & b & Ha & Hb & Hd). destruct i as [|i].
        -- simpl in Ha, Hb. congruence.
        -- apply Hg. by exists i, a, b.
    + left. split; [|done]. exists 0%nat, cursor, wire.
      repeat split; try done. rewrite <- is_neighbor_of_wire_spec. congruence.
Qed.

Lemma _check_continuous_spec ga gb ws first :
  head ws = Some first ->
  (gap ws /\ _check_continuous (mkNet ga gb ws) = Raise InteruptedNetError)
  \/ (~ gap ws /\ _check_continuous (mkNet ga gb ws) = Ok tt).
Proof.
  intros Hh. unfold _check_continuous. simpl.
  rewrite (getitem_head _ _ Hh). simpl.
  destruct ws as [|w ws]; [discriminate|]. injection Hh as ->.
  simpl. rewrite drop_0. apply _check_continuous_loop_spec.
Qed.

(** C5. Building a net from two gates and a non-empty list of waypoints
    raises [UnconnectedNetError] exactly when neither pairing of the two ends
    of the path with the two gates holds: the first waypoint on one gate and
    the last waypoint on the other. *)
Theorem Net_init_unconnected_iff ga gb ws first final :
  head ws = Some first -> last ws = Some final ->
  Net_init ga gb ws = Raise UnconnectedNetError
  <-> ~ (pairing first final ga gb \/ pairing first final gb ga).
Proof.
  intros Hh Hl. fold (anchored first final ga gb).
  destruct (_check_connected_spec ga gb ws first final Hh Hl) as [Hyes Hno].
  unfold Net_init. split.
  - intros Hraise Hanch. rewrite (Hyes Hanch) in Hraise. simpl in Hraise.
    destruct (_check_continuous_spec ga gb ws first Hh) as [[_ E]|[_ E]];
      rewrite E in Hraise; discriminate.
  - intros Hn. by rewrite (Hno Hn).
Qed.

Lemma Net_init_unconnected_iff_witness :
  Net_init (mkGate "1" 0 0) (mkGate "2" 0 2)
           [mkWire 1 0 0; mkWire 1 1 0; mkWire 1 2 0]
  = Raise UnconnectedNetError
  <-> ~ (pairing (mkWire 1 0 0) (mkWire 1 2 0) (mkGate "1" 0 0) (mkGate "2" 0 2)
         \/ pairing (mkWire 1 0 0) (mkWire 1 2 0) (mkGate "2" 0 2) (mkGate "1" 0 0)).
Proof.
  apply (Net_init_unconnected_iff (mkGate "1" 0 0) (mkGate "2" 0 2)
           [mkWire 1 0 0; mkWire 1 1 0; mkWire 1 2 0]
           (mkWire 1 0 0) (mkWire 1 2 0)); reflexivity.
Defined.

(** C6. For a net whose two ends are anchored to its gates, construction
    raises [InteruptedNetError] exactly when two consecutive waypoints are at
    a Manhattan distance other than 1, and it succeeds when every consecutive
    pair is at distance exactly 1. *)
Theorem Net_init_discontinuous_iff ga gb ws first final :
  head ws = Some first -> last ws = Some final ->
  pairing first final ga gb \/ pairing first final gb ga ->
  (Net_init ga gb ws = Raise InteruptedNetError
   <-> exists i a b, ws !! i = Some a /\ ws !! S i = Some b /\ manhattan a b <> 1)
  /\ ((forall i a b, ws !! i = Some a -> ws !! S i = Some b -> manhattan a b = 1)
      -> Net_init ga gb ws = Ok (mkNet ga gb ws)).
Proof.
  intros Hh Hl Hanch.
  destruct (_check_connected_spec ga gb ws first final Hh Hl) as [Hyes _].
  specialize (Hyes Hanch). unfold Net_init. rewrite Hyes. simpl.
  fold (gap ws).
  destruct (_check_continuous_spec ga gb ws first Hh) as [[Hg E]|[Hg E]];
    rewrite E; simpl.
  - split; [done|]. intros Hall. destruct Hg as (i & a & b & Ha & Hb & Hd).
    by specialize (Hall i a b Ha Hb).
  - split; [|done]. split; [discriminate | done].
Qed.

Lemma Net_init_discontinuous_iff_witness :
  (Net_init (mkGate "1" 0 0) (mkGate "2" 0 3)
            [mkWire 0 0 0; mkWire 0 1 0; mkWire 0 3 0]
   = Raise InteruptedNetError
   <-> exists i x y,
         [mkWire 0 0 0; mkWire 0 1 0; mkWire 0 3 0] !! i = Some x
         /\ [mkWire 0 0 0; mkWire 0 1 0; mkWire 0 3 0] !! S i = Some y
         /\ manhattan x y <> 1)
  /\ ((forall i x y,
         [mkWire 0 0 0; mkWire 0 1 0; mkWire 0 3 0] !! i = Some x ->
         [mkWire 0 0 0; mkWire 0 1 0; mkWire 0 3 0] !! S i = Some y ->
         manhattan x y = 1)
      -> Net_init (mkGate "1" 0 0) (mkGate "2" 0 3)
                  [mkWire 0 0 0; mkWire 0 1 0; mkWire 0 3 0]
         = Ok (mkNet (mkGate "1" 0 0) (mkGate "2" 0 3)
                     [mkWire 0 0 0; mkWire 0 1 0; mkWire 0 3 0])).
Proof.
  apply (Net_init_discontinuous_iff (mkGate "1" 0 0) (mkGate "2" 0 3)
           [mkWire 0 0 0; mkWire 0 1 0; mkWire 0 3 0]
           (mkWire 0 0 0) (mkWire 0 3 0)); [reflexivity | reflexivity |].
  left. unfold pairing, coincides. simpl. lia.
Defined.

End NetFacts.

(** ** The grid: subscripts, in-place updates and sums *)

Section GridFacts.
Import Chips.

Lemma locate_Ok {A} (l : list A) i p :
  locate l i = Ok p <-> py_index (length l) i = Some p.1 /\ l !! p.1 = Some p.2.
Proof.
  unfold locate. destruct p as [k a]. simpl.
  destruct (py_index _ i) as [k'|]; [|split; [discriminate | by intros [? _]]].
  destruct (l !! k') eqn:E.
  - split; [by intros [= <- <-] | intros [[= <-] ?]; congruence].
  - split; [discriminate | intros [[= <-] ?]; congruence].
Qed.

Lemma getitem_Ok {A} (l : list A) i a :
  getitem l i = Ok a <-> exists k, py_index (length l) i = Some k /\ l !! k = Some a.
Proof.
  unfold getitem. split.
  - intros H. apply bind_Ok_inv in H as ([k a'] & Hl & [= <-]).
    apply locate_Ok in Hl. eauto.
  - intros (k & Hk & Ha).
    assert (locate l i = Ok (k, a)) as -> by by apply locate_Ok. done.
Qed.

Lemma getitem_locate {A} (l : list A) i k a :
  locate l i = Ok (k, a) -> getitem l i = Ok a.
Proof. intros H. unfold getitem. by rewrite H. Qed.

(** What [with_cell] does when it returns. *)
Lemma with_cell_Ok grid z y x method grid' :
  with_cell grid z y x method = Ok grid' ->
  exists kz layer ky row kx c c',
    locate grid z = Ok (kz, layer) /\ locate layer y = Ok (ky, row)
    /\ locate row x = Ok (kx, c) /\ method c = Ok c'
    /\ grid' = <[kz := <[ky := <[kx := c']> row]> layer]> grid.
Proof.
  unfold with_cell. intros H.
  apply bind_Ok_inv in H as ([kz layer] & Hz & H).
  apply bind_Ok_inv in H as ([ky row] & Hy & H).
  apply bind_Ok_inv in H as ([kx c] & Hx & H).
  apply bind_Ok_inv in H as (c' & Hm & [= <-]).
  by exists kz, layer, ky, row, kx, c, c'.
Qed.

Lemma cell_at_Ok grid z y x c :
  cell_at grid z y x = Ok c <->
  exists kz layer ky row kx,
    locate grid z = Ok (kz, layer) /\ locate layer y = Ok (ky, row)
    /\ locate row x = Ok (kx, c).
Proof.
  unfold cell_at. split.
  - intros H. apply bind_Ok_inv in H as (layer & Hz & H).
    apply bind_Ok_inv in H as (row & Hy & Hx).
    apply getitem_Ok in Hz as (kz & ? & ?), Hy as (ky & ? & ?), Hx as (kx & ? & ?).
    exists kz, layer, ky, row, kx. by rewrite !locate_Ok.
  - intros (kz & layer & ky & row & kx & Hz & Hy & Hx).
    by rewrite (getitem_locate _ _ _ _ Hz); simpl;
      rewrite (getitem_locate _ _ _ _ Hy); simpl;
      rewrite (getitem_locate _ _ _ _ Hx).
Qed.

(** [with_cell] either fails on a subscript, or on the method, or returns. *)
Lemma with_cell_cases grid z y x method :
  (exists e, cell_at grid z y x = Raise e /\ with_cell grid z y x method = Raise e)
  \/ (exists c, cell_at grid z y x = Ok c /\
        bind (method c) (fun _ => Ok tt)
        = bind (with_cell grid z y x method) (fun _ => Ok tt)).
Proof.
  unfold with_cell, cell_at, getitem.
  destruct (locate grid z) as [[kz layer]|e]; simpl; [|left; eauto].
  destruct (locate layer y) as [[ky row]|e]; simpl; [|left; eauto].
  destruct (locate row x) as [[kx c]|e]; simpl; [|left; eauto].
  right. exists c. split; [done|]. by destruct (method c).
Qed.

(** Reading any cell after an update of one cell. *)
Lemma with_cell_read grid z0 y0 x0 method grid' z y x c :
  with_cell grid z0 y0 x0 method = Ok grid' ->
  cell_at grid z y x = Ok c ->
  exists c', cell_at grid' z y x = Ok c'
    /\ (c' = c \/ (cell_at grid z0 y0 x0 = Ok c /\ method c = Ok c')).
Proof.
  intros Hw Hc.
  apply with_cell_Ok in Hw
    as (kz0 & layer0 & ky0 & row0 & kx0 & c0 & c0' & Hz0 & Hy0 & Hx0 & Hm & ->).
  assert (cell_at grid z0 y0 x0 = Ok c0) as Hc0.
  { apply cell_at_Ok. by exists kz0, layer0, ky0, row0, kx0. }
  apply cell_at_Ok in Hc as (kz & layer & ky & row & kx & Hz & Hy & Hx).
  apply locate_Ok in Hz0 as [Hiz0 Hlz0], Hy0 as [Hiy0 Hly0], Hx0 as [Hix0 Hlx0].
  apply locate_Ok in Hz as [Hiz Hlz], Hy as [Hiy Hly], Hx as [Hix Hlx].
  simpl in *.
  destruct (decide (kz0 = kz)) as [->|Hnz].
  - assert (layer0 = layer) as -> by congruence.
    destruct (decide (ky0 = ky)) as [->|Hny].
    + assert (row0 = row) as -> by congruence.
      destruct (decide (kx0 = kx)) as [->|Hnx].
      * assert (c0 = c) as -> by congruence.
        exists c0'. split; [|by right].
        apply cell_at_Ok.
        exists kz, (<[ky := <[kx := c0']> row]> layer), ky, (<[kx := c0']> row), kx.
        rewrite !locate_Ok. simpl. rewrite !length_insert.
        repeat split; try done; apply list_lookup_insert_eq;
          eapply lookup_lt_Some; eauto.
      * exists c. split; [|by left].
        apply cell_at_Ok.
        exists kz, (<[ky := <[kx0 := c0']> row]> layer), ky, (<[kx0 := c0']> row), kx.
        rewrite !locate_Ok. simpl. rewrite !length_insert.
        repeat split; try done; try (apply list_lookup_insert_eq;
          eapply lookup_lt_Some; eauto).
        by rewrite list_lookup_insert_ne.
    + exists c. split; [|by left].
      apply cell_at_Ok.
      exists kz, (<[ky0 := <[kx0 := c0']> row0]> layer), ky, row, kx.
      rewrite !locate_Ok. simpl. rewrite !length_insert.
      repeat split; try done.
      * apply list_lookup_insert_eq. eapply lookup_lt_Some; eauto.
      * by rewrite list_lookup_insert_ne.
  - exists c. split; [|by left].
    apply cell_at_Ok. exists kz, layer, ky, row, kx.
    rewrite !locate_Ok. simpl. rewrite !length_insert.
    repeat split; try done. by rewrite list_lookup_insert_ne.
Qed.

Lemma with_cell_read_same grid z y x method grid' :
  with_cell grid z y x method = Ok grid' ->
  exists c c', cell_at grid z y x = Ok c /\ method c = Ok c'
               /\ cell_at grid' z y x = Ok c'.
Proof.
  intros Hw. pose proof Hw as Hw0.
  apply with_cell_Ok in Hw
    as (kz0 & layer0 & ky0 & row0 & kx0 & c0 & c0' & Hz0 & Hy0 & Hx0 & Hm & ->).
  exists c0, c0'. split_and!; [|done|].
  - apply cell_at_Ok. by exists kz0, layer0, ky0, row0, kx0.
  - apply locate_Ok in Hz0 as [Hiz0 Hlz0], Hy0 as [Hiy0 Hly0], Hx0 as [Hix0 Hlx0].
    simpl in *. apply cell_at_Ok.
    exists kz0, (<[ky0 := <[kx0 := c0']> row0]> layer0), ky0, (<[kx0 := c0']> row0), kx0.
    rewrite !locate_Ok. simpl. rewrite !length_insert.
    repeat split; try done; apply list_lookup_insert_eq;
      eapply lookup_lt_Some; eauto.
Qed.

(** Sums under an update. *)
Lemma sum_over_insert {A} (f : A -> Z) (l : list A) i a b :
  l !! i = Some a -> sum_over f (<[i := b]> l) = sum_over f l - f a + f b.
Proof.
  revert i. induction l as [|x l IH]; intros [|i]; simpl; try done.
  - intros [= ->]. lia.
  - intros H. rewrite (IH _ H). lia.
Qed.

Lemma with_cell_cost grid z y x method grid' :
  with_cell grid z y x method = Ok grid' ->
  exists c c', cell_at grid z y x = Ok c /\ method c = Ok c'
    /\ cells_cost grid' = cells_cost grid - cell_contribution c + cell_contribution c'.
Proof.
  intros Hw.
  apply with_cell_Ok in Hw
    as (kz0 & layer0 & ky0 & row0 & kx0 & c0 & c0' & Hz0 & Hy0 & Hx0 & Hm & ->).
  exists c0, c0'. split_and!; [|done|].
  - apply cell_at_Ok. by exists kz0, layer0, ky0, row0, kx0.
  - apply locate_Ok in Hz0 as [_ Hlz0], Hy0 as [_ Hly0], Hx0 as [_ Hlx0].
    simpl in *. unfold cells_cost.
    rewrite (sum_over_insert _ _ _ _ _ Hlz0), (sum_over_insert _ _ _ _ _ Hly0),
      (sum_over_insert _ _ _ _ _ Hlx0). lia.
Qed.

Lemma with_cell_wf w h grid z y x method grid' :
  (forall c c', wf_cell c -> method c = Ok c' -> wf_cell c') ->
  wf_cells w h grid ->
  with_cell grid z y x method = Ok grid' ->
  wf_cells w h grid'.
Proof.
  intros Hm [Hlen Hall] Hw.
  apply with_cell_Ok in Hw
    as (kz0 & layer0 & ky0 & row0 & kx0 & c0 & c0' & Hz0 & Hy0 & Hx0 & Hmc & ->).
  apply locate_Ok in Hz0 as [_ Hlz0], Hy0 as [_ Hly0], Hx0 as [_ Hlx0].
  simpl in *.
  pose proof (Forall_lookup_1 _ _ _ _ Hall Hlz0) as [Hl1 Hall1].
  pose proof (Forall_lookup_1 _ _ _ _ Hall1 Hly0) as [Hl2 Hall2].
  pose proof (Forall_lookup_1 _ _ _ _ Hall2 Hlx0) as Hwc.
  split; [by rewrite length_insert|].
  apply Forall_insert; [done|]. split; [by rewrite length_insert|].
  apply Forall_insert; [done|]. split; [by rewrite length_insert|].
  apply Forall_insert; [done|]. eauto.
Qed.

Lemma for_each_index {A St} (l : list A) (f : St -> A -> result St)
    (g : St -> Z -> result St) (k : nat) (s : St) :
  (forall s i a, l !! i = Some a -> g s (Z.of_nat (k + i)) = f s a) ->
  for_each g s (Z.of_nat <$> seq k (length l)) = for_each f s l.
Proof.
  revert k s. induction l as [|a l IH]; intros k s H; simpl; [done|].
  rewrite <- (H s 0%nat a eq_refl). replace (k + 0)%nat with k by lia.
  destruct (g s (Z.of_nat k)) as [s'|e]; simpl; [|done].
  apply IH. intros s0 i a0 Hi. rewrite <- (H s0 (S i) a0 Hi). f_equal. lia.
Qed.

Lemma for_each_range {A St} (l : list A) (f : St -> A -> result St)
    (g : St -> Z -> result St) (n : Z) (s : St) :
  length l = Z.to_nat n ->
  (forall s i a, l !! i = Some a -> g s (Z.of_nat i) = f s a) ->
  for_each g s (range n) = for_each f s l.
Proof.
  intros Hn H. unfold range. rewrite <- Hn. by apply for_each_index.
Qed.

Lemma for_each_sum {A} (f : A -> Z) (l : list A) (s : Z) :
  for_each (fun acc a => Ok (acc + f a)) s l = Ok (s + sum_over f l).
Proof.
  revert s. induction l as [|a l IH]; intros s; simpl.
  - f_equal. lia.
  - rewrite IH. f_equal. lia.
Qed.

(** One turn of the innermost loop of [get_cost] adds the contribution of
    the cell. *)
Lemma cost_of_cell (cost : Z) (cell : Cell) :
  (if is_gate cell then Ok cost
   else Ok (cost + len (occupants cell)
            + Z.max 0 (len (occupants cell) - 1) * 300))
  = Ok (cost + cell_contribution cell).
Proof.
  unfold cell_contribution, len. destruct (is_gate cell); [f_equal; lia|].
  destruct (occupants cell) as [|o os]; simpl length; f_equal; lia.
Qed.

Lemma get_cost_wf g :
  wf_grid g -> get_cost g = Ok (cells_cost (_grid g) + len (nets g)).
Proof.
  intros [Hlen Hall]. unfold get_cost, cells_cost.
  rewrite (for_each_range (_grid g)
             (fun acc layer =>
                Ok (acc + sum_over (sum_over cell_contribution) layer)));
    [by rewrite for_each_sum | done |].
  intros s kz layer Hz.
  pose proof (Forall_lookup_1 _ _ _ _ Hall Hz) as [Hl1 Hall1].
  rewrite (for_each_range layer
             (fun acc row => Ok (acc + sum_over cell_contribution row)));
    [by rewrite for_each_sum | done |].
  intros s1 ky row Hy.
  pose proof (Forall_lookup_1 _ _ _ _ Hall1 Hy) as [Hl2 _].
  rewrite (for_each_range row
             (fun acc cell => Ok (acc + cell_contribution cell)));
    [by rewrite for_each_sum | done |].
  intros s2 kx cell Hx.
  assert (cell_at (_grid g) (Z.of_nat kz) (Z.of_nat ky) (Z.of_nat kx) = Ok cell)
    as ->.
  { apply cell_at_Ok. exists kz, layer, ky, row, kx.
    split_and!; rewrite <- (Nat2Z.id kz) at 2 || rewrite <- (Nat2Z.id ky) at 2
                || rewrite <- (Nat2Z.id kx) at 2;
      apply locate_nonneg; try lia; by rewrite Nat2Z.id. }
  simpl. apply cost_of_cell.
Qed.

(** *** Building the grid *)

Lemma py_max_bound (l : list Z) m x : py_max l = Ok m -> x ∈ l -> x <= m.
Proof.
  destruct l as [|y l]; [discriminate|]. simpl. intros [= <-].
  assert (forall l a, a <= fold_left Z.max l a
                      /\ forall x, x ∈ l -> x <= fold_left Z.max l a) as H.
  { clear. induction l as [|b l IH]; intros a; simpl.
    - split; [lia|]. intros x Hx. by apply elem_of_nil in Hx.
    - destruct (IH (Z.max a b)) as [H1 H2]. split; [lia|].
      intros x [->|Hx]%elem_of_cons; [lia | auto]. }
  destruct (H l y) as [H1 H2].
  intros [->|Hx]%elem_of_cons; [lia | auto].
Qed.

Lemma wf_cells_fresh w h :
  wf_cells w h
    ((fun _ : Z => (fun _ : Z => (fun _ : Z => Cell_init) <$> range w) <$> range h)
       <$> range NUMBER_OF_LAYERS).
Proof.
  split; [by rewrite length_fmap, range_length|].
  apply Forall_fmap, Forall_forall. intros ? _. simpl.
  split; [by rewrite length_fmap, range_length|].
  apply Forall_fmap, Forall_forall. intros ? _. simpl.
  split; [by rewrite length_fmap, range_length|].
  apply Forall_fmap, Forall_forall. intros ? _. simpl. done.
Qed.

Lemma set_as_gate_wf gate c c' : set_as_gate gate c = Ok c' -> wf_cell c'.
Proof.
  unfold set_as_gate. destruct (is_gate c); [discriminate|].
  intros [= <-]. by intros _.
Qed.

Lemma add_net_wf net c c' : add_net net c = Ok c' -> wf_cell c'.
Proof.
  unfold add_net. destruct (is_gate c) eqn:E.
  - destruct (getitem _ _); discriminate.
  - intros [= <-]. unfold wf_cell. simpl. congruence.
Qed.

Lemma place_gate_Ok g gate g' :
  place_gate g gate = Ok g' ->
  exists cells, with_cell (_grid g) 0 (gate_y gate) (gate_x gate) (set_as_gate gate)
                = Ok cells
    /\ g' = mkGrid (gates g) (nets g) (width g) (height g) cells.
Proof.
  unfold place_gate. intros H. apply bind_Ok_inv in H as (cells & Hw & [= <-]).
  eauto.
Qed.

Lemma place_gate_wf g gate g' :
  wf_grid g -> place_gate g gate = Ok g' ->
  wf_grid g' /\ width g' = width g /\ height g' = height g
  /\ nets g' = nets g /\ gates g' = gates g.
Proof.
  intros Hwf (cells & Hw & ->)%place_gate_Ok. split; [|done].
  unfold wf_grid. simpl. eapply with_cell_wf; [|done|done].
  intros c c' _. apply set_as_gate_wf.
Qed.

Lemma place_gates_wf gs g g' :
  wf_grid g -> for_each place_gate g gs = Ok g' ->
  wf_grid g' /\ width g' = width g /\ height g' = height g
  /\ nets g' = nets g /\ gates g' = gates g.
Proof.
  revert g. induction gs as [|gate gs IH]; intros g Hwf; simpl.
  - by intros [= <-].
  - intros H. apply bind_Ok_inv in H as (g1 & H1 & H).
    destruct (place_gate_wf _ _ _ Hwf H1) as (Hwf1 & ? & ? & ? & ?).
    destruct (IH _ Hwf1 H) as (? & ? & ? & ? & ?).
    split_and!; congruence.
Qed.

Lemma Grid_init_wf gs g :
  Grid_init gs = Ok g -> wf_grid g /\ nets g = [].
Proof.
  unfold Grid_init. intros H.
  apply bind_Ok_inv in H as (mx & _ & H).
  apply bind_Ok_inv in H as (my & _ & H).
  apply place_gates_wf in H as (? & ? & ? & ? & ?); [done|].
  apply wf_cells_fresh.
Qed.

(** *** Placing nets *)

Lemma place_net_loop_wf net ws g g' r :
  wf_grid g -> place_net_loop g net ws = (g', r) ->
  wf_grid g' /\ nets g' = nets g.
Proof.
  revert g. induction ws as [|w ws IH]; intros g Hwf; simpl.
  - by intros [= <- _].
  - destruct (with_cell _ _ _ _ _) as [cells|e] eqn:E; [|by intros [= <- _]].
    intros H. apply IH in H as [? ?]; [done|].
    unfold wf_grid. simpl. eapply with_cell_wf; [|exact Hwf|exact E].
    intros c c' _. apply add_net_wf.
Qed.

Lemma place_net_wf g net g' r :
  wf_grid g -> place_net g net = (g', r) ->
  wf_grid g' /\ nets g' = nets g ++ [net].
Proof.
  intros Hwf H. unfold place_net in H.
  by apply place_net_loop_wf in H.
Qed.

Lemma place_nets_wf ns g g' :
  wf_grid g -> place_nets g ns = (g', Ok tt) ->
  wf_grid g' /\ nets g' = nets g ++ ns.
Proof.
  revert g. induction ns as [|net ns IH]; intros g Hwf; simpl.
  - intros [= <-]. by rewrite app_nil_r.
  - destruct (place_net g net) as [g1 [[]|e]] eqn:E; [|discriminate].
    apply place_net_wf in E as [Hwf1 Hn]; [|done].
    intros H. apply IH in H as [? ->]; [|done].
    by rewrite Hn, <- app_assoc.
Qed.

(** C1. On a grid built from a gate layout on which a sequence of nets was
    placed, [get_cost] returns the sum, over every cell of every layer, of
    the contribution of the cell (nothing for a gate cell or an empty cell,
    [k + 300 * (k - 1)] for a cell with [k >= 1] occupants), plus one for
    each net placed. *)
Theorem get_cost_after_place_nets (file_gates : list Gate) (ns : list Net)
    (g0 g : Grid) :
  Grid_init file_gates = Ok g0 ->
  place_nets g0 ns = (g, Ok tt) ->
  length (_grid g) = 8%nat
  /\ get_cost g = Ok (cells_cost (_grid g) + len ns).
Proof.
  intros Hinit Hplace.
  apply Grid_init_wf in Hinit as [Hwf0 Hn0].
  apply place_nets_wf in Hplace as [Hwf Hn]; [|done].
  split; [apply Hwf|].
  by rewrite (get_cost_wf _ Hwf), Hn, Hn0.
Qed.

Lemma get_cost_after_place_nets_witness :
  length (_grid example_grid) = 8%nat
  /\ get_cost example_grid = Ok (cells_cost (_grid example_grid) + len [example_net]).
Proof.
  apply (get_cost_after_place_nets example_gates [example_net]
           example_grid0 example_grid); reflexivity.
Defined.

(** *** Gates sharing a cell *)

Lemma cell_at_in_range w h grid z y x :
  wf_cells w h grid ->
  0 <= z < NUMBER_OF_LAYERS -> 0 <= y < h -> 0 <= x < w ->
  exists c, cell_at grid z y x = Ok c.
Proof.
  intros [Hlen Hall] Hz Hy Hx.
  destruct (lookup_lt_is_Some_2 grid (Z.to_nat z)) as [layer Hlz]; [lia|].
  pose proof (Forall_lookup_1 _ _ _ _ Hall Hlz) as [Hl1 Hall1].
  destruct (lookup_lt_is_Some_2 layer (Z.to_nat y)) as [row Hly]; [lia|].
  pose proof (Forall_lookup_1 _ _ _ _ Hall1 Hly) as [Hl2 _].
  destruct (lookup_lt_is_Some_2 row (Z.to_nat x)) as [c Hlx]; [lia|].
  exists c. apply cell_at_Ok.
  exists (Z.to_nat z), layer, (Z.to_nat y), row, (Z.to_nat x).
  split_and!; apply locate_nonneg; done || lia.
Qed.

Lemma place_gate_cases g gate c :
  cell_of_gate (_grid g) gate = Ok c ->
  (is_gate c = true -> place_gate g gate = Raise AssertionError)
  /\ (is_gate c = false ->
      exists cells,
        with_cell (_grid g) 0 (gate_y gate) (gate_x gate) (set_as_gate gate)
        = Ok cells
        /\ place_gate g gate
           = Ok (mkGrid (gates g) (nets g) (width g) (height g) cells)).
Proof.
  unfold cell_of_gate, place_gate. intros Hc.
  destruct (with_cell_cases (_grid g) 0 (gate_y gate) (gate_x gate)
              (set_as_gate gate)) as [(e & He & _)|(c0 & Hc0 & Hres)];
    [congruence|].
  assert (c0 = c) as -> by congruence.
  unfold set_as_gate in Hres at 1.
  split; intros Hg; rewrite Hg in Hres; simpl in Hres;
    destruct (with_cell _ _ _ _ _) as [cells|e]; try discriminate.
  - by injection Hres as ->.
  - by exists cells.
Qed.

Lemma place_gates_distinct gs g :
  wf_grid g ->
  (forall gate, gate ∈ gs ->
     0 <= gate_x gate < width g /\ 0 <= gate_y gate < height g) ->
  for_each place_gate g gs = Raise AssertionError
  \/ (exists g', for_each place_gate g gs = Ok g'
        /\ NoDup (gate_pos <$> gs)
        /\ forall gate, gate ∈ gs ->
             exists c, cell_of_gate (_grid g) gate = Ok c /\ is_gate c = false).
Proof.
  revert g. induction gs as [|gate gs IH]; intros g Hwf Hin; simpl.
  { right. exists g. split_and!; [done|constructor|]. intros ? []%elem_of_nil. }
  destruct (Hin gate) as [Hx Hy]; [by left|].
  destruct (cell_at_in_range _ _ _ 0 (gate_y gate) (gate_x gate) Hwf)
    as [c Hc]; [done..|].
  destruct (place_gate_cases g gate c Hc) as [Hyes Hno].
  destruct (is_gate c) eqn:Hgate.
  { left. by rewrite Hyes. }
  destruct Hno as (cells & Hw & ->); [done|].
  simpl. set (g1 := mkGrid _ _ _ _ cells).
  assert (wf_grid g1) as Hwf1.
  { unfold wf_grid. simpl. eapply with_cell_wf; [|exact Hwf|exact Hw].
    intros ? ? _. apply set_as_gate_wf. }
  destruct (IH g1 Hwf1) as [->|(g' & -> & Hnd & Hfree)]; [|by left|].
  { intros gate' Hg'. apply Hin. by right. }
  right. exists g'. split; [done|].
  destruct (with_cell_read_same _ _ _ _ _ _ Hw) as (c1 & c1' & Hc1 & Hset & Hc1').
  assert (is_gate c1' = true) as Hg1.
  { unfold set_as_gate in Hset. destruct (is_gate c1); [discriminate|].
    by injection Hset as <-. }
  split.
  - simpl. constructor; [|done].
    intros (gate' & Hpos & Hg')%list_elem_of_fmap.
    destruct (Hfree gate' Hg') as (c2 & Hc2 & Hfalse).
    unfold cell_of_gate in Hc2. simpl in Hc2.
    unfold gate_pos in Hpos. injection Hpos as Hpx Hpy.
    rewrite <- Hpx, <- Hpy in Hc2. congruence.
  - intros gate' [->|Hg']%elem_of_cons; [by exists c|].
    destruct (Hfree gate' Hg') as (c2 & Hc2 & Hfalse).
    destruct (Hin gate') as [Hx' Hy']; [by right|].
    destruct (cell_at_in_range _ _ _ 0 (gate_y gate') (gate_x gate') Hwf)
      as [c3 Hc3]; [done..|].
    exists c3. split; [done|].
    destruct (with_cell_read _ _ _ _ _ _ _ _ _ _ Hw Hc3)
      as (c4 & Hc4 & [->|[_ Hset4]]).
    + unfold cell_of_gate in Hc2. simpl in Hc2. congruence.
    + unfold cell_of_gate in Hc2. simpl in Hc2.
      assert (c4 = c2) as -> by congruence.
      unfold set_as_gate in Hset4. destruct (is_gate c3); [discriminate|].
      injection Hset4 as <-. discriminate.
Qed.

(** C9, as the code has it. When the gates of the layout file have
    coordinates that are not negative and two of them lie on the same cell
    [(x, y)], building the grid fails, and the failure is the
    [AssertionError] of [set_as_gate] (the only assertion of the package;
    the code has no failure kind of its own for this). *)
Theorem Grid_init_duplicate_gate (file_gates : list Gate) (i j : nat) (g1 g2 : Gate) :
  (forall gate, gate ∈ file_gates -> 0 <= gate_x gate /\ 0 <= gate_y gate) ->
  i <> j ->
  file_gates !! i = Some g1 -> file_gates !! j = Some g2 ->
  gate_x g1 = gate_x g2 -> gate_y g1 = gate_y g2 ->
  Grid_init file_gates = Raise AssertionError.
Proof.
  intros Hnonneg Hij Hi Hj Hx Hy. unfold Grid_init.
  destruct (py_max (gate_x <$> file_gates)) as [mx|e] eqn:Emx.
  2: { destruct file_gates; [by rewrite lookup_nil in Hi | discriminate]. }
  destruct (py_max (gate_y <$> file_gates)) as [my|e] eqn:Emy.
  2: { destruct file_gates; [by rewrite lookup_nil in Hi | discriminate]. }
  simpl.
  match goal with |- for_each place_gate ?g _ = _ => set (g0 := g) end.
  destruct (place_gates_distinct file_gates g0) as [->|(g' & _ & Hnd & _)];
    [apply wf_cells_fresh | | done |].
  - intros gate Hg. destruct (Hnonneg gate Hg) as [? ?]. simpl.
    pose proof (py_max_bound _ _ (gate_x gate) Emx).
    pose proof (py_max_bound _ _ (gate_y gate) Emy).
    rewrite !list_elem_of_fmap in *. split; split; try done.
    + assert (gate_x gate <= mx) by eauto. lia.
    + assert (gate_y gate <= my) by eauto. lia.
  - exfalso. apply Hij.
    eapply (NoDup_lookup _ i j (gate_pos g1) Hnd);
      rewrite list_lookup_fmap; [by rewrite Hi | rewrite Hj].
    simpl. unfold gate_pos. by rewrite Hx, Hy.
Qed.

Lemma Grid_init_duplicate_gate_witness :
  Grid_init [mkGate "1" 1 1; mkGate "2" 3 2; mkGate "3" 1 1]
  = Raise AssertionError.
Proof.
  apply (Grid_init_duplicate_gate
           [mkGate "1" 1 1; mkGate "2" 3 2; mkGate "3" 1 1]
           0 2 (mkGate "1" 1 1) (mkGate "3" 1 1)); try done.
  intros gate Hg. repeat (apply elem_of_cons in Hg as [->|Hg]); simpl; try lia.
  by apply elem_of_nil in Hg.
Defined.

(** C9, as stated, fails on a layout with a negative coordinate: two gates
    lie on the cell [(-5, 0)], and building the grid fails with the
    [IndexError] of the subscript in [place_gate], before any assertion is
    evaluated. *)
Lemma Grid_init_duplicate_gate_negative :
  [mkGate "1" (-5) 0; mkGate "2" (-5) 0; mkGate "3" 0 0] !! 0%nat
  = Some (mkGate "1" (-5) 0)
  /\ [mkGate "1" (-5) 0; mkGate "2" (-5) 0; mkGate "3" 0 0] !! 1%nat
     = Some (mkGate "2" (-5) 0)
  /\ gate_pos (mkGate "1" (-5) 0) = gate_pos (mkGate "2" (-5) 0)
  /\ Grid_init [mkGate "1" (-5) 0; mkGate "2" (-5) 0; mkGate "3" 0 0]
     = Raise IndexError
  /\ Grid_init [mkGate "1" (-5) 0; mkGate "2" (-5) 0; mkGate "3" 0 0]
     <> Raise AssertionError.
Proof. split_and!; try reflexivity. discriminate. Qed.

(** *** A net that runs into a gate *)

Lemma add_net_Ok net c c' :
  add_net net c = Ok c' <->
  is_gate c = false /\ c' = mkCell (occupants c ++ [OccNet net]) false.
Proof.
  unfold add_net. destruct (is_gate c).
  - destruct (getitem _ _); simpl; split; (discriminate || by intros [? _]).
  - split; [by intros [= <-] | by intros [_ ->]].
Qed.

Lemma add_net_gate net c :
  wf_cell c -> is_gate c = true -> add_net net c = Raise OccupiedByGateError.
Proof.
  intros Hwf Hg. unfold add_net. rewrite Hg.
  destruct (occupants c) as [|o os] eqn:E; [by destruct (Hwf Hg)|].
  by rewrite (getitem_head (o :: os) o).
Qed.

Lemma add_net_contribution net c c' :
  add_net net c = Ok c' -> cell_contribution c' >= cell_contribution c + 1.
Proof.
  intros [Hg ->]%add_net_Ok. unfold cell_contribution. rewrite Hg. simpl.
  unfold len. rewrite length_app. simpl.
  destruct (occupants c) as [|o os]; simpl; lia.
Qed.

Lemma cell_at_wf w h grid z y x c :
  wf_cells w h grid -> cell_at grid z y x = Ok c -> wf_cell c.
Proof.
  intros [_ Hall] (kz & layer & ky & row & kx & Hz & Hy & Hx)%cell_at_Ok.
  apply locate_Ok in Hz as [_ Hz], Hy as [_ Hy], Hx as [_ Hx]. simpl in *.
  pose proof (Forall_lookup_1 _ _ _ _ Hall Hz) as [_ Hall1].
  pose proof (Forall_lookup_1 _ _ _ _ Hall1 Hy) as [_ Hall2].
  exact (Forall_lookup_1 _ _ _ _ Hall2 Hx).
Qed.

(** Later waypoints only add occupants. *)
Lemma place_net_loop_grows net ws g g' r z y x c :
  place_net_loop g net ws = (g', r) ->
  cell_at (_grid g) z y x = Ok c ->
  exists c', cell_at (_grid g') z y x = Ok c'
    /\ is_gate c' = is_gate c
    /\ forall o, o ∈ occupants c -> o ∈ occupants c'.
Proof.
  revert g c. induction ws as [|w ws IH]; intros g c; simpl.
  - intros [= <- _] Hc. by exists c.
  - destruct (with_cell _ _ _ _ _) as [cells|e] eqn:E.
    2: { intros [= <- _] Hc. by exists c. }
    intros Hloop Hc.
    destruct (with_cell_read _ _ _ _ _ _ _ _ _ _ E Hc)
      as (c1 & Hc1 & [->|[_ Hadd]]).
    + by apply (IH _ _ Hloop).
    + destruct (IH _ _ Hloop Hc1) as (c' & Hc' & Hg' & Hocc).
      apply add_net_Ok in Hadd as [Hg ->]. simpl in *.
      exists c'. split_and!; [done|congruence|].
      intros o Ho. apply Hocc, elem_of_app. by left.
Qed.

Lemma place_net_loop_gate net pre w post g :
  wf_grid g ->
  (forall w', w' ∈ pre ->
     exists c, cell_of_wire (_grid g) w' = Ok c /\ is_gate c = false) ->
  (exists c, cell_of_wire (_grid g) w = Ok c /\ is_gate c = true) ->
  exists g',
    place_net_loop g net (pre ++ w :: post) = (g', Raise OccupiedByGateError)
    /\ (forall w', w' ∈ pre ->
          exists c', cell_of_wire (_grid g') w' = Ok c'
                     /\ OccNet net ∈ occupants c')
    /\ cells_cost (_grid g') >= cells_cost (_grid g) + len pre.
Proof.
  revert g. induction pre as [|w1 pre IH]; intros g Hwf Hpre (cw & Hcw & Hgw).
  - exists g. simpl. split_and!.
    + destruct (with_cell_cases (_grid g) (wire_z w) (wire_y w) (wire_x w)
                  (add_net net)) as [(e & He & _)|(c0 & Hc0 & Hres)];
        [unfold cell_of_wire in Hcw; congruence|].
      assert (c0 = cw) as -> by (unfold cell_of_wire in Hcw; congruence).
      rewrite (add_net_gate net cw) in Hres;
        [|by eapply cell_at_wf|done].
      destruct (with_cell _ _ _ _ _); [discriminate|].
      simpl in Hres. by injection Hres as <-.
    + intros ? []%elem_of_nil.
    + unfold len. simpl. lia.
  - destruct (Hpre w1) as (c1 & Hc1 & Hg1); [by left|].
    simpl.
    destruct (with_cell_cases (_grid g) (wire_z w1) (wire_y w1) (wire_x w1)
                (add_net net)) as [(e & He & _)|(c0 & Hc0 & Hres)];
      [unfold cell_of_wire in Hc1; congruence|].
    assert (c0 = c1) as -> by (unfold cell_of_wire in Hc1; congruence).
    destruct (add_net net c1) as [c1'|] eqn:Hadd;
      [|apply (f_equal (fun r => match r with Ok _ => true | _ => false end))
          in Hadd; by rewrite (proj2 (add_net_Ok net c1 _) (conj Hg1 eq_refl))
          in Hadd].
    destruct (with_cell _ _ _ _ _) as [cells|e] eqn:Hw; [|discriminate].
    set (g1 := mkGrid _ _ _ _ cells).
    assert (wf_grid g1) as Hwf1.
    { unfold wf_grid. simpl. eapply with_cell_wf; [|exact Hwf|exact Hw].
      intros ? ? _. apply add_net_wf. }
    assert (forall z y x c, cell_at (_grid g) z y x = Ok c ->
              exists c', cell_at cells z y x = Ok c' /\ is_gate c' = is_gate c)
      as Hkeep.
    { intros z y x c Hc.
      destruct (with_cell_read _ _ _ _ _ _ _ _ _ _ Hw Hc)
        as (c' & Hc' & [->|[_ Ha]]); [by exists c|].
      exists c'. split; [done|]. apply add_net_Ok in Ha as [-> ->]. done. }
    destruct (IH g1 Hwf1) as (g' & Hloop & Hocc & Hcost).
    { intros w' Hw'. destruct (Hpre w') as (c & Hc & Hg); [by right|].
      destruct (Hkeep _ _ _ _ Hc) as (c' & Hc' & Hg').
      exists c'. split; [done | congruence]. }
    { destruct (Hkeep _ _ _ _ Hcw) as (c' & Hc' & Hg').
      exists c'. split; [done | congruence]. }
    exists g'. split_and!; [done| |].
    + intros w' [->|Hw']%elem_of_cons; [|by apply Hocc].
      destruct (with_cell_read_same _ _ _ _ _ _ Hw) as (c2 & c2' & Hc2 & Ha2 & Hc2').
      destruct (place_net_loop_grows _ _ _ _ _ _ _ _ _ Hloop Hc2')
        as (c3 & Hc3 & _ & Hsub).
      exists c3. split; [done|]. apply Hsub.
      apply add_net_Ok in Ha2 as [_ ->]. simpl. apply elem_of_app. right.
      by apply list_elem_of_singleton.
    + destruct (with_cell_cost _ _ _ _ _ _ Hw) as (c2 & c2' & Hc2 & Ha2 & Hsum).
      apply add_net_contribution in Ha2. simpl in Hcost.
      unfold len in *. simpl length. lia.
Qed.

(** C10. When an interior waypoint of a net lies on a gate cell while the
    interior waypoints before it lie on wire cells, [place_net] raises
    [OccupiedByGateError] and leaves the grid changed: the net is in the net
    list, each earlier interior waypoint has the net among the occupants of
    its cell, and the cost of the grid has grown by at least one for the net
    and one for each of these waypoints. *)
Theorem place_net_gate_failure (file_gates : list Gate) (ns : list Net)
    (g0 g : Grid) (net : Net) (pre post : list Wire) (w : Wire) :
  Grid_init file_gates = Ok g0 ->
  place_nets g0 ns = (g, Ok tt) ->
  slice_1_m1 (wires net) = pre ++ w :: post ->
  (forall w', w' ∈ pre ->
     exists c, cell_of_wire (_grid g) w' = Ok c /\ is_gate c = false) ->
  (exists c, cell_of_wire (_grid g) w = Ok c /\ is_gate c = true) ->
  exists g' cost cost',
    place_net g net = (g', Raise OccupiedByGateError)
    /\ g' <> g
    /\ nets g' = nets g ++ [net]
    /\ (forall w', w' ∈ pre ->
          exists c', cell_of_wire (_grid g') w' = Ok c'
                     /\ OccNet net ∈ occupants c')
    /\ get_cost g = Ok cost
    /\ get_cost g' = Ok cost'
    /\ cost' >= cost + 1 + len pre.
Proof.
  intros Hinit Hplace Hslice Hpre Hw.
  apply Grid_init_wf in Hinit as [Hwf0 _].
  apply place_nets_wf in Hplace as [Hwf _]; [|done].
  unfold place_net. rewrite Hslice.
  set (g1 := mkGrid _ _ _ _ _).
  destruct (place_net_loop_gate net pre w post g1 Hwf Hpre Hw)
    as (g' & Hloop & Hocc & Hcost).
  destruct (place_net_loop_wf net _ g1 _ _ Hwf Hloop) as [Hwf' Hnets].
  simpl in Hnets, Hcost.
  exists g', (cells_cost (_grid g) + len (nets g)),
    (cells_cost (_grid g') + len (nets g')).
  split_and!; try done.
  - intros ->. apply (f_equal length) in Hnets.
    rewrite length_app in Hnets. simpl in Hnets. lia.
  - by apply get_cost_wf.
  - by apply get_cost_wf.
  - rewrite Hnets. unfold len in *. rewrite length_app. simpl. lia.
Qed.

Lemma place_net_gate_failure_witness :
  exists g' cost cost',
    place_net example_grid example_crossing_net = (g', Raise OccupiedByGateError)
    /\ g' <> example_grid
    /\ nets g' = nets example_grid ++ [example_crossing_net]
    /\ (forall w', w' ∈ [mkWire 0 1 0] ->
          exists c', cell_of_wire (_grid g') w' = Ok c'
                     /\ OccNet example_crossing_net ∈ occupants c')
    /\ get_cost example_grid = Ok cost
    /\ get_cost g' = Ok cost'
    /\ cost' >= cost + 1 + len [mkWire 0 1 0].
Proof.
  apply (place_net_gate_failure example_gates [example_net]
           example_grid0 example_grid example_crossing_net
           [mkWire 0 1 0] [mkWire 2 1 0] (mkWire 1 1 0)); try reflexivity.
  - intros w' ->%list_elem_of_singleton. by eexists.
  - by eexists.
Defined.

End GridFacts.

(** ** Regular expressions and strings *)

Section StringFacts.
Import Chips.

Lemma append_nil_l (t : string) : EmptyString +:+ t = t.
Proof. reflexivity. Qed.

Lemma append_cons c (s t : string) : String c s +:+ t = String c (s +:+ t).
Proof. reflexivity. Qed.

Lemma append_nil_r (s : string) : s +:+ EmptyString = s.
Proof. induction s as [|c s IH]; [done | by rewrite append_cons, IH]. Qed.

Lemma append_assoc (s t u : string) : (s +:+ t) +:+ u = s +:+ (t +:+ u).
Proof. induction s as [|c s IH]; [done | by rewrite !append_cons, IH]. Qed.

Lemma append_eq_nil (s t : string) :
  s +:+ t = EmptyString -> s = EmptyString /\ t = EmptyString.
Proof. destruct s; [done | discriminate]. Qed.

Lemma lang_nullable r s : lang r s -> s = EmptyString -> nullable r = true.
Proof.
  induction 1; intros Hs; simpl; try done.
  - apply append_eq_nil in Hs as [-> ->]. by rewrite IHlang1, IHlang2.
  - by rewrite IHlang.
  - rewrite IHlang; [|done]. by destruct (nullable r1).
Qed.

Lemma lang_deriv r s :
  lang r s -> forall c s', s = String c s' -> lang (deriv c r) s'.
Proof.
  induction 1; intros c0 s' Hs; simpl; try discriminate.
  - injection Hs as -> <-. rewrite H. constructor.
  - destruct s1 as [|c1 s1].
    + rewrite append_nil_l in Hs.
      rewrite (lang_nullable _ _ H eq_refl).
      apply lang_alt_r. by apply IHlang2.
    + rewrite append_cons in Hs. injection Hs as -> <-.
      assert (lang (Cat (deriv c0 r1) r2) (s1 +:+ s2)) as Hcat
        by (constructor; [by apply IHlang1 | done]).
      destruct (nullable r1); [by apply lang_alt_l | done].
  - apply lang_alt_l. by apply IHlang.
  - apply lang_alt_r. by apply IHlang.
  - destruct s1 as [|c1 s1].
    + rewrite append_nil_l in Hs. by apply IHlang2.
    + rewrite append_cons in Hs. injection Hs as -> <-.
      constructor; [by apply IHlang1 | done].
Qed.

Lemma fullmatch_complete r s : lang r s -> fullmatch r s = true.
Proof.
  revert r. induction s as [|c s IH]; intros r H; simpl.
  - by eapply lang_nullable.
  - apply IH. by eapply lang_deriv.
Qed.

Lemma lang_star_digits s : all_digits s = true -> lang (Star Digit) s.
Proof.
  induction s as [|c s IH]; simpl; [constructor|].
  intros [Hc Hs]%andb_true_iff.
  change (String c s) with (String c EmptyString +:+ s).
  constructor; [by constructor | auto].
Qed.

Lemma lang_numeral s : numeral s -> lang (Plus Digit) s.
Proof.
  intros [Hne Hd]. destruct s as [|c s]; [done|]. simpl in Hd.
  apply andb_true_iff in Hd as [Hc Hs].
  change (String c s) with (String c EmptyString +:+ s).
  constructor; [by constructor | by apply lang_star_digits].
Qed.

Lemma lang_lit c : lang (Lit c) (String c EmptyString).
Proof. constructor. by apply bool_decide_eq_true. Qed.

Lemma tuple_body_match b :
  tuple_body b -> anchored_match wire_pattern b = true.
Proof.
  intros Hb. unfold anchored_match. apply fullmatch_complete.
  rewrite <- (append_nil_r b). constructor; [|apply lang_alt_r; constructor].
  unfold wire_pattern.
  destruct Hb as [x y Hx Hy|x y z Hx Hy Hz].
  - constructor; [by apply lang_numeral|].
    change ("," +:+ y)%string with (String "," EmptyString +:+ y).
    constructor; [apply lang_lit|].
    rewrite <- (append_nil_r y).
    constructor; [by apply lang_numeral | apply lang_alt_r; constructor].
  - constructor; [by apply lang_numeral|].
    change ("," +:+ y +:+ "," +:+ z)%string
      with (String "," EmptyString +:+ (y +:+ ("," +:+ z))).
    constructor; [apply lang_lit|].
    constructor; [by apply lang_numeral|].
    apply lang_alt_l.
    change ("," +:+ z)%string with (String "," EmptyString +:+ z).
    constructor; [apply lang_lit | by apply lang_numeral].
Qed.

Lemma length_append (s t : string) :
  String.length (s +:+ t) = (String.length s + String.length t)%nat.
Proof. induction s as [|c s IH]; [done|]. rewrite append_cons. simpl. by rewrite IH. Qed.

Lemma substring_0_append (s t : string) :
  String.substring 0 (String.length s) (s +:+ t) = s.
Proof.
  induction s as [|c s IH]; [by destruct t|].
  rewrite append_cons. simpl. by rewrite IH.
Qed.

Lemma str_slice_2_m2_enclosed (a b c d : ascii) (s : string) :
  str_slice_2_m2 (String a (String b (s +:+ String c (String d EmptyString)))) = s.
Proof.
  unfold str_slice_2_m2. simpl String.length. rewrite length_append. simpl.
  replace (String.length s + 2 - 2)%nat with (String.length s) by lia.
  apply substring_0_append.
Qed.

Lemma free_of_append c (s t : string) :
  free_of c (s +:+ t) = free_of c s && free_of c t.
Proof.
  induction s as [|d s IH]; [done|]. rewrite append_cons. simpl.
  rewrite IH. by rewrite andb_assoc.
Qed.

Lemma numeral_free_of_paren s : all_digits s = true -> free_of ")" s = true.
Proof.
  induction s as [|d s IH]; [done|]. simpl.
  intros [Hd Hs]%andb_true_iff. rewrite (IH Hs), andb_true_r.
  case_bool_decide as E; [|done]. by rewrite E in Hd.
Qed.

Lemma tuple_body_free_of_paren b : tuple_body b -> free_of ")" b = true.
Proof.
  intros [x y [_ Hx] [_ Hy]|x y z [_ Hx] [_ Hy] [_ Hz]];
    rewrite !free_of_append;
    rewrite ?(numeral_free_of_paren x), ?(numeral_free_of_paren y),
      ?(numeral_free_of_paren z); done.
Qed.

Lemma split_go_free cur b rest :
  free_of ")" b = true ->
  split_go "),(" 0 cur (b +:+ rest) = split_go "),(" 0 (cur +:+ b) rest.
Proof.
  revert cur. induction b as [|d b IH]; intros cur Hb.
  - by rewrite append_nil_l, append_nil_r.
  - simpl in Hb. apply andb_true_iff in Hb as [Hd Hb].
    rewrite append_cons. cbn [split_go String.prefix].
    destruct (ascii_dec ")" d) as [<-|_]; [done|].
    rewrite (IH _ Hb), append_assoc. done.
Qed.

Lemma split_go_sep cur rest :
  split_go "),(" 0 cur ("),(" +:+ rest) = cur :: split_go "),(" 0 EmptyString rest.
Proof. vm_compute String.prefix. by destruct rest. Qed.

Lemma split_tuples_inner cur b bs :
  Forall (fun b => free_of ")" b = true) (b :: bs) ->
  split_go "),(" 0 cur (tuples_inner (b :: bs)) = (cur +:+ b) :: bs.
Proof.
  revert cur b. induction bs as [|b2 bs IH]; intros cur b Hall.
  - simpl. rewrite <- (append_nil_r b) at 1.
    rewrite split_go_free; [done | by inversion Hall].
  - change (tuples_inner (b :: b2 :: bs))
      with (b +:+ "),(" +:+ tuples_inner (b2 :: bs)).
    inversion Hall as [|? ? Hb Hrest]; subst.
    rewrite (split_go_free _ _ _ Hb), split_go_sep, (IH _ _ Hrest).
    done.
Qed.

Lemma tuples_text_inner b bs :
  tuples_text (b :: bs) = String "(" (tuples_inner (b :: bs) +:+ ")").
Proof.
  revert b. induction bs as [|b2 bs IH]; intros b; [done|].
  change (tuples_text (b :: b2 :: bs))
    with ("(" +:+ b +:+ ")," +:+ tuples_text (b2 :: bs)).
  change (tuples_inner (b :: b2 :: bs))
    with (b +:+ "),(" +:+ tuples_inner (b2 :: bs)).
  rewrite IH, ?append_assoc. by rewrite ?append_cons, ?append_nil_l.
Qed.

Lemma coords_enclosed (o c : ascii) bodies :
  bodies <> [] -> Forall tuple_body bodies ->
  split "),(" (str_slice_2_m2 (String o (tuples_text bodies +:+ String c EmptyString)))
  = bodies.
Proof.
  intros Hne Hall. destruct bodies as [|b bs]; [done|].
  rewrite tuples_text_inner, append_cons, append_assoc.
  change (String ")" EmptyString +:+ String c EmptyString)
    with (String ")" (String c EmptyString)).
  rewrite str_slice_2_m2_enclosed. unfold split.
  rewrite split_tuples_inner; [done|].
  eapply Forall_impl; [exact Hall|]. apply tuple_body_free_of_paren.
Qed.

Lemma bind_nil {A B} (f : A -> list B) (l : list A) :
  (forall a, a ∈ l -> f a = []) -> l ≫= f = [].
Proof.
  induction l as [|a l IH]; intros H; [done|].
  rewrite bind_cons, (H a), IH; [done| |by left].
  intros a' Ha'. apply H. by right.
Qed.

(** C3, as the code has it. When every wires field is the text of one or
    more coordinate tuples separated by commas and enclosed in one further
    character on each side, as in [[(0,0),(0,1)]], the check of the wires
    column raises no failure. *)
Theorem check_file_wires_enclosed (wires_column : list string) :
  (forall x, x ∈ wires_column ->
     exists (o c : ascii) (bodies : list string),
       bodies <> [] /\ Forall tuple_body bodies
       /\ x = String o (tuples_text bodies +:+ String c EmptyString)) ->
  check_file_wires wires_column = Ok tt.
Proof.
  intros H. unfold check_file_wires.
  assert (wire_bools wires_column = []) as ->; [|done].
  unfold wire_bools. apply bind_nil. intros [i cs] Hi.
  apply list_elem_of_lookup in Hi as [k Hk].
  rewrite list_lookup_imap in Hk. unfold coords in Hk.
  rewrite list_lookup_fmap in Hk.
  destruct (wires_column !! k) as [x|] eqn:Hx; [|discriminate].
  simpl in Hk. injection Hk as <- <-.
  destruct (H x) as (o & c & bodies & Hne & Hall & ->).
  { apply list_elem_of_lookup. eauto. }
  rewrite coords_enclosed by done.
  apply bind_nil. intros b Hb.
  rewrite tuple_body_match; [done|].
  by eapply Forall_forall in Hall.
Qed.

Lemma check_file_wires_enclosed_witness :
  check_file_wires ["[(0,0),(0,1)]"%string; "[(1,2,3)]"%string] = Ok tt.
Proof.
  apply (check_file_wires_enclosed ["[(0,0),(0,1)]"%string; "[(1,2,3)]"%string]).
  intros x Hx. exists "["%char, "]"%char.
  apply elem_of_cons in Hx as [->|Hx];
    [|apply list_elem_of_singleton in Hx as ->].
  - exists ["0,0"%string; "0,1"%string]. split_and!; [done| |done].
    repeat constructor;
      apply (body_xy "0" "0") || apply (body_xy "0" "1"); by split.
  - exists ["1,2,3"%string]. split_and!; [done| |done].
    repeat constructor. apply (body_xyz "1" "2" "3"); by split.
Defined.

(** C3, as stated, fails: the wires field [(0,0),(0,1)] is in the stated
    format, and the check of the wires column raises its failure on it. *)
Lemma check_file_wires_bare_tuples_rejected :
  (exists bodies, bodies <> [] /\ Forall tuple_body bodies
                  /\ "(0,0),(0,1)"%string = tuples_text bodies)
  /\ check_file_wires ["(0,0),(0,1)"%string] = Raise Failure.
Proof.
  split; [|reflexivity].
  exists ["0,0"%string; "0,1"%string]. split_and!; [done| |done].
  repeat constructor;
    apply (body_xy "0" "0") || apply (body_xy "0" "1"); by split.
Qed.

End StringFacts.

(** ** The schedule checks *)

Section LectureFacts.
Import Lectures.

(** The completeness check asks for the lecture and tutorial codes only. *)
Lemma necessary_of_row_spec row pair :
  pair ∈ necessary_of_row row <->
  exists j, pair.1 = Vak row
    /\ ((0 <= j < Hoorcolleges row /\ pair.2 = "h" +:+ str (j + 1))
        \/ (0 <= j < Werkcolleges row /\ pair.2 = "w" +:+ str (j + 1))).
Proof.
  unfold necessary_of_row. rewrite !elem_of_app, !list_elem_of_fmap.
  destruct pair as [v a]. simpl. split.
  - intros [(j & [= -> ->] & Hj)|[(j & [= -> ->] & Hj)|(j & [= -> ->] & Hj)]];
      apply elem_of_range in Hj; exists j; auto.
  - intros (j & -> & [[Hj ->]|[Hj ->]]); apply elem_of_range in Hj; eauto.
Qed.

Lemma are_all_courses_scheduled_spec schedule courses :
  are_all_courses_scheduled schedule courses = Ok tt
  <-> necessary courses ⊆ scheduled schedule.
Proof.
  unfold are_all_courses_scheduled.
  case_bool_decide; simpl; split; done.
Qed.

(** C2 at the failing input: a course that declares one lecture, one
    tutorial and one practical, and a schedule with the lecture and the
    tutorial only. The practical [("A", "p1")] is required and not scheduled,
    and the check passes. *)
Theorem are_all_courses_scheduled_misses_practica :
  (("A"%string, "p1"%string) ∈ required [mkCourseRow "A" 1 1 1])
  /\ (("A"%string, "p1"%string)
        ∉ scheduled [mkRow "s1" "A" "h1" "ma" 9 "C0.110";
                     mkRow "s1" "A" "w1" "di" 11 "C0.110"])
  /\ are_all_courses_scheduled
       [mkRow "s1" "A" "h1" "ma" 9 "C0.110";
        mkRow "s1" "A" "w1" "di" 11 "C0.110"]
       [mkCourseRow "A" 1 1 1] = Ok tt.
Proof.
  split_and!.
  - apply (bool_decide_unpack _). by vm_compute.
  - apply (bool_decide_unpack _). by vm_compute.
  - by vm_compute.
Qed.

(** The evening check looks at the room of the first evening record. *)
Lemma only_biggest_in_evening_first schedule r rest :
  filter (fun r => time r = 17) schedule = r :: rest ->
  Forall (fun r => room r <> EmptyString) (r :: rest) ->
  only_biggest_in_evening schedule = Ok tt <-> room r = "C0.110"%string.
Proof.
  intros Hf Hall. unfold only_biggest_in_evening.
  assert (17 ∈ time <$> schedule) as Hin.
  { assert (r ∈ filter (fun r => time r = 17) schedule) as Hr
      by (rewrite Hf; by left).
    apply list_elem_of_filter in Hr as [Ht Hr].
    apply list_elem_of_fmap. eauto. }
  rewrite (bool_decide_eq_true_2 _ Hin), Hf.
  assert (forallb truthy (room <$> r :: rest) = true) as ->.
  { apply forallb_forall. intros x Hx. apply list_elem_of_In in Hx.
    apply list_elem_of_fmap in Hx as (r' & -> & Hr').
    unfold truthy. apply negb_true_iff, bool_decide_eq_false.
    by eapply Forall_forall in Hall. }
  simpl. case_bool_decide; simpl; split; done.
Qed.

(** C4 at the failing input: two records in the evening slot, the first in
    the largest room, the second in another room; the check passes. *)
Theorem only_biggest_in_evening_misses_later_rooms :
  (exists r, r ∈ [mkRow "s1" "A" "h1" "ma" 17 "C0.110";
                  mkRow "s2" "B" "h1" "ma" 17 "A1.04"]
             /\ time r = 17 /\ room r <> "C0.110"%string)
  /\ only_biggest_in_evening
       [mkRow "s1" "A" "h1" "ma" 17 "C0.110";
        mkRow "s2" "B" "h1" "ma" 17 "A1.04"] = Ok tt.
Proof.
  split; [|by vm_compute].
  exists (mkRow "s2" "B" "h1" "ma" 17 "A1.04"). split_and!; [|done|done].
  right. by left.
Qed.

End LectureFacts.

(** ** The board: placing a vehicle *)

Section PlaceFacts.
Import RushHour.

Lemma for_each_app {A St} (f : St -> A -> result St) (s : St) (l1 l2 : list A) :
  for_each f s (l1 ++ l2) = (do s' <- for_each f s l1; for_each f s' l2).
Proof.
  revert s. induction l1 as [|a l1 IH]; intros s; simpl; [done|].
  destruct (f s a); simpl; [apply IH | done].
Qed.

Lemma first_failing {A} (P : A -> Prop) `{!forall a, Decision (P a)} (l : list A) :
  Forall P l
  \/ exists pre a post, l = pre ++ a :: post /\ Forall P pre /\ ~ P a.
Proof.
  induction l as [|a l IH]; [by left|].
  destruct (decide (P a)) as [Ha|Ha].
  - destruct IH as [IH|(pre & x & post & -> & Hpre & Hx)].
    + left. by constructor.
    + right. exists (a :: pre), x, post. split_and!; [done| |done].
      by constructor.
  - right. exists [], a, l. split_and!; [done|constructor|done].
Qed.

Lemma in_range_spec i n : in_range i n = true <-> 0 <= i < n.
Proof. unfold in_range. rewrite andb_true_iff, Z.leb_le, Z.ltb_lt. done. Qed.

Lemma in_bounds_check sz loc :
  negb (in_range loc.1 sz) || negb (in_range loc.2 sz) = false
  <-> in_bounds sz loc.
Proof.
  unfold in_bounds. rewrite <- !in_range_spec.
  destruct (in_range loc.1 sz), (in_range loc.2 sz); simpl; intuition congruence.
Qed.

Lemma wf_tiles_read sz bd loc :
  wf_tiles sz bd -> in_bounds sz loc ->
  exists column t,
    bd !! Z.to_nat loc.1 = Some column
    /\ List.length column = Z.to_nat sz
    /\ column !! Z.to_nat loc.2 = Some t
    /\ read bd loc = Some t.
Proof.
  intros [Hlen Hall] [Hc Hr].
  destruct (lookup_lt_is_Some_2 bd (Z.to_nat loc.1)) as [column Hcol]; [lia|].
  pose proof (Forall_lookup_1 _ _ _ _ Hall Hcol) as Hl. simpl in Hl.
  destruct (lookup_lt_is_Some_2 column (Z.to_nat loc.2)) as [t Ht]; [lia|].
  exists column, t. unfold read. rewrite Hcol. simpl. by rewrite Ht.
Qed.

Lemma place_tile_out sz v bd loc :
  ~ in_bounds sz loc -> place_tile sz v bd loc = Raise WallHit.
Proof.
  intros Hout. unfold place_tile. destruct loc as [col row].
  destruct (negb (in_range col sz) || negb (in_range row sz)) eqn:E; [done|].
  by apply (in_bounds_check sz (col, row)) in E.
Qed.

Lemma place_tile_occupied sz v bd loc u :
  wf_tiles sz bd -> in_bounds sz loc -> read bd loc = Some (Some u) ->
  place_tile sz v bd loc = Raise Collision.
Proof.
  intros Hwf Hin Hread.
  destruct (wf_tiles_read _ _ _ Hwf Hin) as (column & t & Hcol & _ & Ht & Hr).
  assert (t = Some u) as -> by congruence.
  unfold place_tile. destruct loc as [col row].
  pose proof (proj2 (in_bounds_check sz (col, row)) Hin) as Echeck.
  simpl in Echeck. rewrite Echeck.
  destruct Hin as [Hc Hrow]. simpl in *.
  rewrite (getitem_nonneg bd col column) by (done || lia). simpl.
  by rewrite (getitem_nonneg column row (Some u)) by (done || lia).
Qed.

Lemma place_tile_empty sz v bd loc :
  wf_tiles sz bd -> in_bounds sz loc -> read bd loc = Some None ->
  exists bd',
    place_tile sz v bd loc = Ok bd'
    /\ wf_tiles sz bd'
    /\ read bd' loc = Some (Some v)
    /\ forall loc', in_bounds sz loc' -> loc' <> loc -> read bd' loc' = read bd loc'.
Proof.
  intros Hwf Hin Hread.
  destruct (wf_tiles_read _ _ _ Hwf Hin) as (column & t & Hcol & Hlen & Ht & Hr).
  assert (t = None) as -> by congruence.
  unfold place_tile. destruct loc as [col row].
  pose proof (proj2 (in_bounds_check sz (col, row)) Hin) as Echeck.
  simpl in Echeck. rewrite Echeck.
  destruct Hin as [Hc Hrow]. simpl in *.
  rewrite (getitem_nonneg bd col column) by (done || lia). simpl.
  rewrite (getitem_nonneg column row None) by (done || lia). simpl.
  unfold set_tile.
  rewrite (locate_nonneg bd col column) by (done || lia). simpl.
  rewrite (locate_nonneg column row None) by (done || lia). simpl.
  eexists. split; [done|]. destruct Hwf as [Hl Hall]. split_and!.
  - split; [by rewrite length_insert|].
    apply Forall_insert; [done|]. by rewrite length_insert.
  - unfold read. simpl. rewrite list_lookup_insert_eq by lia. simpl.
    apply list_lookup_insert_eq. lia.
  - intros [col' row'] [Hc' Hr'] Hne. unfold read. simpl in *.
    destruct (decide (Z.to_nat col = Z.to_nat col')) as [Ecol|Ecol].
    + rewrite <- Ecol, list_lookup_insert_eq, Hcol by lia. simpl.
      apply list_lookup_insert_ne. intros Erow. apply Hne. f_equal; lia.
    + by rewrite list_lookup_insert_ne.
Qed.

Lemma place_cells_ok sz v locs bd :
  wf_tiles sz bd -> NoDup locs ->
  (forall loc, loc ∈ locs -> in_bounds sz loc /\ read bd loc = Some None) ->
  exists bd',
    for_each (place_tile sz v) bd locs = Ok bd'
    /\ wf_tiles sz bd'
    /\ forall loc, in_bounds sz loc ->
         read bd' loc = if decide (loc ∈ locs) then Some (Some v) else read bd loc.
Proof.
  revert bd. induction locs as [|loc locs IH]; intros bd Hwf Hnd Hall.
  { exists bd. split_and!; [done..|]. intros loc _.
    destruct (decide _) as [[]%elem_of_nil|]; done. }
  apply NoDup_cons in Hnd as [Hnew Hnd].
  destruct (Hall loc) as [Hin Hempty]; [by left|].
  destruct (place_tile_empty sz v bd loc Hwf Hin Hempty)
    as (bd1 & Hstep & Hwf1 & Hsame & Hother).
  destruct (IH bd1 Hwf1 Hnd) as (bd' & Hloop & Hwf' & Hread).
  { intros loc' Hloc'. destruct (Hall loc') as [Hin' Hempty']; [by right|].
    split; [done|]. rewrite Hother; [done..|]. by intros ->. }
  exists bd'. simpl. rewrite Hstep. simpl. split_and!; [done..|].
  intros loc' Hin'. rewrite (Hread loc' Hin').
  destruct (decide (loc' ∈ locs)) as [Hl|Hl].
  - rewrite decide_True; [done | by right].
  - destruct (decide (loc' = loc)) as [->|Hne].
    + rewrite decide_True; [done | by left].
    + rewrite decide_False; [by apply Hother|].
      by intros [->|?]%elem_of_cons.
Qed.

Lemma place_cells_fail sz v pre loc post bd :
  wf_tiles sz bd -> NoDup (pre ++ [loc]) ->
  (forall l, l ∈ pre -> in_bounds sz l /\ read bd l = Some None) ->
  (~ in_bounds sz loc ->
   for_each (place_tile sz v) bd (pre ++ loc :: post) = Raise WallHit)
  /\ (in_bounds sz loc -> read bd loc <> Some None ->
      for_each (place_tile sz v) bd (pre ++ loc :: post) = Raise Collision).
Proof.
  intros Hwf Hnd Hpre.
  apply NoDup_app in Hnd as (Hndpre & Hdisj & _).
  destruct (place_cells_ok sz v pre bd Hwf Hndpre Hpre)
    as (bd1 & Hloop & Hwf1 & Hread).
  rewrite for_each_app, Hloop. simpl. split.
  - intros Hout. by rewrite place_tile_out.
  - intros Hin Hocc.
    destruct (wf_tiles_read _ _ _ Hwf Hin) as (_ & t & _ & _ & _ & Hr).
    destruct t as [u|]; [|done].
    rewrite (place_tile_occupied sz v bd1 loc u); [done..|].
    rewrite (Hread loc Hin), decide_False; [done|].
    intros Hmem. apply (Hdisj loc Hmem). by left.
Qed.

Lemma NoDup_range n : NoDup (range n).
Proof.
  unfold range. apply NoDup_fmap; [apply _ | apply NoDup_seq].
Qed.

Lemma NoDup_locations v col row : NoDup (locations v col row).
Proof.
  unfold locations. case_bool_decide.
  - apply NoDup_fmap_2; [|apply NoDup_range]. intros i j [= ?]. lia.
  - apply NoDup_fmap_2; [|apply NoDup_range]. intros i j [= ?]. lia.
Qed.

Lemma place_Ok_inv self v col row b' :
  place self v col row = Ok b' ->
  exists bd',
    for_each (place_tile (size self) v) (_board self) (locations v col row) = Ok bd'
    /\ b' = mkBoard (size self) (vehicles self ++ [v]) bd'.
Proof.
  unfold place. intros H. apply bind_Ok_inv in H as (bd' & Hl & [= <-]). eauto.
Qed.

(** What [place] does on a square board, cell by cell from the anchor:
    the first cell that is out of bounds or taken decides the failure. *)
Lemma place_cases self v col row :
  wf_board self ->
  (Forall (fun loc => in_bounds (size self) loc /\ empty_at self loc)
          (footprint v col row)
   /\ exists bd',
        place self v col row = Ok (mkBoard (size self) (vehicles self ++ [v]) bd')
        /\ wf_tiles (size self) bd'
        /\ forall loc, in_bounds (size self) loc ->
             read bd' loc = if decide (loc ∈ footprint v col row)
                            then Some (Some v) else read (_board self) loc)
  \/ (exists pre loc post,
        footprint v col row = pre ++ loc :: post
        /\ Forall (fun loc => in_bounds (size self) loc /\ empty_at self loc) pre
        /\ ((~ in_bounds (size self) loc /\ place self v col row = Raise WallHit)
            \/ (in_bounds (size self) loc /\ occupied_at self loc
                /\ place self v col row = Raise Collision))).
Proof.
  intros Hwf. unfold footprint, place.
  pose proof (NoDup_locations v col row) as Hnd.
  destruct (first_failing
              (fun loc => in_bounds (size self) loc /\ empty_at self loc)
              (locations v col row))
    as [Hall|(pre & loc & post & Heq & Hpre & Hbad)].
  - left. split; [done|].
    destruct (place_cells_ok (size self) v _ _ Hwf Hnd) as (bd' & -> & ? & ?).
    { intros loc Hloc. by eapply Forall_forall in Hall. }
    by exists bd'.
  - right. exists pre, loc, post. split_and!; [done..|].
    rewrite Heq in Hnd |- *.
    assert (NoDup (pre ++ [loc])) as Hnd'.
    { rewrite (assoc_L (++) pre [loc] post : pre ++ loc :: post = _) in Hnd.
      by apply NoDup_app in Hnd as [? _]. }
    destruct (place_cells_fail (size self) v pre loc post (_board self) Hwf Hnd')
      as [Hwall Hcoll].
    { intros l Hl. by eapply Forall_forall in Hpre. }
    destruct (decide (in_bounds (size self) loc)) as [Hin|Hout].
    + right. split; [done|].
      assert (read (_board self) loc <> Some None) as Hne
        by (intros ?; by apply Hbad).
      rewrite (Hcoll Hin Hne). split; [|done].
      destruct (wf_tiles_read _ _ _ Hwf Hin) as (_ & t & _ & _ & _ & Hr).
      destruct t as [u|]; [by exists u | done].
    + left. split; [done|]. by rewrite (Hwall Hout).
Qed.

(** C8, as the code has it. On a square board, [place] succeeds exactly when
    every cell of the footprint is within the board and empty; it raises
    [Collision] when the whole footprint is within the board and one of its
    cells is taken; it raises [WallHit] when a cell of the footprint is out of
    bounds and the cells before it, from the anchor on, are within the board
    and empty. *)
Theorem place_outcome (self : Board) (v : Vehicle) (col row : Z) :
  wf_board self ->
  ((exists b', place self v col row = Ok b')
   <-> forall loc, loc ∈ footprint v col row ->
         in_bounds (size self) loc /\ empty_at self loc)
  /\ ((forall loc, loc ∈ footprint v col row -> in_bounds (size self) loc) ->
      (exists loc, loc ∈ footprint v col row /\ occupied_at self loc) ->
      place self v col row = Raise Collision)
  /\ (forall pre loc post,
        footprint v col row = pre ++ loc :: post ->
        (forall l, l ∈ pre -> in_bounds (size self) l /\ empty_at self l) ->
        ~ in_bounds (size self) loc ->
        place self v col row = Raise WallHit).
Proof.
  intros Hwf. split_and!.
  - destruct (place_cases self v col row Hwf)
      as [[Hall (bd' & -> & _)]
         |(pre & loc & post & Heq & Hpre & [[Hout ->]|(Hin & [u Hu] & ->)])].
    + split; [|by eauto]. intros _ loc Hloc. by eapply Forall_forall in Hall.
    + split; [by intros [? ?]|]. intros Hall. destruct Hout.
      apply Hall. rewrite Heq, elem_of_app. right. by left.
    + split; [by intros [? ?]|]. intros Hall.
      destruct (Hall loc) as [_ Hempty];
        [rewrite Heq, elem_of_app; right; by left|].
      unfold empty_at in Hempty. congruence.
  - intros Hallin (loc & Hloc & [u Hu]).
    destruct (place_cases self v col row Hwf)
      as [[Hall _]
         |(pre & loc' & post & Heq & Hpre & [[Hout _]|(_ & _ & ->)])];
      [|exfalso|done].
    + eapply Forall_forall in Hall as [_ Hempty]; [|exact Hloc].
      unfold empty_at in Hempty. congruence.
    + apply Hout, Hallin. rewrite Heq, elem_of_app. right. by left.
  - intros pre loc post Heq Hpre Hout. unfold place.
    pose proof (NoDup_locations v col row) as Hnd.
    unfold footprint in Heq. rewrite Heq in Hnd |- *.
    assert (NoDup (pre ++ [loc])) as Hnd'.
    { rewrite (assoc_L (++) pre [loc] post : pre ++ loc :: post = _) in Hnd.
      by apply NoDup_app in Hnd as [? _]. }
    destruct (place_cells_fail (size self) v pre loc post (_board self) Hwf Hnd')
      as [Hwall _]; [done|].
    by rewrite (Hwall Hout).
Qed.

Lemma place_outcome_witness :
  ((exists b', place example_board (mkVehicle "C" "V" 2) 5 4 = Ok b')
   <-> forall loc, loc ∈ footprint (mkVehicle "C" "V" 2) 5 4 ->
         in_bounds (size example_board) loc /\ empty_at example_board loc)
  /\ ((forall loc, loc ∈ footprint (mkVehicle "C" "V" 2) 5 4 ->
         in_bounds (size example_board) loc) ->
      (exists loc, loc ∈ footprint (mkVehicle "C" "V" 2) 5 4
                   /\ occupied_at example_board loc) ->
      place example_board (mkVehicle "C" "V" 2) 5 4 = Raise Collision)
  /\ (forall pre loc post,
        footprint (mkVehicle "C" "V" 2) 5 4 = pre ++ loc :: post ->
        (forall l, l ∈ pre ->
           in_bounds (size example_board) l /\ empty_at example_board l) ->
        ~ in_bounds (size example_board) loc ->
        place example_board (mkVehicle "C" "V" 2) 5 4 = Raise WallHit).
Proof.
  apply (place_outcome example_board (mkVehicle "C" "V" 2) 5 4).
  split; [reflexivity | repeat constructor].
Defined.

(** C8, as stated, fails: a vehicle of length 4 anchored at column 4 of the
    first row has its cell [(6, 0)] outside the board of size 6, and [place]
    raises [Collision] on its first cell, which another vehicle holds. *)
Lemma place_collision_before_wall :
  (6, 0) ∈ footprint (mkVehicle "C" "H" 4) 3 0
  /\ ~ in_bounds (size example_board) (6, 0)
  /\ place example_board (mkVehicle "C" "H" 4) 3 0 = Raise Collision
  /\ place example_board (mkVehicle "C" "H" 4) 3 0 <> Raise WallHit.
Proof.
  split_and!.
  - apply (bool_decide_unpack _). by vm_compute.
  - unfold in_bounds. simpl. lia.
  - by vm_compute.
  - by vm_compute.
Qed.

End PlaceFacts.

(** ** The board: layouts and moves *)

Section MoveFacts.
Import RushHour.

Lemma read_Board_init sz loc :
  in_bounds sz loc -> read (_board (Board_init sz)) loc = Some None.
Proof.
  intros [Hc Hr]. unfold read, Board_init, range. simpl.
  rewrite list_lookup_fmap, list_lookup_fmap, lookup_seq_lt by lia. simpl.
  apply lookup_replicate_2. lia.
Qed.

Lemma wf_tiles_Board_init sz : wf_tiles sz (_board (Board_init sz)).
Proof.
  unfold Board_init. simpl. split; [by rewrite length_fmap, range_length|].
  apply Forall_fmap, Forall_forall. intros ? _. simpl. apply length_replicate.
Qed.

Lemma represents_Board_init sz : represents sz [] (Board_init sz).
Proof.
  split_and!; [done|apply wf_tiles_Board_init|done| |].
  - intros p loc []%elem_of_nil.
  - intros loc v Hin. rewrite read_Board_init by done. split; [done|].
    intros (p & Hp & _). by apply elem_of_nil in Hp.
Qed.

Lemma place_represents sz layout self v col row b' :
  represents sz layout self ->
  place self v col row = Ok b' ->
  represents sz (layout ++ [(v, (col, row))]) b'.
Proof.
  intros (Hsz & Hwf & Hveh & Hcov & Hread) Hplace. subst sz.
  destruct (place_cases self v col row Hwf)
    as [[Hall (bd' & Hok & Hwf' & Hread')]
       |(pre & loc & post & _ & _ & [[_ Hr]|(_ & _ & Hr)])];
    [|congruence..].
  rewrite Hok in Hplace. injection Hplace as <-.
  split_and!; simpl; [done|done|by rewrite fmap_app, Hveh| |].
  - intros p loc [Hp|Hp]%elem_of_app Hc; [eauto|].
    apply list_elem_of_singleton in Hp as ->.
    by eapply Forall_forall in Hall as [? _].
  - intros loc u Hin. rewrite (Hread' loc Hin).
    destruct (decide (loc ∈ footprint v col row)) as [Hfp|Hfp].
    + split.
      * intros [= <-]. exists (v, (col, row)). split_and!; [|done..].
        apply elem_of_app. right. by left.
      * intros (p & [Hp|Hp]%elem_of_app & <- & Hc);
          [|by apply list_elem_of_singleton in Hp as ->].
        exfalso. eapply Forall_forall in Hall as [_ Hempty]; [|exact Hfp].
        assert (read (_board self) loc = Some (Some p.1)) as Hocc
          by (apply Hread; eauto).
        unfold empty_at in Hempty. congruence.
    + rewrite (Hread loc u Hin). split.
      * intros (p & Hp & Hu & Hc). exists p. split_and!; [|done..].
        apply elem_of_app. by left.
      * intros (p & [Hp|Hp]%elem_of_app & Hu & Hc); [by exists p|].
        by apply list_elem_of_singleton in Hp as ->.
Qed.

Lemma place_each_represents sz layout0 layout self b' :
  represents sz layout0 self ->
  for_each (fun board (p : Placement) => place board p.1 p.2.1 p.2.2) self layout
  = Ok b' ->
  represents sz (layout0 ++ layout) b'.
Proof.
  revert layout0 self. induction layout as [|[v [col row]] layout IH];
    intros layout0 self Hrep; simpl.
  - intros [= <-]. by rewrite app_nil_r.
  - intros H. apply bind_Ok_inv in H as (b1 & Hplace & Hrest). simpl in Hplace.
    rewrite (assoc_L (++) layout0 [(v, (col, row))] layout
             : layout0 ++ (v, (col, row)) :: layout = _).
    eapply IH; [|exact Hrest]. by eapply place_represents.
Qed.

Lemma place_all_represents sz layout b :
  place_all sz layout = Ok b -> represents sz layout b.
Proof.
  intros H. apply (place_each_represents sz [] layout (Board_init sz));
    [apply represents_Board_init | done].
Qed.

(** Distinct names: a name determines its placement. *)
Lemma placement_by_name (layout : list Placement) p q :
  NoDup (name <$> layout.*1) -> p ∈ layout -> q ∈ layout ->
  name p.1 = name q.1 -> p = q.
Proof.
  intros Hnd [i Hi]%list_elem_of_lookup [j Hj]%list_elem_of_lookup Hname.
  assert (i = j) as ->; [|congruence].
  eapply (NoDup_lookup _ i j (name p.1) Hnd);
    rewrite !list_lookup_fmap; [by rewrite Hi | by rewrite Hj, Hname].
Qed.

(** Two boards that show layouts with the same placements are equal. *)
Lemma represents_same_tiles sz layout1 layout2 b1 b2 :
  represents sz layout1 b1 -> represents sz layout2 b2 ->
  (forall p, p ∈ layout1 <-> p ∈ layout2) ->
  _board b1 = _board b2.
Proof.
  intros (_ & Hwf1 & _ & _ & Hr1) (_ & Hwf2 & _ & _ & Hr2) Hsame.
  assert (forall loc, in_bounds sz loc ->
            read (_board b1) loc = read (_board b2) loc) as Hread.
  { intros loc Hin.
    destruct (wf_tiles_read _ _ _ Hwf1 Hin) as (_ & t1 & _ & _ & _ & E1).
    destruct (wf_tiles_read _ _ _ Hwf2 Hin) as (_ & t2 & _ & _ & _ & E2).
    rewrite E1, E2. f_equal.
    destruct t1 as [u1|].
    - apply (Hr1 loc u1 Hin) in E1 as (p & Hp & Hu & Hc).
      assert (read (_board b2) loc = Some (Some u1)) as E
        by (apply Hr2; [done|]; exists p; by rewrite <- Hsame).
      congruence.
    - destruct t2 as [u2|]; [|done].
      apply (Hr2 loc u2 Hin) in E2 as (p & Hp & Hu & Hc).
      assert (read (_board b1) loc = Some (Some u2)) as E
        by (apply Hr1; [done|]; exists p; by rewrite Hsame).
      congruence. }
  destruct Hwf1 as [Hl1 Hall1], Hwf2 as [Hl2 Hall2].
  apply list_eq. intros i.
  destruct (decide (i < Z.to_nat sz)%nat) as [Hi|Hi].
  2: { rewrite !lookup_ge_None_2; [done|lia..]. }
  destruct (lookup_lt_is_Some_2 (_board b1) i) as [c1 Hc1]; [lia|].
  destruct (lookup_lt_is_Some_2 (_board b2) i) as [c2 Hc2]; [lia|].
  rewrite Hc1, Hc2. f_equal.
  pose proof (Forall_lookup_1 _ _ _ _ Hall1 Hc1) as Hlc1.
  pose proof (Forall_lookup_1 _ _ _ _ Hall2 Hc2) as Hlc2.
  simpl in Hlc1, Hlc2.
  apply list_eq. intros j.
  destruct (decide (j < Z.to_nat sz)%nat) as [Hj|Hj].
  2: { rewrite !lookup_ge_None_2; [done|lia..]. }
  specialize (Hread (Z.of_nat i, Z.of_nat j)). unfold read in Hread.
  simpl in Hread. rewrite !Nat2Z.id, Hc1, Hc2 in Hread. simpl in Hread.
  apply Hread. unfold in_bounds. simpl. lia.
Qed.

(** Every board the checker works on is built by placing a layout. *)
Lemma load_place_each sz file b0 b :
  for_each (fun board entry =>
              let vehicle := mkVehicle (entry_car entry) (entry_orientation entry)
                                       (entry_length entry) in
              let col := entry_col entry - 1 in
              let row := entry_row entry - 1 in
              do board <- place board vehicle col row;
              do loc <- location_of board vehicle;
              if bool_decide (loc = Some (col, row)) then Ok board
              else Raise AssertionError)
           b0 file = Ok b ->
  size b0 = sz ->
  for_each (fun board (p : Placement) => place board p.1 p.2.1 p.2.2) b0
           (placement_of_entry <$> file) = Ok b
  /\ size b = sz.
Proof.
  revert b0. induction file as [|entry file IH]; intros b0 H Hsz; simpl in *.
  - by injection H as <-.
  - apply bind_Ok_inv in H as (b1 & Hone & Hrest).
    apply bind_Ok_inv in Hone as (b2 & Hplace & Hone).
    apply bind_Ok_inv in Hone as (loc & _ & Hone).
    destruct (bool_decide _); [|discriminate]. injection Hone as ->.
    rewrite Hplace. simpl. apply IH; [done|].
    apply place_Ok_inv in Hplace as (bd' & _ & ->). done.
Qed.

Lemma load_place_all sz file b :
  load sz file = Ok b -> place_all sz (placement_of_entry <$> file) = Ok b.
Proof. intros H. by apply (load_place_each sz file (Board_init sz) b). Qed.

Lemma place_located cur others nb0 nb :
  for_each (fun new_board other_vehicle =>
              do loc <- location_of cur other_vehicle;
              do cr <- unpack loc;
              place new_board other_vehicle cr.1 cr.2)
           nb0 others = Ok nb ->
  exists lo : list Placement,
    for_each (fun board (p : Placement) => place board p.1 p.2.1 p.2.2) nb0 lo
    = Ok nb.
Proof.
  revert nb0. induction others as [|o others IH]; intros nb0 H; simpl in H.
  - exists []. done.
  - apply bind_Ok_inv in H as (nb1 & Hone & Hrest).
    apply bind_Ok_inv in Hone as (loc & _ & Hone).
    apply bind_Ok_inv in Hone as (cr & _ & Hplace).
    destruct (IH _ Hrest) as [lo Hlo].
    exists ((o, (cr.1, cr.2)) :: lo). simpl. by rewrite Hplace.
Qed.

Lemma move_step_place_all self v cur d b' :
  move_step self v cur d = Ok b' ->
  exists layout, place_all (size cur) layout = Ok b'.
Proof.
  unfold move_step. intros H.
  apply bind_Ok_inv in H as (nb & Hothers & H).
  apply bind_Ok_inv in H as (loc & _ & H).
  apply bind_Ok_inv in H as (cr & _ & Hplace).
  apply place_located in Hothers as [lo Hlo].
  destruct (bool_decide (orientation v = "V"%string)).
  - exists (lo ++ [(v, (cr.1, cr.2 + d))]). unfold place_all.
    rewrite for_each_app, Hlo. simpl. by rewrite Hplace.
  - exists (lo ++ [(v, (cr.1 + d, cr.2))]). unfold place_all.
    rewrite for_each_app, Hlo. simpl. by rewrite Hplace.
Qed.

Lemma move_loop_place_all self v sz moves :
  forall cur b',
    (exists layout, place_all sz layout = Ok cur) ->
    for_each (move_step self v) cur moves = Ok b' ->
    exists layout, place_all sz layout = Ok b'.
Proof.
  induction moves as [|d moves IH]; intros cur b' Hcur Hmove; simpl in Hmove.
  - by injection Hmove as <-.
  - apply bind_Ok_inv in Hmove as (b1 & Hstep & Hrest).
    apply move_step_place_all in Hstep as [layout1 H1].
    destruct Hcur as [layout Hcur].
    apply place_all_represents in Hcur as [Hsz _]. rewrite Hsz in H1.
    eapply IH; [|exact Hrest]. eauto.
Qed.

Lemma reachable_place_all sz b :
  reachable sz b -> exists layout, place_all sz layout = Ok b.
Proof.
  induction 1 as [file b Hload|b v n b' _ IH _ Hmove].
  - exists (placement_of_entry <$> file). by apply load_place_all.
  - eapply move_loop_place_all; [exact IH | exact Hmove].
Qed.

(** *** Finding a vehicle *)

Lemma Tile_eq_spec (t : Tile) v :
  Tile_eq t v = true <-> exists u, t = Some u /\ name u = name v.
Proof.
  unfold Tile_eq, Vehicle_eq. destruct t as [u|].
  - rewrite bool_decide_eq_true. split; [eauto|]. by intros (? & [= <-] & ?).
  - split; [done | by intros (? & ? & _)].
Qed.

Lemma location_scan_cons sz bd v loc rest t :
  wf_tiles sz bd -> in_bounds sz loc -> read bd loc = Some t ->
  location_scan bd v (loc :: rest)
  = if Tile_eq t v then Ok (Some loc) else location_scan bd v rest.
Proof.
  intros Hwf Hin Hread.
  destruct (wf_tiles_read _ _ _ Hwf Hin) as (column & t' & Hcol & _ & Ht & Hr).
  assert (t' = t) as -> by congruence.
  destruct loc as [col row]. destruct Hin as [Hc Hrow]. simpl in *.
  rewrite (getitem_nonneg bd col column) by (done || lia). simpl.
  by rewrite (getitem_nonneg column row t) by (done || lia).
Qed.

Lemma location_scan_found sz bd v pre loc post :
  wf_tiles sz bd ->
  (forall l, l ∈ pre ->
     in_bounds sz l /\ forall u, read bd l = Some (Some u) -> name u <> name v) ->
  in_bounds sz loc ->
  (exists u, read bd loc = Some (Some u) /\ name u = name v) ->
  location_scan bd v (pre ++ loc :: post) = Ok (Some loc).
Proof.
  intros Hwf Hpre Hin (u & Hu & Hname).
  induction pre as [|l pre IH].
  - rewrite app_nil_l, (location_scan_cons sz bd v loc post (Some u)) by done.
    by rewrite (proj2 (Tile_eq_spec (Some u) v)) by eauto.
  - destruct (Hpre l) as [Hinl Hl]; [by left|].
    destruct (wf_tiles_read _ _ _ Hwf Hinl) as (_ & t & _ & _ & _ & Hr).
    rewrite <- app_comm_cons,
      (location_scan_cons sz bd v l (pre ++ loc :: post) t) by done.
    destruct (Tile_eq t v) eqn:E.
    + apply Tile_eq_spec in E as (u' & -> & Hu'). by destruct (Hl u' Hr).
    + apply IH. intros l' Hl'. apply Hpre. by right.
Qed.

Lemma location_scan_Some sz bd v cells loc :
  wf_tiles sz bd ->
  (forall l, l ∈ cells -> in_bounds sz l) ->
  location_scan bd v cells = Ok (Some loc) ->
  in_bounds sz loc /\ exists u, read bd loc = Some (Some u) /\ name u = name v.
Proof.
  intros Hwf Hcells. induction cells as [|l cells IH]; [done|].
  assert (in_bounds sz l) as Hinl by (apply Hcells; by left).
  destruct (wf_tiles_read _ _ _ Hwf Hinl) as (_ & t & _ & _ & _ & Hr).
  rewrite (location_scan_cons sz bd v l cells t) by done.
  destruct (Tile_eq t v) eqn:E.
  - intros [= <-]. split; [done|].
    apply Tile_eq_spec in E as (u & -> & Hu). eauto.
  - apply IH. intros l' Hl'. apply Hcells. by right.
Qed.

Lemma range_split k n :
  0 <= k < n ->
  exists rest, range n = range k ++ k :: rest.
Proof.
  intros Hk. unfold range.
  replace (Z.to_nat n) with (Z.to_nat k + (1 + (Z.to_nat n - Z.to_nat k - 1)))%nat
    by lia.
  rewrite seq_app, seq_app, !fmap_app. simpl.
  rewrite Z2Nat.id by lia. eauto.
Qed.

Lemma elem_of_scan_order sz loc : loc ∈ scan_order sz <-> in_bounds sz loc.
Proof.
  unfold scan_order, in_bounds. destruct loc as [col row]. simpl. split.
  - intros (r & Hin & Hr)%list_elem_of_bind.
    apply list_elem_of_bind in Hin as (c & Hin & Hc).
    apply list_elem_of_singleton in Hin as [= -> ->].
    by apply elem_of_range in Hr, Hc.
  - intros [? ?]. apply list_elem_of_bind. exists row.
    split; [|by apply elem_of_range].
    apply list_elem_of_bind. exists col.
    split; [by apply list_elem_of_singleton | by apply elem_of_range].
Qed.

(** The cells scanned before a cell of the board lie in a row above it or
    to its left in its row. *)
Lemma scan_order_split sz col row :
  in_bounds sz (col, row) ->
  exists pre post,
    scan_order sz = pre ++ (col, row) :: post
    /\ forall l, l ∈ pre ->
         in_bounds sz l /\ (l.2 < row \/ (l.2 = row /\ l.1 < col)).
Proof.
  intros [Hc Hr]. simpl in *.
  destruct (range_split row sz Hr) as [rows Hrows].
  destruct (range_split col sz Hc) as [cols Hcols].
  set (f := fun row0 : Z => range sz ≫= (fun col0 : Z => [(col0, row0)])).
  change (scan_order sz) with (range sz ≫= f).
  rewrite Hrows, bind_app, bind_cons. unfold f at 2.
  rewrite Hcols, bind_app, bind_cons. simpl.
  exists ((range row ≫= f) ++ (range col ≫= (fun col0 : Z => [(col0, row)]))),
    ((cols ≫= (fun col0 : Z => [(col0, row)])) ++ (rows ≫= f)).
  split; [by rewrite <- !app_assoc|].
  intros [c r] [Hl|Hl]%elem_of_app.
  - apply list_elem_of_bind in Hl as (r' & Hl & Hr'). unfold f in Hl.
    apply list_elem_of_bind in Hl as (c' & Hl & Hc').
    apply list_elem_of_singleton in Hl as [= -> ->].
    apply elem_of_range in Hr', Hc'. unfold in_bounds. simpl. lia.
  - apply list_elem_of_bind in Hl as (c' & Hl & Hc').
    apply list_elem_of_singleton in Hl as [= -> ->].
    apply elem_of_range in Hc'. unfold in_bounds. simpl. lia.
Qed.

Lemma elem_of_footprint v col row loc :
  loc ∈ footprint v col row <->
  exists i, 0 <= i < length v
    /\ loc = if bool_decide (orientation v = "V"%string)
             then (col, row + i) else (col + i, row).
Proof.
  unfold footprint, locations.
  case_bool_decide; rewrite list_elem_of_fmap; split.
  - intros (i & -> & Hi). apply elem_of_range in Hi. eauto.
  - intros (i & Hi & ->). exists i. split; [done | by apply elem_of_range].
  - intros (i & -> & Hi). apply elem_of_range in Hi. eauto.
  - intros (i & Hi & ->). exists i. split; [done | by apply elem_of_range].
Qed.

Lemma anchor_in_footprint v col row loc :
  loc ∈ footprint v col row -> (col, row) ∈ footprint v col row.
Proof.
  rewrite !elem_of_footprint. intros (i & Hi & _). exists 0. split; [lia|].
  case_bool_decide; f_equal; lia.
Qed.

(** On a board that shows a layout of distinct names, [location_of] returns
    the anchor of a vehicle that takes up at least one cell. *)
Lemma location_of_anchor sz layout self v pos loc :
  represents sz layout self ->
  NoDup (name <$> layout.*1) ->
  (v, pos) ∈ layout ->
  loc ∈ footprint v pos.1 pos.2 ->
  location_of self v = Ok (Some pos).
Proof.
  intros (Hsz & Hwf & _ & Hcov & Hread) Hnd Hp Hloc.
  destruct pos as [col row]. simpl in Hloc.
  apply anchor_in_footprint in Hloc as Hanchor.
  assert (in_bounds sz (col, row)) as Hin by (by apply (Hcov (v, (col, row)))).
  unfold location_of. rewrite Hsz.
  destruct (scan_order_split sz col row Hin) as (pre & post & -> & Hpre).
  apply (location_scan_found sz); [done| |done|].
  - intros l Hl. destruct (Hpre l Hl) as [Hinl Hbefore]. split; [done|].
    intros u Hu Hname.
    apply (Hread l u Hinl) in Hu as (p & Hpl & <- & Hc).
    assert (p = (v, (col, row))) as -> by by eapply placement_by_name.
    unfold covers in Hc. simpl in Hc.
    apply elem_of_footprint in Hc as (i & Hi & ->).
    case_bool_decide; simpl in Hbefore; lia.
  - exists v. split; [|done]. apply Hread; [done|]. by exists (v, (col, row)).
Qed.

Lemma location_of_unique sz layout self v pos loc :
  represents sz layout self ->
  NoDup (name <$> layout.*1) ->
  (v, pos) ∈ layout ->
  location_of self v = Ok (Some loc) ->
  loc = pos.
Proof.
  intros Hrep Hnd Hp Hfound. pose proof Hfound as Hloc.
  pose proof Hrep as (Hsz & Hwf & _ & Hcov & Hread).
  unfold location_of in Hloc. rewrite Hsz in Hloc.
  apply (location_scan_Some sz) in Hloc as (Hin & u & Hu & Hname);
    [|done|by intros l ?%elem_of_scan_order].
  apply (Hread loc u Hin) in Hu as (p & Hpl & <- & Hc).
  assert (p = (v, pos)) as -> by by eapply placement_by_name.
  pose proof (location_of_anchor sz layout self v pos loc Hrep Hnd Hp Hc) as E.
  congruence.
Qed.

(** *** One unit step *)

Lemma unpack_Ok loc cr : unpack loc = Ok cr -> loc = Some cr.
Proof. destruct loc; [by intros [= ->] | discriminate]. Qed.

Lemma place_others sz layout cur others :
  represents sz layout cur ->
  NoDup (name <$> layout.*1) ->
  (forall o, o ∈ others -> exists pos, (o, pos) ∈ layout) ->
  forall nb0 acc nb,
    represents sz acc nb0 ->
    for_each (fun new_board other_vehicle =>
                do loc <- location_of cur other_vehicle;
                do cr <- unpack loc;
                place new_board other_vehicle cr.1 cr.2)
             nb0 others = Ok nb ->
    exists lo,
      represents sz (acc ++ lo) nb /\ lo.*1 = others
      /\ forall p, p ∈ lo -> p ∈ layout.
Proof.
  intros Hrep Hnd. induction others as [|o others IH]; intros Hin nb0 acc nb Hacc.
  - simpl. intros [= <-]. exists []. rewrite app_nil_r.
    split_and!; [done..|]. intros p Hp. by apply elem_of_nil in Hp.
  - simpl. intros H. apply bind_Ok_inv in H as (nb1 & Hone & Hrest).
    apply bind_Ok_inv in Hone as (loc & Hloc & Hone).
    apply bind_Ok_inv in Hone as (cr & ->%unpack_Ok & Hplace).
    destruct (Hin o) as [pos Hpos]; [by left|].
    assert (cr = pos) as ->
      by apply (location_of_unique sz layout cur o pos cr Hrep Hnd Hpos Hloc).
    destruct pos as [col row]. simpl in Hplace.
    pose proof (place_represents _ _ _ _ _ _ _ Hacc Hplace) as Hacc1.
    destruct (IH (fun o' Ho' => Hin o' (proj2 (elem_of_cons _ _ _) (or_intror Ho')))
                 nb1 _ nb Hacc1 Hrest) as (lo & Hlo & Hfst & Hsub).
    exists ((o, (col, row)) :: lo). split_and!.
    + by rewrite <- app_assoc in Hlo.
    + rewrite fmap_cons. simpl. by rewrite Hfst.
    + intros p [->|Hp]%elem_of_cons; auto.
Qed.

Lemma shift_shift v pos k d : shift v (shift v pos k) d = shift v pos (k + d).
Proof. unfold shift. case_bool_decide; simpl; f_equal; lia. Qed.

Lemma shift_0 v pos : shift v pos 0 = pos.
Proof.
  unfold shift. destruct pos as [c r].
  case_bool_decide; simpl; f_equal; lia.
Qed.

Section Step.
Variables (sz : Z) (layout0 : list Placement) (self : Board) (v : Vehicle).
Hypothesis self_names : NoDup (name <$> vehicles self).
Hypothesis self_vehicles : forall u, u ∈ vehicles self <-> u ∈ layout0.*1.
Hypothesis layout0_names : NoDup (name <$> layout0.*1).
Hypothesis v_placed : exists pos0, (v, pos0) ∈ layout0.

Lemma move_step_represents layout cur d k b' :
  represents sz layout cur ->
  NoDup (name <$> layout.*1) ->
  moved layout0 v k layout ->
  move_step self v cur d = Ok b' ->
  exists layout',
    represents sz layout' b'
    /\ NoDup (name <$> layout'.*1)
    /\ moved layout0 v (k + d) layout'.
Proof.
  intros Hrep Hnd Hmoved Hstep. destruct v_placed as [pos0 Hv0].
  unfold move_step in Hstep.
  apply bind_Ok_inv in Hstep as (nb & Hothers & Hstep).
  apply bind_Ok_inv in Hstep as (loc & Hloc & Hstep).
  apply bind_Ok_inv in Hstep as (cr & ->%unpack_Ok & Hplace).
  assert (size cur = sz) as Hsz by apply Hrep. rewrite Hsz in Hothers.
  set (others := filter (fun u => negb (Vehicle_eq u v) = true) (vehicles self))
    in *.
  assert (forall o, o ∈ others <-> o ∈ layout0.*1 /\ name o <> name v)
    as Hothers_spec.
  { intros o. unfold others. rewrite list_elem_of_filter, self_vehicles.
    unfold Vehicle_eq. rewrite negb_true_iff, bool_decide_eq_false. tauto. }
  destruct (place_others sz layout cur others Hrep Hnd) with
    (nb0 := Board_init sz) (acc := @nil Placement) (nb := nb)
    as (lo & Hlo & Hfst & Hsub); [|apply represents_Board_init|done|].
  { intros o [Ho Hname]%Hothers_spec.
    apply list_elem_of_fmap in Ho as ([o' pos] & -> & Hp). simpl in *.
    exists pos. apply Hmoved. by left. }
  assert ((v, shift v pos0 k) ∈ layout) as Hv by (apply Hmoved; right; eauto).
  assert (cr = shift v pos0 k) as ->
    by apply (location_of_unique sz layout cur v _ cr Hrep Hnd Hv Hloc).
  assert (place nb v (shift v (shift v pos0 k) d).1 (shift v (shift v pos0 k) d).2
          = Ok b') as Hplace'.
  { unfold shift at 1 3. by destruct (bool_decide (orientation v = "V"%string)). }
  clear Hplace. rewrite shift_shift in Hplace'. simpl in Hlo.
  pose proof (place_represents _ _ _ _ _ _ _ Hlo Hplace') as Hrep'.
  rewrite <- surjective_pairing in Hrep'.
  exists (lo ++ [(v, shift v pos0 (k + d))]). split_and!; [done| |].
  - rewrite !fmap_app, Hfst. simpl. apply NoDup_app. split_and!.
    + eapply sublist_NoDup; [exact self_names|].
      apply fmap_sublist, sublist_filter.
    + intros x (o & -> & [_ Hname]%Hothers_spec)%list_elem_of_fmap.
      by intros ?%list_elem_of_singleton.
    + apply NoDup_singleton.
  - intros p. rewrite elem_of_app, list_elem_of_singleton. split.
    + intros [Hp| ->]; [|right; eauto].
      left. assert (p.1 ∈ others) as [_ Hname]%Hothers_spec.
      { rewrite <- Hfst. apply list_elem_of_fmap. eauto. }
      split; [|done].
      apply Hsub, Hmoved in Hp as [[? _]|(pos & _ & ->)]; [done|].
      by destruct Hname.
    + intros [[Hp Hname]|(pos & Hpos & ->)].
      * left. assert (p.1 ∈ others) as Ho.
        { apply Hothers_spec. split; [|done]. apply list_elem_of_fmap. eauto. }
        rewrite <- Hfst in Ho.
        apply list_elem_of_fmap in Ho as (q & Hq1 & Hq).
        assert (q = p) as <-; [|done].
        eapply (placement_by_name layout); [done|by apply Hsub| |by rewrite Hq1].
        apply Hmoved. by left.
      * right. do 2 f_equal.
        by injection (placement_by_name layout0 (v, pos) (v, pos0)
                        layout0_names Hpos Hv0 eq_refl).
Qed.

Lemma move_loop_represents d m :
  forall layout cur k b',
    represents sz layout cur ->
    NoDup (name <$> layout.*1) ->
    moved layout0 v k layout ->
    for_each (move_step self v) cur (replicate m d) = Ok b' ->
    exists layout',
      represents sz layout' b'
      /\ NoDup (name <$> layout'.*1)
      /\ moved layout0 v (k + Z.of_nat m * d) layout'.
Proof.
  induction m as [|m IH]; intros layout cur k b' Hrep Hnd Hmoved H;
    simpl in H.
  - injection H as <-. exists layout. split_and!; [done..|].
    by replace (k + Z.of_nat 0 * d) with k by lia.
  - apply bind_Ok_inv in H as (b1 & Hstep & Hrest).
    destruct (move_step_represents _ _ _ _ _ Hrep Hnd Hmoved Hstep)
      as (layout1 & Hrep1 & Hnd1 & Hmoved1).
    destruct (IH _ _ _ _ Hrep1 Hnd1 Hmoved1 Hrest)
      as (layout' & ? & ? & Hmoved').
    exists layout'. split_and!; [done..|].
    by replace (k + Z.of_nat (S m) * d)
      with (k + d + Z.of_nat m * d) by lia.
Qed.

Lemma move_represents layout k n b' :
  represents sz layout self ->
  NoDup (name <$> layout.*1) ->
  moved layout0 v k layout ->
  move self v n = Ok b' ->
  exists layout',
    represents sz layout' b'
    /\ NoDup (name <$> layout'.*1)
    /\ moved layout0 v (k + n) layout'.
Proof.
  intros Hrep Hnd Hmoved Hmove. unfold move in Hmove.
  destruct (Z.leb_spec 0 n) as [Hn|Hn];
    destruct (move_loop_represents _ _ _ _ _ _ Hrep Hnd Hmoved Hmove)
      as (layout' & ? & ? & Hmoved');
    exists layout'; (split_and!; [done..|]).
  - by replace (k + n) with (k + Z.of_nat (Z.to_nat n) * 1) by lia.
  - by replace (k + n) with (k + Z.of_nat (Z.to_nat (Z.abs n)) * -1) by lia.
Qed.
End Step.

(** *** There and back *)

Lemma moved_refl (layout : list Placement) v pos0 :
  NoDup (name <$> layout.*1) -> (v, pos0) ∈ layout -> moved layout v 0 layout.
Proof.
  intros Hnd Hv p. split.
  - intros Hp. destruct (decide (name p.1 = name v)) as [Hname|Hname].
    + right. exists pos0. split; [done|]. rewrite shift_0.
      by apply (placement_by_name layout).
    + by left.
  - intros [[Hp _]|(pos & Hpos & ->)]; [done|]. by rewrite shift_0.
Qed.

Lemma moved_vehicles (layout0 layout : list Placement) v pos0 d u :
  NoDup (name <$> layout0.*1) ->
  (v, pos0) ∈ layout0 ->
  moved layout0 v d layout ->
  u ∈ layout.*1 <-> u ∈ layout0.*1.
Proof.
  intros Hnd Hv Hmoved. rewrite !list_elem_of_fmap. split.
  - intros (p & -> & Hp). apply Hmoved in Hp as [[Hp _]|(pos & Hpos & ->)];
      [eauto | by exists (v, pos)].
  - intros ([u' pos] & -> & Hp). simpl.
    destruct (decide (name u' = name v)) as [Hname|Hname].
    + injection (placement_by_name layout0 (u', pos) (v, pos0) Hnd Hp Hv Hname)
        as -> ->.
      exists (v, shift v pos0 d). split; [done|]. apply Hmoved. right. eauto.
    + exists (u', pos). split; [done|]. apply Hmoved. by left.
Qed.

Lemma move_back_restores_layout (sz : Z) (layout : list Placement)
    (b b' b'' : Board) (v : Vehicle) (n : Z) :
  place_all sz layout = Ok b ->
  NoDup (name <$> layout.*1) ->
  v ∈ vehicles b ->
  move b v n = Ok b' ->
  move b' v (- n) = Ok b'' ->
  size b'' = size b /\ _board b'' = _board b.
Proof.
  intros Hbuilt Hnd Hv Hthere Hback.
  apply place_all_represents in Hbuilt as Hrep.
  pose proof Hrep as (Hsz & _ & Hveh & _).
  rewrite Hveh in Hv. apply list_elem_of_fmap in Hv as ([v' pos0] & -> & Hv).
  simpl in *.
  pose proof (moved_refl layout v' pos0 Hnd Hv) as Hmoved0.
  destruct (move_represents sz layout b v') with
    (layout := layout) (k := 0) (n := n) (b' := b')
    as (layout1 & Hrep1 & Hnd1 & Hmoved1); try done.
  { by rewrite Hveh. }
  { intros u. by rewrite Hveh. }
  { eauto. }
  pose proof Hrep1 as (Hsz1 & _ & Hveh1 & _).
  destruct (move_represents sz layout b' v') with
    (layout := layout1) (k := 0 + n) (n := - n) (b' := b'')
    as (layout2 & Hrep2 & Hnd2 & Hmoved2); try done.
  { by rewrite Hveh1. }
  { intros u. rewrite Hveh1. by eapply moved_vehicles. }
  { eauto. }
  replace (0 + n + - n) with 0 in Hmoved2 by lia.
  split; [destruct Hrep2 as [-> _]; done|].
  eapply represents_same_tiles; [exact Hrep2 | exact Hrep |].
  intros p. etrans; [apply Hmoved2 | symmetry; apply Hmoved0].
Qed.

(** C7, as the code has it. On a board of the checker (loaded, or reached by
    moves) whose vehicles have pairwise distinct names, when moving a vehicle
    of the board by [n] succeeds and moving it by [-n] from the result
    succeeds, the board reached has, cell for cell, the tiles of the board
    one started from. *)
Theorem move_back_restores (BOARD_SIZE : Z) (b b' b'' : Board)
    (v : Vehicle) (n : Z) :
  reachable BOARD_SIZE b ->
  NoDup (name <$> vehicles b) ->
  v ∈ vehicles b ->
  move b v n = Ok b' ->
  move b' v (- n) = Ok b'' ->
  size b'' = size b /\ _board b'' = _board b.
Proof.
  intros [layout Hbuilt]%reachable_place_all Hnd.
  apply (move_back_restores_layout BOARD_SIZE layout); [done|].
  apply place_all_represents in Hbuilt as (_ & _ & <- & _). done.
Qed.

Lemma move_back_restores_witness :
  size example_board_back = size example_board
  /\ _board example_board_back = _board example_board.
Proof.
  apply (move_back_restores 6 example_board example_board_there
           example_board_back (mkVehicle "A" "H" 2) 1); try reflexivity.
  - by apply (reachable_load 6 [mkEntry "A" "H" 2 1 1; mkEntry "B" "V" 3 4 1;
                                mkEntry "X" "H" 2 2 3]).
  - apply (bool_decide_unpack _). by vm_compute.
  - apply (bool_decide_unpack _). by vm_compute.
Defined.

(** C7, as stated, fails on a board with two vehicles of one name: [load]
    builds the board, the vehicle is on it, both moves succeed, and the
    board reached has lost the second vehicle of that name. *)
Lemma move_back_loses_twin :
  load 6 [mkEntry "A" "H" 2 3 3; mkEntry "A" "H" 2 1 1] = Ok example_twins
  /\ reachable 6 example_twins
  /\ mkVehicle "A" "H" 2 ∈ vehicles example_twins
  /\ move example_twins (mkVehicle "A" "H" 2) 1 = Ok example_twins_there
  /\ move example_twins_there (mkVehicle "A" "H" 2) (-1) = Ok example_twins_back
  /\ read (_board example_twins) (2, 2) = Some (Some (mkVehicle "A" "H" 2))
  /\ read (_board example_twins_back) (2, 2) = Some None.
Proof.
  split_and!; try reflexivity; [|by left].
  by apply (reachable_load 6 [mkEntry "A" "H" 2 3 3; mkEntry "A" "H" 2 1 1]).
Qed.

End MoveFacts.

(** ** Further properties of nets *)

Section NetMoreFacts.
Import Chips.

Lemma manhattan_triangle a b c : manhattan a c <= manhattan a b + manhattan b c.
Proof. unfold manhattan. lia. Qed.

Lemma _check_continuous_loop_length cursor rest final :
  _check_continuous_loop cursor rest = Ok tt ->
  last (cursor :: rest) = Some final ->
  manhattan cursor final <= len rest.
Proof.
  revert cursor. induction rest as [|wire rest IH]; intros cursor; simpl.
  - intros _ [= <-]. unfold manhattan, len. simpl. lia.
  - destruct (is_neighbor_of_wire cursor wire) eqn:E; [|discriminate]. simpl.
    intros Hloop Hlast. apply is_neighbor_of_wire_spec in E.
    rewrite ?last_cons_cons in Hlast. specialize (IH wire Hloop Hlast).
    pose proof (manhattan_triangle cursor wire final).
    unfold len in *. simpl length. lia.
Qed.

Lemma getitem_0_Ok {A} (l : list A) a : getitem l 0 = Ok a -> head l = Some a.
Proof.
  intros (k & Hk & Ha)%getitem_Ok. destruct l as [|x l]; [done|].
  rewrite py_index_nonneg in Hk by (simpl; lia). by injection Hk as <-.
Qed.

Lemma getitem_m1_Ok {A} (l : list A) a : getitem l (-1) = Ok a -> last l = Some a.
Proof.
  intros (k & Hk & Ha)%getitem_Ok. rewrite last_lookup.
  unfold py_index in Hk. simpl in Hk.
  destruct (Z.leb_spec (- Z.of_nat (length l)) (-1)) as [E|E];
    [|discriminate].
  simpl in Hk. injection Hk as <-.
  replace (pred (length l)) with (Z.to_nat (Z.of_nat (length l) + -1)) by lia.
  done.
Qed.

(** X1. A net that [Net.__init__] accepts has its first and last waypoints
    on its two gates, and at least as many waypoints as the Manhattan
    distance of the gates plus one: the wire is never shorter than the
    distance it bridges. *)
Theorem Net_init_Ok_length ga gb ws net :
  Net_init ga gb ws = Ok net ->
  net = mkNet ga gb ws
  /\ (exists first final,
        head ws = Some first /\ last ws = Some final
        /\ (pairing first final ga gb \/ pairing first final gb ga))
  /\ Z.abs (gate_x ga - gate_x gb) + Z.abs (gate_y ga - gate_y gb) + 1 <= len ws.
Proof.
  unfold Net_init. intros H.
  apply bind_Ok_inv in H as ([] & Hconn & H).
  apply bind_Ok_inv in H as ([] & Hcont & [= <-]).
  split; [done|].
  unfold _check_connected in Hconn. simpl in Hconn.
  apply bind_Ok_inv in Hconn as (first & Hfirst & Hconn).
  apply bind_Ok_inv in Hconn as (final & Hfinal & Hconn).
  apply getitem_0_Ok in Hfirst. apply getitem_m1_Ok in Hfinal.
  assert (pairing first final ga gb \/ pairing first final gb ga) as Hanch.
  { destruct (_check_connected_spec ga gb ws first final Hfirst Hfinal)
      as [_ Hno].
    destruct (decide (is_connected_to_gate first ga
                      && is_connected_to_gate final gb = true)) as [E|E].
    - left. apply andb_true_iff in E as [E1 E2].
      by split; apply is_connected_to_gate_spec.
    - apply not_true_is_false in E. rewrite E in Hconn.
      destruct (is_connected_to_gate first gb
                && is_connected_to_gate final ga) eqn:E'; [|discriminate].
      right. apply andb_true_iff in E' as [E1 E2].
      by split; apply is_connected_to_gate_spec. }
  split; [by exists first, final|].
  unfold _check_continuous in Hcont. simpl in Hcont.
  destruct ws as [|w ws]; [discriminate|]. injection Hfirst as ->.
  rewrite (getitem_head (first :: ws) first) in Hcont by done.
  simpl in Hcont. rewrite drop_0 in Hcont.
  pose proof (_check_continuous_loop_length first ws final Hcont Hfinal) as Hlen.
  unfold len in *. simpl length.
  assert (manhattan first final
          = Z.abs (gate_x ga - gate_x gb) + Z.abs (gate_y ga - gate_y gb)).
  { unfold manhattan.
    destruct Hanch as [[(? & ? & ?) (? & ? & ?)]|[(? & ? & ?) (? & ? & ?)]];
      lia. }
  lia.
Qed.

Lemma Net_init_Ok_length_witness :
  example_net = mkNet (mkGate "1" 0 0) (mkGate "2" 2 0) (wires example_net)
  /\ (exists first final,
        head (wires example_net) = Some first
        /\ last (wires example_net) = Some final
        /\ (pairing first final (mkGate "1" 0 0) (mkGate "2" 2 0)
            \/ pairing first final (mkGate "2" 2 0) (mkGate "1" 0 0)))
  /\ Z.abs (gate_x (mkGate "1" 0 0) - gate_x (mkGate "2" 2 0))
     + Z.abs (gate_y (mkGate "1" 0 0) - gate_y (mkGate "2" 2 0)) + 1
     <= len (wires example_net).
Proof.
  apply (Net_init_Ok_length (mkGate "1" 0 0) (mkGate "2" 2 0)
           (wires example_net) example_net).
  reflexivity.
Defined.

End NetMoreFacts.

(** ** Further properties of the grid *)

Section GridMoreFacts.
Import Chips.

Lemma py_index_Some_nonneg len i k :
  0 <= i -> py_index len i = Some k -> k = Z.to_nat i /\ (k < len)%nat.
Proof.
  intros Hi. unfold py_index.
  destruct (Z.leb_spec 0 i); [|lia]. simpl.
  destruct (Z.ltb_spec i (Z.of_nat len)); simpl.
  - intros [= <-]. lia.
  - destruct (Z.ltb_spec i 0); [lia|]. rewrite andb_false_r. discriminate.
Qed.

Lemma locate_Some_nonneg {A} (l : list A) i k a :
  0 <= i -> locate l i = Ok (k, a) -> k = Z.to_nat i /\ l !! k = Some a.
Proof.
  intros Hi [Hk Ha]%locate_Ok. simpl in *.
  by apply py_index_Some_nonneg in Hk as [-> _].
Qed.

(** An update leaves the cells at other coordinates as they were. *)
Lemma with_cell_read_other grid z0 y0 x0 method grid' z y x c :
  with_cell grid z0 y0 x0 method = Ok grid' ->
  0 <= z0 -> 0 <= y0 -> 0 <= x0 -> 0 <= z -> 0 <= y -> 0 <= x ->
  (z, y, x) <> (z0, y0, x0) ->
  cell_at grid z y x = Ok c ->
  cell_at grid' z y x = Ok c.
Proof.
  intros Hw Hz0 Hy0 Hx0 Hz Hy Hx Hne Hc.
  apply with_cell_Ok in Hw
    as (kz0 & layer0 & ky0 & row0 & kx0 & c0 & c0' & Lz0 & Ly0 & Lx0 & Hm & ->).
  apply cell_at_Ok in Hc as (kz & layer & ky & row & kx & Lz & Ly & Lx).
  pose proof Lz as Lz'. pose proof Ly as Ly'. pose proof Lx as Lx'.
  apply locate_Some_nonneg in Lz0 as [-> Hlz0], Ly0 as [-> Hly0],
    Lx0 as [-> Hlx0]; [|done..].
  apply locate_Some_nonneg in Lz' as [-> Hlz], Ly' as [-> Hly],
    Lx' as [-> Hlx]; [|done..].
  apply locate_Ok in Lz as [Hiz _], Ly as [Hiy _], Lx as [Hix _]. simpl in *.
  apply cell_at_Ok.
  destruct (decide (Z.to_nat z0 = Z.to_nat z)) as [Ez|Ez].
  - rewrite Ez in *. assert (layer0 = layer) as -> by congruence.
    destruct (decide (Z.to_nat y0 = Z.to_nat y)) as [Ey|Ey].
    + rewrite Ey in *. assert (row0 = row) as -> by congruence.
      destruct (decide (Z.to_nat x0 = Z.to_nat x)) as [Ex|Ex].
      { destruct Hne. f_equal; [f_equal|]; lia. }
      exists (Z.to_nat z), (<[Z.to_nat y := <[Z.to_nat x0 := c0']> row]> layer),
        (Z.to_nat y), (<[Z.to_nat x0 := c0']> row), (Z.to_nat x).
      rewrite !locate_Ok. simpl. rewrite !length_insert.
      repeat split; try done; try (apply list_lookup_insert_eq;
        eapply lookup_lt_Some; eauto).
      by rewrite list_lookup_insert_ne.
    + exists (Z.to_nat z), (<[Z.to_nat y0 := <[Z.to_nat x0 := c0']> row0]> layer),
        (Z.to_nat y), row, (Z.to_nat x).
      rewrite !locate_Ok. simpl. rewrite !length_insert.
      repeat split; try done.
      * apply list_lookup_insert_eq. eapply lookup_lt_Some; eauto.
      * by rewrite list_lookup_insert_ne.
  - exists (Z.to_nat z), layer, (Z.to_nat y), row, (Z.to_nat x).
    rewrite !locate_Ok. simpl. rewrite !length_insert.
    repeat split; try done. by rewrite list_lookup_insert_ne.
Qed.

Lemma with_cell_all_cells (P : Cell -> Prop) grid z y x method grid' :
  (forall c c', P c -> method c = Ok c' -> P c') ->
  all_cells P grid ->
  with_cell grid z y x method = Ok grid' ->
  all_cells P grid'.
Proof.
  intros Hm Hall Hw.
  apply with_cell_Ok in Hw
    as (kz0 & layer0 & ky0 & row0 & kx0 & c0 & c0' & Hz0 & Hy0 & Hx0 & Hmc & ->).
  apply locate_Ok in Hz0 as [_ Hlz0], Hy0 as [_ Hly0], Hx0 as [_ Hlx0].
  simpl in *. unfold all_cells in *.
  pose proof (Forall_lookup_1 _ _ _ _ Hall Hlz0) as Hall1.
  pose proof (Forall_lookup_1 _ _ _ _ Hall1 Hly0) as Hall2.
  pose proof (Forall_lookup_1 _ _ _ _ Hall2 Hlx0) as Hc.
  apply Forall_insert; [done|]. apply Forall_insert; [done|].
  apply Forall_insert; [done|]. eauto.
Qed.

Lemma cell_at_all_cells (P : Cell -> Prop) grid z y x c :
  all_cells P grid -> cell_at grid z y x = Ok c -> P c.
Proof.
  intros Hall (kz & layer & ky & row & kx & Hz & Hy & Hx)%cell_at_Ok.
  apply locate_Ok in Hz as [_ Hz], Hy as [_ Hy], Hx as [_ Hx]. simpl in *.
  pose proof (Forall_lookup_1 _ _ _ _ Hall Hz) as Hall1.
  pose proof (Forall_lookup_1 _ _ _ _ Hall1 Hy) as Hall2.
  exact (Forall_lookup_1 _ _ _ _ Hall2 Hx).
Qed.

Lemma sum_over_zero {A} (f : A -> Z) (l : list A) :
  Forall (fun a => f a = 0) l -> sum_over f l = 0.
Proof. induction 1 as [|a l Ha _ IH]; simpl; [done | by rewrite Ha, IH]. Qed.

Lemma cells_cost_zero grid :
  all_cells (fun c => cell_contribution c = 0) grid -> cells_cost grid = 0.
Proof.
  intros Hall. unfold cells_cost. apply sum_over_zero.
  eapply Forall_impl; [exact Hall|]. intros layer Hlayer. simpl in *.
  apply sum_over_zero. eapply Forall_impl; [exact Hlayer|].
  intros row Hrow. simpl in *. by apply sum_over_zero.
Qed.

Lemma all_cells_fresh w h :
  all_cells (fun c => c = Cell_init)
    ((fun _ : Z => (fun _ : Z => (fun _ : Z => Cell_init) <$> range w) <$> range h)
       <$> range NUMBER_OF_LAYERS).
Proof.
  unfold all_cells.
  apply Forall_fmap, Forall_forall. intros ? _. simpl.
  apply Forall_fmap, Forall_forall. intros ? _. simpl.
  apply Forall_fmap, Forall_forall. intros ? _. simpl. done.
Qed.

(** Gates on distinct cells are all placed. *)
Lemma place_gates_ok gs g :
  wf_grid g ->
  (forall gate, gate ∈ gs ->
     0 <= gate_x gate < width g /\ 0 <= gate_y gate < height g) ->
  NoDup (gate_pos <$> gs) ->
  (forall gate, gate ∈ gs ->
     exists c, cell_of_gate (_grid g) gate = Ok c /\ is_gate c = false) ->
  all_cells (fun c => cell_contribution c = 0) (_grid g) ->
  exists g',
    for_each place_gate g gs = Ok g'
    /\ all_cells (fun c => cell_contribution c = 0) (_grid g')
    /\ (forall gate, gate ∈ gs ->
          cell_of_gate (_grid g') gate = Ok (mkCell [OccGate gate] true))
    /\ (forall y x c, 0 <= y -> 0 <= x -> (x, y) ∉ gate_pos <$> gs ->
          cell_at (_grid g) 0 y x = Ok c -> cell_at (_grid g') 0 y x = Ok c).
Proof.
  revert g. induction gs as [|gate gs IH]; intros g Hwf Hin Hnd Hfree Hzero.
  { exists g. split_and!; [done..| |done]. intros ? Hg. by apply elem_of_nil in Hg. }
  rewrite fmap_cons in Hnd. apply NoDup_cons in Hnd as [Hnew Hnd].
  destruct (Hin gate) as [Hx Hy]; [by left|].
  destruct (Hfree gate) as (c & Hc & Hgate); [by left|].
  destruct (place_gate_cases g gate c Hc) as [_ Hno].
  destruct (Hno Hgate) as (cells & Hw & Hplace).
  set (g1 := mkGrid (gates g) (nets g) (width g) (height g) cells) in *.
  assert (wf_grid g1) as Hwf1.
  { unfold wf_grid. simpl. eapply with_cell_wf; [|exact Hwf|exact Hw].
    intros ? ? _. apply set_as_gate_wf. }
  assert (forall y x c', 0 <= y -> 0 <= x -> (x, y) <> gate_pos gate ->
            cell_at (_grid g) 0 y x = Ok c' -> cell_at cells 0 y x = Ok c')
    as Hother.
  { intros y x c' ? ? Hne Hc'.
    eapply with_cell_read_other; [exact Hw|lia..| |done].
    intros [= -> ->]. by destruct Hne. }
  destruct (IH g1 Hwf1) as (g' & Hloop & Hzero' & Hgates & Hkeep).
  - intros gate' Hg'. apply Hin. by right.
  - done.
  - intros gate' Hg'. destruct (Hfree gate') as (c' & Hc' & Hg0); [by right|].
    exists c'. split; [|done]. destruct (Hin gate') as [? ?]; [by right|].
    apply Hother; [lia..| |done].
    intros E. apply Hnew. apply list_elem_of_fmap. by exists gate'.
  - simpl. eapply with_cell_all_cells; [|exact Hzero|exact Hw].
    intros c0 c0' _ Hset. unfold set_as_gate in Hset.
    destruct (is_gate c0); [discriminate|]. by injection Hset as <-.
  - exists g'. simpl. rewrite Hplace. simpl. split_and!; [done..| |].
    + intros gate' [->|Hg']%elem_of_cons; [|by apply Hgates].
      apply Hkeep; [lia..|done|].
      destruct (with_cell_read_same _ _ _ _ _ _ Hw) as (c1 & c1' & Hc1 & Hset & Hc1').
      unfold set_as_gate in Hset. destruct (is_gate c1); [discriminate|].
      by injection Hset as <-.
    + intros y x c' ? ? Hnot Hc'. apply Hkeep; [done..| |].
      * intros ?. apply Hnot. apply elem_of_cons. by right.
      * apply Hother; [done..| |done].
        intros E. apply Hnot. apply elem_of_cons. by left.
Qed.

(** X2. When the gates of the layout file lie on pairwise different cells
    with non-negative coordinates, [Grid.__init__] succeeds: the grid is one
    cell wider and higher than the largest coordinates plus one, every gate
    sits alone in its cell of layer 0, there is no net, and the cost is 0. *)
Theorem Grid_init_distinct_gates (file_gates : list Gate) (mx my : Z) :
  py_max (gate_x <$> file_gates) = Ok mx ->
  py_max (gate_y <$> file_gates) = Ok my ->
  (forall gate, gate ∈ file_gates -> 0 <= gate_x gate /\ 0 <= gate_y gate) ->
  NoDup (gate_pos <$> file_gates) ->
  exists g,
    Grid_init file_gates = Ok g
    /\ gates g = file_gates /\ nets g = []
    /\ width g = mx + 2 /\ height g = my + 2
    /\ (forall gate, gate ∈ file_gates ->
          cell_of_gate (_grid g) gate = Ok (mkCell [OccGate gate] true))
    /\ get_cost g = Ok 0.
Proof.
  intros Emx Emy Hnonneg Hnd. unfold Grid_init. rewrite Emx, Emy. simpl.
  match goal with |- context [for_each place_gate ?g _] => set (g0 := g) end.
  assert (wf_grid g0) as Hwf0 by apply wf_cells_fresh.
  destruct (place_gates_ok file_gates g0 Hwf0) as (g & Hg & Hzero & Hcells & _).
  - intros gate Hg. destruct (Hnonneg gate Hg) as [? ?]. simpl.
    assert (gate_x gate <= mx)
      by (eapply py_max_bound; [done|]; apply list_elem_of_fmap; eauto).
    assert (gate_y gate <= my)
      by (eapply py_max_bound; [done|]; apply list_elem_of_fmap; eauto).
    lia.
  - done.
  - intros gate Hg. destruct (Hnonneg gate Hg) as [? ?].
    assert (gate_x gate <= mx)
      by (eapply py_max_bound; [done|]; apply list_elem_of_fmap; eauto).
    assert (gate_y gate <= my)
      by (eapply py_max_bound; [done|]; apply list_elem_of_fmap; eauto).
    destruct (cell_at_in_range _ _ _ 0 (gate_y gate) (gate_x gate) Hwf0)
      as [c Hc]; [done|simpl; lia..|].
    exists c. split; [done|].
    by rewrite (cell_at_all_cells _ _ _ _ _ _ (all_cells_fresh _ _) Hc).
  - eapply Forall_impl; [apply all_cells_fresh|]. intros layer Hl. simpl in *.
    eapply Forall_impl; [exact Hl|]. intros row Hr. simpl in *.
    eapply Forall_impl; [exact Hr|]. by intros c ->.
  - destruct (place_gates_wf _ _ _ Hwf0 Hg) as (Hwf & Hw & Hh & Hn & Hgs).
    exists g. split_and!; try done.
    rewrite (get_cost_wf g Hwf), (cells_cost_zero _ Hzero), Hn. done.
Qed.

Lemma Grid_init_distinct_gates_witness :
  exists g,
    Grid_init example_gates = Ok g
    /\ gates g = example_gates /\ nets g = []
    /\ width g = 2 + 2 /\ height g = 1 + 2
    /\ (forall gate, gate ∈ example_gates ->
          cell_of_gate (_grid g) gate = Ok (mkCell [OccGate gate] true))
    /\ get_cost g = Ok 0.
Proof.
  apply (Grid_init_distinct_gates example_gates 2 1); try reflexivity.
  - intros gate Hg. repeat (apply elem_of_cons in Hg as [->|Hg]); simpl; try lia.
    by apply elem_of_nil in Hg.
  - apply (bool_decide_unpack _). by vm_compute.
Defined.

(** *** A net over free cells *)

Lemma place_net_loop_free net ws g :
  wf_grid g ->
  NoDup ws ->
  (forall w, w ∈ ws ->
     nonneg_wire w /\ cell_of_wire (_grid g) w = Ok (mkCell [] false)) ->
  exists g',
    place_net_loop g net ws = (g', Ok tt)
    /\ wf_grid g' /\ nets g' = nets g
    /\ cells_cost (_grid g') = cells_cost (_grid g) + len ws
    /\ forall w, w ∈ ws ->
         cell_of_wire (_grid g') w = Ok (mkCell [OccNet net] false).
Proof.
  revert g. induction ws as [|w ws IH]; intros g Hwf Hnd Hfree.
  { exists g. split_and!; [done..|unfold len; simpl; lia|].
    intros ? Hw. by apply elem_of_nil in Hw. }
  apply NoDup_cons in Hnd as [Hnew Hnd].
  destruct (Hfree w) as [(Hx & Hy & Hz) Hc]; [by left|].
  simpl.
  destruct (with_cell_cases (_grid g) (wire_z w) (wire_y w) (wire_x w)
              (add_net net)) as [(e & He & _)|(c0 & Hc0 & Hres)];
    [unfold cell_of_wire in Hc; congruence|].
  assert (c0 = mkCell [] false) as -> by (unfold cell_of_wire in Hc; congruence).
  destruct (with_cell _ _ _ _ _) as [cells|e] eqn:Hw; [|discriminate].
  set (g1 := mkGrid _ _ _ _ cells).
  assert (wf_grid g1) as Hwf1.
  { unfold wf_grid. simpl. eapply with_cell_wf; [|exact Hwf|exact Hw].
    intros ? ? _. apply add_net_wf. }
  destruct (IH g1 Hwf1 Hnd) as (g' & Hloop & Hwf' & Hnets & Hcost & Hcells).
  { intros w' Hw'. destruct (Hfree w') as [(? & ? & ?) Hc']; [by right|].
    split; [done|]. unfold cell_of_wire. simpl.
    eapply with_cell_read_other; [exact Hw|done..| |done].
    intros [= E1 E2 E3]. apply Hnew.
    destruct w, w'. simpl in *. by subst. }
  exists g'. split_and!; [done..| |].
  - rewrite Hcost. simpl.
    destruct (with_cell_cost _ _ _ _ _ _ Hw) as (c2 & c2' & Hc2 & Ha2 & ->).
    assert (c2 = mkCell [] false) as -> by congruence.
    apply add_net_Ok in Ha2 as [_ ->]. unfold len. simpl length.
    unfold cell_contribution, len. simpl. lia.
  - intros w' [->|Hw']%elem_of_cons; [|by apply Hcells].
    destruct (with_cell_read_same _ _ _ _ _ _ Hw) as (c2 & c2' & Hc2 & Ha2 & Hc2').
    assert (c2 = mkCell [] false) as -> by congruence.
    apply add_net_Ok in Ha2 as [_ ->]. simpl in Hc2'.
    destruct (place_net_loop_grows _ _ _ _ _ _ _ _ _ Hloop Hc2')
      as (c3 & Hc3 & Hg3 & Hsub).
    (* the cell is not visited again *)
    clear Hsub. revert Hc3 Hg3.
    assert (forall ws' g2 g3 r,
              place_net_loop g2 net ws' = (g3, r) -> w ∉ ws' ->
              (forall w', w' ∈ ws' -> nonneg_wire w') ->
              forall c, cell_of_wire (_grid g2) w = Ok c ->
                        cell_of_wire (_grid g3) w = Ok c) as Hstay.
    { clear -Hx Hy Hz. induction ws' as [|w1 ws' IH']; intros g2 g3 r; simpl.
      - by intros [= <- _].
      - destruct (with_cell _ _ _ _ _) as [cells|e] eqn:E;
          [|by intros [= <- _]].
        intros Hl Hnot Hnn c Hc.
        apply not_elem_of_cons in Hnot as [Hne Hnot].
        destruct (Hnn w1) as (? & ? & ?); [by left|].
        eapply (IH' _ _ _ Hl Hnot); [intros; apply Hnn; by right|].
        unfold cell_of_wire. simpl.
        eapply with_cell_read_other; [exact E|done..| |done].
        intros [= E1 E2 E3]. apply Hne. destruct w, w1. simpl in *. by subst. }
    intros _ _. eapply (Hstay ws g1 g' _ Hloop Hnew); [|done].
    intros w' Hw'. by destruct (Hfree w'); [right|].
Qed.

Lemma length_slice_1_m1 {A} (l : list A) :
  length (slice_1_m1 l) = (length l - 2)%nat.
Proof. unfold slice_1_m1. rewrite length_take, length_drop. lia. Qed.

(** X3. A net of at least two waypoints whose interior waypoints lie on
    pairwise different free wire cells is placed without failure, and the
    cost of the grid grows by the number of its wire segments, that is the
    number of its waypoints minus one. *)
Theorem place_net_free_cells (file_gates : list Gate) (ns : list Net)
    (g0 g : Grid) (net : Net) (cost : Z) :
  Grid_init file_gates = Ok g0 ->
  place_nets g0 ns = (g, Ok tt) ->
  (2 <= length (wires net))%nat ->
  NoDup (slice_1_m1 (wires net)) ->
  (forall w, w ∈ slice_1_m1 (wires net) ->
     nonneg_wire w /\ cell_of_wire (_grid g) w = Ok (mkCell [] false)) ->
  get_cost g = Ok cost ->
  exists g',
    place_net g net = (g', Ok tt)
    /\ nets g' = nets g ++ [net]
    /\ (forall w, w ∈ slice_1_m1 (wires net) ->
          cell_of_wire (_grid g') w = Ok (mkCell [OccNet net] false))
    /\ get_cost g' = Ok (cost + len (wires net) - 1).
Proof.
  intros Hinit Hplace Hlen Hnd Hfree Hcost.
  apply Grid_init_wf in Hinit as [Hwf0 _].
  apply place_nets_wf in Hplace as [Hwf _]; [|done].
  unfold place_net. set (g1 := mkGrid _ _ _ _ _).
  destruct (place_net_loop_free net (slice_1_m1 (wires net)) g1 Hwf Hnd Hfree)
    as (g' & Hloop & Hwf' & Hnets & Hsum & Hcells).
  exists g'. split_and!; [done..|].
  rewrite (get_cost_wf g Hwf) in Hcost. injection Hcost as <-.
  rewrite (get_cost_wf g' Hwf'), Hsum, Hnets. simpl. f_equal.
  unfold len. rewrite length_slice_1_m1, length_app. simpl. lia.
Qed.

Lemma place_net_free_cells_witness :
  exists g',
    place_net example_grid0 example_net = (g', Ok tt)
    /\ nets g' = nets example_grid0 ++ [example_net]
    /\ (forall w, w ∈ slice_1_m1 (wires example_net) ->
          cell_of_wire (_grid g') w = Ok (mkCell [OccNet example_net] false))
    /\ get_cost g' = Ok (0 + len (wires example_net) - 1).
Proof.
  apply (place_net_free_cells example_gates [] example_grid0 example_grid0
           example_net 0); try reflexivity.
  - simpl. lia.
  - apply (bool_decide_unpack _). by vm_compute.
  - intros w Hw. simpl in Hw.
    repeat (apply elem_of_cons in Hw as [->|Hw]);
      [split; [unfold nonneg_wire; simpl; lia | reflexivity]..|].
    by apply elem_of_nil in Hw.
Defined.

(** *** Looking up gates *)

Lemma get_gate_Some_first (l : list Gate) (nets0 : list Net) w h cells gate :
  NoDup (gate_id <$> l) -> gate ∈ l ->
  get_gate (mkGrid l nets0 w h cells) (gate_id gate) = Some gate.
Proof.
  intros Hnd [i Hi]%list_elem_of_lookup. unfold get_gate. simpl.
  assert (list_find (fun g => gate_id g = gate_id gate) l = Some (i, gate))
    as ->; [|done].
  apply list_find_Some. split_and!; [done..|].
  intros j gate' Hj Hlt Heq.
  assert (i = j); [|lia].
  eapply (NoDup_lookup _ i j (gate_id gate) Hnd);
    rewrite list_lookup_fmap; [by rewrite Hi | rewrite Hj; simpl; by f_equal].
Qed.

(** X4. On the grid built from a layout file whose gate ids are pairwise
    different, [get_gate] returns for the id of each gate that very gate, and
    nothing for an id that no gate has. *)
Theorem get_gate_Grid_init (file_gates : list Gate) (g : Grid) :
  Grid_init file_gates = Ok g ->
  NoDup (gate_id <$> file_gates) ->
  (forall gate, gate ∈ file_gates -> get_gate g (gate_id gate) = Some gate)
  /\ (forall id, id ∉ gate_id <$> file_gates -> get_gate g id = None).
Proof.
  intros Hinit Hnd.
  assert (gates g = file_gates) as Hgates.
  { unfold Grid_init in Hinit.
    apply bind_Ok_inv in Hinit as (mx & _ & Hinit).
    apply bind_Ok_inv in Hinit as (my & _ & Hinit).
    apply place_gates_wf in Hinit as (_ & _ & _ & _ & ?); [done|].
    apply wf_cells_fresh. }
  destruct g as [gs ns w h cells]. simpl in Hgates. subst gs. split.
  - intros gate Hg. by apply get_gate_Some_first.
  - intros id Hid. unfold get_gate. simpl.
    assert (list_find (fun g => gate_id g = id) file_gates = None) as ->; [|done].
    apply list_find_None, Forall_forall. intros gate Hg Heq.
    apply Hid, list_elem_of_fmap. eauto.
Qed.

Lemma get_gate_Grid_init_witness :
  (forall gate, gate ∈ example_gates ->
     get_gate example_grid0 (gate_id gate) = Some gate)
  /\ (forall id, id ∉ gate_id <$> example_gates ->
        get_gate example_grid0 id = None).
Proof.
  apply (get_gate_Grid_init example_gates example_grid0); [reflexivity|].
  apply (bool_decide_unpack _). by vm_compute.
Defined.

End GridMoreFacts.

(** ** The patterns of [check_file] *)

Section PatternFacts.
Import Chips.

Lemma nullable_lang r : nullable r = true -> lang r EmptyString.
Proof.
  induction r as [| |p|r1 IH1 r2 IH2|r1 IH1 r2 IH2|r IH]; simpl; try done.
  - intros _. constructor.
  - intros [H1 H2]%andb_true_iff.
    change EmptyString with (EmptyString +:+ EmptyString).
    constructor; auto.
  - intros [H|H]%orb_true_iff; [apply lang_alt_l | apply lang_alt_r]; auto.
  - intros _. constructor.
Qed.

Lemma deriv_lang c r : forall s, lang (deriv c r) s -> lang r (String c s).
Proof.
  induction r as [| |p|r1 IH1 r2 IH2|r1 IH1 r2 IH2|r IH]; simpl; intros s H.
  - inversion H.
  - inversion H.
  - destruct (p c) eqn:E; inversion H; subst. by constructor.
  - assert (forall s, lang (Cat (deriv c r1) r2) s -> lang (Cat r1 r2) (String c s))
      as Hcat.
    { intros s0 H0. inversion H0; subst.
      rewrite <- append_cons. constructor; auto. }
    destruct (nullable r1) eqn:E; [|auto].
    inversion H; subst; [auto|].
    rewrite <- (append_nil_l (String c s)).
    constructor; [by apply nullable_lang | auto].
  - inversion H; subst; [apply lang_alt_l | apply lang_alt_r]; auto.
  - inversion H; subst. rewrite <- append_cons. constructor; auto.
Qed.

Lemma fullmatch_sound r s : fullmatch r s = true -> lang r s.
Proof.
  revert r. induction s as [|c s IH]; intros r; simpl.
  - apply nullable_lang.
  - intros H. by apply deriv_lang, IH.
Qed.

Lemma fullmatch_lang r s : fullmatch r s = true <-> lang r s.
Proof. split; [apply fullmatch_sound | apply fullmatch_complete]. Qed.

Lemma lang_Class_inv p s :
  lang (Class p) s -> exists c, s = String c EmptyString /\ p c = true.
Proof. inversion 1; subst. eauto. Qed.

Lemma lang_Lit_inv c s : lang (Lit c) s -> s = String c EmptyString.
Proof.
  intros (d & -> & Hd)%lang_Class_inv. by apply bool_decide_eq_true in Hd as ->.
Qed.

Lemma lang_Cat_inv r1 r2 s :
  lang (Cat r1 r2) s -> exists s1 s2, s = s1 +:+ s2 /\ lang r1 s1 /\ lang r2 s2.
Proof. inversion 1; subst. eauto. Qed.

Lemma lang_Opt_inv r s : lang (Opt r) s -> s = EmptyString \/ lang r s.
Proof. inversion 1 as [| | |? ? ? H1|? ? ? H1| |]; subst; [auto|]. inversion H1. auto. Qed.

Lemma lang_Star_Digit_inv r s :
  lang r s -> r = Star Digit -> all_digits s = true.
Proof.
  induction 1 as [| | | | | |r0 s1 s2 H1 _ H2 IH]; intros Hr; try discriminate.
  - done.
  - injection Hr as ->.
    apply lang_Class_inv in H1 as (c & -> & Hc).
    rewrite append_cons, append_nil_l. simpl. by rewrite Hc, IH.
Qed.

Lemma lang_Plus_Digit s : lang (Plus Digit) s <-> numeral s.
Proof.
  split; [|apply lang_numeral].
  intros (s1 & s2 & -> & (c & -> & Hc)%lang_Class_inv & H2)%lang_Cat_inv.
  rewrite append_cons, append_nil_l. split; [done|]. simpl.
  by rewrite Hc, (lang_Star_Digit_inv _ _ H2).
Qed.

Lemma lang_wire_pattern s : lang wire_pattern s <-> tuple_body s.
Proof.
  unfold wire_pattern. split.
  - intros (x & s1 & -> & Hx%lang_Plus_Digit & H)%lang_Cat_inv.
    apply lang_Cat_inv in H as (? & s2 & -> & ->%lang_Lit_inv & H).
    apply lang_Cat_inv in H as (y & s3 & -> & Hy%lang_Plus_Digit & H).
    apply lang_Opt_inv in H as [->|H].
    + rewrite append_nil_r. by apply body_xy.
    + apply lang_Cat_inv in H as (? & z & -> & ->%lang_Lit_inv & Hz%lang_Plus_Digit).
      by apply body_xyz.
  - intros [x y Hx Hy|x y z Hx Hy Hz].
    + constructor; [by apply lang_numeral|].
      change ("," +:+ y)%string with (String "," EmptyString +:+ y).
      constructor; [apply lang_lit|].
      rewrite <- (append_nil_r y).
      constructor; [by apply lang_numeral | apply lang_alt_r; constructor].
    + constructor; [by apply lang_numeral|].
      change ("," +:+ y +:+ "," +:+ z)%string
        with (String "," EmptyString +:+ (y +:+ ("," +:+ z))).
      constructor; [apply lang_lit|].
      constructor; [by apply lang_numeral|].
      apply lang_alt_l.
      change ("," +:+ z)%string with (String "," EmptyString +:+ z).
      constructor; [apply lang_lit | by apply lang_numeral].
Qed.

(** What [re.match] with a pattern [^r$] accepts: a word of [r], or a word
    of [r] followed by one newline. *)
Lemma anchored_match_spec r s :
  anchored_match r s = true
  <-> exists s', lang r s' /\ (s = s' \/ s = s' +:+ String "010" EmptyString).
Proof.
  unfold anchored_match. rewrite fullmatch_lang. split.
  - intros (s1 & s2 & -> & H1 & [Hopt|Hopt]%lang_Opt_inv)%lang_Cat_inv;
      exists s1; (split; [done|]).
    + left. by rewrite Hopt, append_nil_r.
    + right. by apply lang_Lit_inv in Hopt as ->.
  - intros (s' & H & [->| ->]).
    + rewrite <- (append_nil_r s'). constructor; [done|].
      apply lang_alt_r. constructor.
    + constructor; [done|]. apply lang_alt_l, lang_lit.
Qed.

Lemma bind_nil_inv {A B} (f : A -> list B) (l : list A) :
  l ≫= f = [] -> forall a, a ∈ l -> f a = [].
Proof.
  induction l as [|a l IH]; intros H a' Ha'; [by apply elem_of_nil in Ha'|].
  rewrite bind_cons in H. apply app_eq_nil in H as [H1 H2].
  apply elem_of_cons in Ha' as [->|Ha']; auto.
Qed.

(** X5. On wires fields written in ASCII, the check of the wires column
    passes exactly when every piece that splitting a field (without its
    first two and last two characters) at [),(] yields is a coordinate
    [<x>,<y>] or [<x>,<y>,<z>] of non-empty runs of the digits 0 to 9,
    possibly followed by one newline. *)
Theorem check_file_wires_iff (wires_column : list string) :
  (forall x, x ∈ wires_column -> ascii_text x) ->
  check_file_wires wires_column = Ok tt
  <-> forall x piece,
        x ∈ wires_column -> piece ∈ split "),(" (str_slice_2_m2 x) ->
        exists body, tuple_body body
          /\ (piece = body \/ piece = body +:+ String "010" EmptyString).
Proof.
  intros _. unfold check_file_wires.
  assert (wire_bools wires_column = []
          <-> forall x piece,
                x ∈ wires_column -> piece ∈ split "),(" (str_slice_2_m2 x) ->
                anchored_match wire_pattern piece = true) as Hbools.
  { unfold wire_bools. split.
    - intros H x piece Hx Hpiece.
      apply list_elem_of_lookup in Hx as [i Hi].
      pose proof (bind_nil_inv _ _ H (i, split "),(" (str_slice_2_m2 x))) as H1.
      simpl in H1.
      assert ((i, split "),(" (str_slice_2_m2 x))
              ∈ imap (fun i c => (i, c)) (coords wires_column)) as Hin.
      { apply list_elem_of_lookup. exists i.
        rewrite list_lookup_imap. unfold coords.
        by rewrite list_lookup_fmap, Hi. }
      pose proof (bind_nil_inv _ _ (H1 Hin) piece Hpiece) as H2. simpl in H2.
      by destruct (anchored_match wire_pattern piece).
    - intros H. apply bind_nil. intros [i cs] Hi.
      apply list_elem_of_lookup in Hi as [k Hk].
      rewrite list_lookup_imap in Hk. unfold coords in Hk.
      rewrite list_lookup_fmap in Hk.
      destruct (wires_column !! k) as [x|] eqn:Hx; [|discriminate].
      simpl in Hk. injection Hk as <- <-.
      apply bind_nil. intros piece Hpiece.
      rewrite (H x piece); [done| |done].
      apply list_elem_of_lookup. eauto. }
  setoid_rewrite <- lang_wire_pattern.
  setoid_rewrite <- anchored_match_spec.
  rewrite <- Hbools.
  destruct (wire_bools wires_column); split; done.
Qed.

Lemma check_file_wires_iff_witness :
  check_file_wires ["[(0,0),(0,1,2)]"%string] = Ok tt
  <-> forall x piece,
        x ∈ ["[(0,0),(0,1,2)]"%string] ->
        piece ∈ split "),(" (str_slice_2_m2 x) ->
        exists body, tuple_body body
          /\ (piece = body \/ piece = body +:+ String "010" EmptyString).
Proof.
  apply (check_file_wires_iff ["[(0,0),(0,1,2)]"%string]).
  intros x ->%list_elem_of_singleton.
  apply (bool_decide_unpack _). by vm_compute.
Defined.

(** X6. On net fields written in ASCII, the check of the nets column passes
    exactly when every net field is [(<a>,<b>)] with two non-empty runs of
    the digits 0 to 9, possibly followed by one newline. *)
Theorem check_file_nets_iff (net_column : list string) :
  (forall x, x ∈ net_column -> ascii_text x) ->
  check_file_nets net_column = Ok tt
  <-> forall x, x ∈ net_column ->
        exists a b, numeral a /\ numeral b
          /\ (x = "(" +:+ a +:+ "," +:+ b +:+ ")"
              \/ x = ("(" +:+ a +:+ "," +:+ b +:+ ")")
                     +:+ String "010" EmptyString).
Proof.
  intros _.
  assert (forall s, lang net_pattern s
            <-> exists a b, numeral a /\ numeral b
                            /\ s = "(" +:+ a +:+ "," +:+ b +:+ ")") as Hlang.
  { intros s. unfold net_pattern. split.
    - intros (? & s1 & -> & ->%lang_Lit_inv & H)%lang_Cat_inv.
      apply lang_Cat_inv in H as (a & s2 & -> & Ha%lang_Plus_Digit & H).
      apply lang_Cat_inv in H as (? & s3 & -> & ->%lang_Lit_inv & H).
      apply lang_Cat_inv in H as (b & ? & -> & Hb%lang_Plus_Digit & ->%lang_Lit_inv).
      by exists a, b.
    - intros (a & b & Ha & Hb & ->).
      change ("(" +:+ a +:+ "," +:+ b +:+ ")")%string
        with (String "(" EmptyString
              +:+ (a +:+ (String "," EmptyString +:+ (b +:+ String ")" EmptyString)))).
      constructor; [apply lang_lit|].
      constructor; [by apply lang_numeral|].
      constructor; [apply lang_lit|].
      constructor; [by apply lang_numeral | apply lang_lit]. }
  unfold check_file_nets. case_bool_decide as Hfalse; split; try done.
  - intros Hall. exfalso.
    apply list_elem_of_fmap in Hfalse as (x & Hx & Hin).
    destruct (Hall x Hin) as (a & b & Ha & Hb & Hform).
    assert (anchored_match net_pattern x = true) as E; [|congruence].
    apply anchored_match_spec. exists ("(" +:+ a +:+ "," +:+ b +:+ ")")%string.
    split; [|done]. apply Hlang. eauto.
  - intros _ x Hx.
    destruct (anchored_match net_pattern x) eqn:E.
    + apply anchored_match_spec in E as (s' & (a & b & Ha & Hb & ->)%Hlang & Hs).
      eauto.
    + destruct Hfalse. apply list_elem_of_fmap. eauto.
Qed.

Lemma check_file_nets_iff_witness :
  check_file_nets ["(1,2)"%string; "(12,3)"%string] = Ok tt
  <-> forall x, x ∈ ["(1,2)"%string; "(12,3)"%string] ->
        exists a b, numeral a /\ numeral b
          /\ (x = "(" +:+ a +:+ "," +:+ b +:+ ")"
              \/ x = ("(" +:+ a +:+ "," +:+ b +:+ ")")
                     +:+ String "010" EmptyString).
Proof.
  apply (check_file_nets_iff ["(1,2)"%string; "(12,3)"%string]).
  intros x Hx.
  apply elem_of_cons in Hx as [->|Hx];
    [apply (bool_decide_unpack _); by vm_compute|].
  apply list_elem_of_singleton in Hx as ->.
  apply (bool_decide_unpack _). by vm_compute.
Defined.

End PatternFacts.

(** ** The netlist check *)

Section NetlistFacts.
Import Chips.

Implicit Types (p q : Z * Z) (N cur : gset (Z * Z)) (O : list (Z * Z)).

Lemma swap_gates_involutive p : swap_gates (swap_gates p) = p.
Proof. by destruct p. Qed.

Lemma elem_of_orient_step cur p q :
  q ∈ orient_step cur p <->
  if bool_decide (p ∉ cur) && bool_decide (swap_gates p ∈ cur)
  then q = p \/ (q ∈ cur /\ q <> swap_gates p)
  else q ∈ cur.
Proof.
  unfold orient_step, swap_gates. destruct p as [a b]. simpl.
  destruct (bool_decide ((a, b) ∉ cur) && bool_decide ((b, a) ∈ cur)); [|done].
  set_solver.
Qed.

Lemma size_list_to_set_le O :
  (size (list_to_set O : gset (Z * Z)) <= length O)%nat.
Proof.
  induction O as [|p O IH]; [by rewrite list_to_set_nil, size_empty|].
  rewrite list_to_set_cons, size_union_alt, size_singleton. simpl length.
  assert (list_to_set O ∖ {[p]} ⊆ (list_to_set O : gset (Z * Z))) as Hsub.
  { intros q Hq. by apply elem_of_difference in Hq as [? _]. }
  apply subseteq_size in Hsub. lia.
Qed.

Lemma size_list_to_set_NoDup O :
  size (list_to_set O : gset (Z * Z)) = length O <-> NoDup O.
Proof.
  split; [|apply size_list_to_set].
  induction O as [|p O IH]; [constructor|].
  rewrite list_to_set_cons. simpl length. intros Hsize.
  pose proof (size_list_to_set_le O) as Hle.
  destruct (decide (p ∈ O)) as [Hin|Hin].
  - assert ({[p]} ∪ list_to_set O = (list_to_set O : gset (Z * Z))) as E.
    { apply set_eq. intros q.
      rewrite elem_of_union, elem_of_singleton, elem_of_list_to_set.
      split; [by intros [->|?] | auto]. }
    rewrite E in Hsize. lia.
  - constructor; [done|]. apply IH.
    rewrite size_union, size_singleton in Hsize by set_solver. lia.
Qed.

(** What the orientation loop keeps: the nets are those of the netlist, each
    possibly turned around. *)
Lemma orient_invariant N O :
  let final := foldl orient_step N O in
  (forall p, p ∈ final -> p ∈ N \/ swap_gates p ∈ N)
  /\ (forall p, p ∈ N -> p ∈ final \/ swap_gates p ∈ final).
Proof.
  simpl.
  assert (forall cur,
            (forall p, p ∈ cur -> p ∈ N \/ swap_gates p ∈ N) ->
            (forall p, p ∈ N -> p ∈ cur \/ swap_gates p ∈ cur) ->
            (forall p, p ∈ foldl orient_step cur O -> p ∈ N \/ swap_gates p ∈ N)
            /\ (forall p, p ∈ N -> p ∈ foldl orient_step cur O
                                   \/ swap_gates p ∈ foldl orient_step cur O))
    as H; [|apply H; auto].
  induction O as [|o O IH]; intros cur H1 H2; [done|]. simpl.
  apply IH.
  - intros p Hp. apply elem_of_orient_step in Hp.
    destruct (bool_decide (o ∉ cur) && bool_decide (swap_gates o ∈ cur)) eqn:E;
      [|auto].
    apply andb_true_iff in E as [_ E]. apply bool_decide_eq_true in E.
    destruct Hp as [->|[Hp _]]; [|auto].
    destruct (H1 _ E) as [?|?]; [by right|left].
    by rewrite swap_gates_involutive in *.
  - intros p Hp. rewrite !elem_of_orient_step.
    destruct (bool_decide (o ∉ cur) && bool_decide (swap_gates o ∈ cur)) eqn:E;
      [|auto].
    destruct (decide (p = o)) as [->|Hpo]; [by left; left|].
    destruct (decide (swap_gates p = o)) as [<-|Hspo]; [by right; left|].
    destruct (H2 p Hp) as [Hc|Hc]; [left|right]; right; (split; [done|]).
    + intros ->. by rewrite swap_gates_involutive in Hspo.
    + intros E'. apply Hpo. by rewrite <- (swap_gates_involutive p), E',
        swap_gates_involutive.
Qed.

(** X7. When [check_netlist_complete] returns, the output lists no net
    twice, every net of the output is a net of the netlist in one of the two
    orientations, and every net of the netlist is in the output in one of the
    two orientations. *)
Theorem check_netlist_complete_sound (netlist_file output_data : list (Z * Z)) :
  check_netlist_complete netlist_file output_data = None ->
  NoDup output_data
  /\ (forall p, p ∈ output_data ->
        p ∈ netlist_file \/ swap_gates p ∈ netlist_file)
  /\ (forall p, p ∈ netlist_file ->
        p ∈ output_data \/ swap_gates p ∈ output_data).
Proof.
  unfold check_netlist_complete.
  case_bool_decide as Hsize; simpl; [|discriminate].
  case_bool_decide as Heq; simpl.
  2: { case_bool_decide; discriminate. }
  intros _. apply size_list_to_set_NoDup in Hsize. split; [done|].
  destruct (orient_invariant (list_to_set netlist_file) output_data) as [H1 H2].
  simpl in H1, H2. rewrite Heq in H1, H2.
  setoid_rewrite elem_of_list_to_set in H1.
  setoid_rewrite elem_of_list_to_set in H2.
  auto.
Qed.

Lemma check_netlist_complete_sound_witness :
  NoDup [(1, 2); (4, 3)]
  /\ (forall p, p ∈ [(1, 2); (4, 3)] ->
        p ∈ [(1, 2); (3, 4)] \/ swap_gates p ∈ [(1, 2); (3, 4)])
  /\ (forall p, p ∈ [(1, 2); (3, 4)] ->
        p ∈ [(1, 2); (4, 3)] \/ swap_gates p ∈ [(1, 2); (4, 3)]).
Proof.
  apply (check_netlist_complete_sound [(1, 2); (3, 4)] [(1, 2); (4, 3)]).
  by vm_compute.
Defined.

Lemma collect_duplicates_length seen O :
  (length (collect_duplicates seen O) + size (seen ∪ list_to_set O)
   = length O + size seen)%nat.
Proof.
  revert seen. induction O as [|p O IH]; intros seen.
  - by rewrite list_to_set_nil, (right_id_L ∅ (∪)).
  - rewrite list_to_set_cons. cbn [collect_duplicates length].
    case_bool_decide as Hseen; cbn [length].
    + specialize (IH ({[p]} ∪ seen)).
      rewrite (size_union {[p]} seen), size_singleton in IH
        by (intros q ->%elem_of_singleton; done).
      replace (seen ∪ ({[p]} ∪ list_to_set O))
        with ({[p]} ∪ seen ∪ (list_to_set O : gset (Z * Z))); [lia|].
      apply set_eq. intros q. rewrite !elem_of_union. tauto.
    + specialize (IH seen).
      replace (seen ∪ ({[p]} ∪ list_to_set O))
        with (seen ∪ (list_to_set O : gset (Z * Z))); [lia|].
      apply set_eq. intros q. rewrite !elem_of_union, elem_of_singleton.
      split; [tauto|]. intros [?|[->|?]]; auto.
Qed.

Lemma collect_duplicates_elem seen O p :
  p ∈ collect_duplicates seen O -> p ∈ O.
Proof.
  revert seen. induction O as [|o O IH]; intros seen; simpl; [done|].
  case_bool_decide.
  - intros ?%IH. by right.
  - intros [->|?%IH]%elem_of_cons; [by left | by right].
Qed.

(** X8. When the output lists a net twice, [check_netlist_complete] fails
    with the duplicate-gates failure whatever the netlist is; the list it
    reports is not empty, holds nets of the output only, and has one entry
    for each row beyond the first of its net. *)
Theorem check_netlist_complete_duplicates (netlist_file output_data : list (Z * Z)) :
  ~ NoDup output_data ->
  exists duplicates,
    check_netlist_complete netlist_file output_data
    = Some (DuplicateGates duplicates)
    /\ duplicates <> []
    /\ (forall p, p ∈ duplicates -> p ∈ output_data)
    /\ (length duplicates + size (list_to_set output_data : gset (Z * Z))
        = length output_data)%nat.
Proof.
  intros Hdup. exists (collect_duplicates ∅ output_data).
  unfold check_netlist_complete.
  case_bool_decide as Hsize; [by apply size_list_to_set_NoDup in Hsize|].
  simpl. pose proof (collect_duplicates_length ∅ output_data) as Hlen.
  rewrite (left_id_L ∅ (∪)), size_empty in Hlen.
  split_and!; [done| |apply collect_duplicates_elem|lia].
  intros E. rewrite E in Hlen. simpl in Hlen. lia.
Qed.

Lemma check_netlist_complete_duplicates_witness :
  exists duplicates,
    check_netlist_complete [(1, 2); (3, 4)] [(1, 2); (4, 3); (1, 2)]
    = Some (DuplicateGates duplicates)
    /\ duplicates <> []
    /\ (forall p, p ∈ duplicates -> p ∈ [(1, 2); (4, 3); (1, 2)])
    /\ Nat.add (length duplicates)
                (size (list_to_set [(1, 2); (4, 3); (1, 2)] : gset (Z * Z)))
       = length [(1, 2); (4, 3); (1, 2)].
Proof.
  apply (check_netlist_complete_duplicates [(1, 2); (3, 4)]
           [(1, 2); (4, 3); (1, 2)]).
  intros Hnd. apply NoDup_cons in Hnd as [Hnot _]. apply Hnot.
  right. by left.
Defined.

(** The nets after the orientation loop are those of the output, when the
    output lists every net of the netlist once, in either orientation. *)
Lemma orient_complete N O2 :
  forall O1 cur,
    (forall p, p ∈ N -> swap_gates p ∈ N -> swap_gates p = p) ->
    NoDup (O1 ++ O2) ->
    (forall p, p ∈ O1 ++ O2 -> swap_gates p ∈ O1 ++ O2 -> swap_gates p = p) ->
    (forall p, p ∈ O1 ++ O2 -> p ∈ N \/ swap_gates p ∈ N) ->
    (forall q, q ∈ cur <->
       (q ∈ N /\ ~ (swap_gates q ∈ O1 /\ swap_gates q ∉ N))
       \/ (q ∈ O1 /\ q ∉ N)) ->
    forall q, q ∈ foldl orient_step cur O2 <->
      (q ∈ N /\ ~ (swap_gates q ∈ O1 ++ O2 /\ swap_gates q ∉ N))
      \/ (q ∈ O1 ++ O2 /\ q ∉ N).
Proof.
  induction O2 as [|p O2 IH]; intros O1 cur HN Hnd HO Hin Hcur q.
  { simpl. rewrite app_nil_r. apply Hcur. }
  simpl. rewrite (assoc_L (++) O1 [p] O2 : O1 ++ p :: O2 = _) in *.
  apply IH; try done. clear q IH. intros q.
  assert (p ∉ O1) as HpO1.
  { apply NoDup_app in Hnd as [Hnd _]. apply NoDup_app in Hnd as (_ & Hd & _).
    intros Hp. apply (Hd p Hp). by left. }
  assert (p ∈ (O1 ++ [p]) ++ O2) as HpO
    by (rewrite !elem_of_app, list_elem_of_singleton; auto).
  rewrite elem_of_orient_step, !elem_of_app, !list_elem_of_singleton.
  destruct (decide (p ∈ N)) as [HpN|HpN].
  - assert (p ∈ cur) as Hpc.
    { apply Hcur. left. split; [done|]. intros [Hs HsN].
      apply HsN. rewrite (HO p); [done..|].
      rewrite !elem_of_app. auto. }
    rewrite bool_decide_eq_false_2 by auto. simpl. rewrite Hcur. split.
    + intros [[Hq Hn]|[Hq Hn]]; [left|right; auto].
      split; [done|]. intros [[Hs|Hs] HsN]; [by apply Hn|].
      apply HsN. by rewrite Hs.
    + intros [[Hq Hn]|[[Hq|Hq] Hn]].
      * left. split; [done|]. intros [Hs HsN]. apply Hn. auto.
      * right. auto.
      * by subst q.
  - assert (swap_gates p ∈ N) as HsN by (by destruct (Hin p HpO)).
    assert (p ∉ cur) as Hpc.
    { rewrite Hcur. intros [[? _]|[? _]]; done. }
    assert (swap_gates p ∈ cur) as Hsc.
    { apply Hcur. left. split; [done|]. rewrite swap_gates_involutive.
      by intros [? _]. }
    rewrite bool_decide_eq_true_2, bool_decide_eq_true_2 by done. simpl.
    rewrite Hcur. split.
    + intros [->|[[[Hq Hn]|[Hq Hn]] Hne]]; [right; auto|left|right; auto].
      split; [done|]. intros [[Hs|Hs] HsN']; [by apply Hn|].
      apply Hne. by rewrite <- Hs, swap_gates_involutive.
    + intros [[Hq Hn]|[[Hq|Hq] Hn]]; [right|right|by left].
      * split.
        -- left. split; [done|]. intros [Hs HsN']. apply Hn. auto.
        -- intros ->. apply Hn. rewrite swap_gates_involutive. auto.
      * split; [right; auto|]. by intros ->.
Qed.

(** X9. The netlist check passes when the output lists no net twice, in no
    net together with its reverse, and its nets are those of the netlist,
    each in either orientation (the netlist itself holding no net together
    with its reverse). *)
Theorem check_netlist_complete_complete (netlist_file output_data : list (Z * Z)) :
  (forall p, p ∈ netlist_file -> swap_gates p ∈ netlist_file -> swap_gates p = p) ->
  NoDup output_data ->
  (forall p, p ∈ output_data -> swap_gates p ∈ output_data -> swap_gates p = p) ->
  (forall p, p ∈ output_data ->
     p ∈ netlist_file \/ swap_gates p ∈ netlist_file) ->
  (forall p, p ∈ netlist_file ->
     p ∈ output_data \/ swap_gates p ∈ output_data) ->
  check_netlist_complete netlist_file output_data = None.
Proof.
  intros HN Hnd HO Hin Hall. unfold check_netlist_complete.
  rewrite (bool_decide_eq_true_2 _ (proj2 (size_list_to_set_NoDup _) Hnd)).
  simpl.
  assert (foldl orient_step (list_to_set netlist_file) output_data
          = (list_to_set output_data : gset (Z * Z))) as ->.
  2: { by rewrite bool_decide_eq_true_2. }
  apply set_eq. intros q.
  rewrite (orient_complete (list_to_set netlist_file) output_data []
             (list_to_set netlist_file)); simpl.
  - rewrite !elem_of_list_to_set. split.
    + intros [[Hq Hn]|[Hq _]]; [|done].
      destruct (Hall q Hq) as [?|Hs]; [done|].
      destruct (decide (swap_gates q ∈ netlist_file)) as [HsN|HsN].
      * rewrite <- (HN q Hq HsN). done.
      * by destruct Hn.
    + intros Hq. destruct (decide (q ∈ netlist_file)) as [HqN|HqN];
        [left|by right].
      split; [done|]. intros [Hs HsN]. apply HsN.
      rewrite (HO q Hq Hs). done.
  - intros p. rewrite !elem_of_list_to_set. apply HN.
  - done.
  - done.
  - intros p Hp. rewrite !elem_of_list_to_set. auto.
  - intros p. split; [|by intros [[? _]|[[]%elem_of_nil _]]].
    intros Hp. left. split; [done|]. by intros [[]%elem_of_nil _].
Qed.

Lemma check_netlist_complete_complete_witness :
  check_netlist_complete [(1, 2); (3, 4)] [(4, 3); (1, 2)] = None.
Proof.
  apply (check_netlist_complete_complete [(1, 2); (3, 4)] [(4, 3); (1, 2)]).
  - intros p Hp Hs.
    repeat (apply elem_of_cons in Hp as [->|Hp]);
      [exfalso; revert Hs; apply (bool_decide_unpack _); by vm_compute..|].
    by apply elem_of_nil in Hp.
  - apply (bool_decide_unpack _). by vm_compute.
  - intros p Hp Hs.
    repeat (apply elem_of_cons in Hp as [->|Hp]);
      [exfalso; revert Hs; apply (bool_decide_unpack _); by vm_compute..|].
    by apply elem_of_nil in Hp.
  - intros p Hp.
    repeat (apply elem_of_cons in Hp as [->|Hp]);
      [apply (bool_decide_unpack _); by vm_compute..|].
    by apply elem_of_nil in Hp.
  - intros p Hp.
    repeat (apply elem_of_cons in Hp as [->|Hp]);
      [apply (bool_decide_unpack _); by vm_compute..|].
    by apply elem_of_nil in Hp.
Defined.

End NetlistFacts.

(** * Boards and moves, continued *)

Section BoardMoreFacts.

Import RushHour.

Lemma represents_wf_board sz layout self :
  represents sz layout self -> wf_board self.
Proof. intros (Hsz & Hwf & _). unfold wf_board. by rewrite Hsz. Qed.

Lemma place_Ok_free sz layout self v col row b' :
  represents sz layout self ->
  place self v col row = Ok b' ->
  forall loc, loc ∈ footprint v col row ->
    in_bounds sz loc /\ forall p, p ∈ layout -> ~ covers p loc.
Proof.
  intros Hrep Hplace loc Hloc.
  pose proof Hrep as (Hsz & Hwf & _ & Hin & Htiles).
  destruct (place_cases self v col row (represents_wf_board _ _ _ Hrep))
    as [[Hfree _]|(pre & l & post & _ & _ & [[_ Hr]|(_ & _ & Hr)])];
    [|rewrite Hr in Hplace; discriminate..].
  rewrite Forall_forall in Hfree. destruct (Hfree loc Hloc) as [Hb He].
  rewrite Hsz in Hb. split; [done|]. intros p Hp Hcov.
  assert (read (_board self) loc = Some (Some p.1)) as Hread.
  { apply Htiles; [done|]. by exists p. }
  unfold empty_at in He. rewrite He in Hread. discriminate.
Qed.

Lemma disjoint_layout_snoc (layout : list Placement) p :
  disjoint_layout layout ->
  (forall loc q, covers p loc -> q ∈ layout -> ~ covers q loc) ->
  disjoint_layout (layout ++ [p]).
Proof.
  intros Hdis Hfresh i j p1 p2 loc H1 H2 Hc1 Hc2.
  destruct (decide (i < List.length layout)%nat) as [Hi|Hi];
    destruct (decide (j < List.length layout)%nat) as [Hj|Hj].
  - rewrite lookup_app_l in H1, H2 by done. by eapply Hdis.
  - rewrite lookup_app_l in H1 by done. rewrite lookup_app_r in H2 by lia.
    apply list_lookup_singleton_Some in H2 as [_ <-].
    exfalso. eapply (Hfresh loc p1); [done| |done].
    by eapply list_elem_of_lookup_2.
  - rewrite lookup_app_l in H2 by done. rewrite lookup_app_r in H1 by lia.
    apply list_lookup_singleton_Some in H1 as [_ <-].
    exfalso. eapply (Hfresh loc p2); [done| |done].
    by eapply list_elem_of_lookup_2.
  - rewrite lookup_app_r in H1, H2 by lia.
    apply list_lookup_singleton_Some in H1 as [H1 _].
    apply list_lookup_singleton_Some in H2 as [H2 _]. lia.
Qed.

Lemma place_each_disjoint sz (layout : list Placement) :
  forall layout0 self b',
    represents sz layout0 self -> disjoint_layout layout0 ->
    for_each (fun board (p : Placement) => place board p.1 p.2.1 p.2.2)
             self layout = Ok b' ->
    disjoint_layout (layout0 ++ layout).
Proof.
  induction layout as [|[v [col row]] layout IH]; intros layout0 self b' Hrep Hdis.
  - intros _. by rewrite app_nil_r.
  - simpl. intros (b1 & Hplace & Hrest)%bind_Ok_inv.
    replace (layout0 ++ (v, (col, row)) :: layout)
      with ((layout0 ++ [(v, (col, row))]) ++ layout)
      by (by rewrite <- app_assoc).
    apply (IH _ b1 b'); [by eapply place_represents| |done].
    apply disjoint_layout_snoc; [done|].
    intros loc q Hcov Hq.
    by apply (place_Ok_free sz layout0 self v col row b1 Hrep Hplace loc Hcov).
Qed.

Lemma place_all_disjoint sz (layout : list Placement) b :
  place_all sz layout = Ok b -> disjoint_layout layout.
Proof.
  intros Hbuilt.
  apply (place_each_disjoint sz layout [] (Board_init sz) b).
  - apply represents_Board_init.
  - intros i j p q loc Hi. by rewrite lookup_nil in Hi.
  - exact Hbuilt.
Qed.

(** X10. Every board the checker works on, the loaded one and those that
    moves produce, shows a layout of vehicles: each vehicle lies within the
    walls, no two vehicles share a cell, and the tiles of the board are
    exactly the cells the vehicles cover. *)
Theorem reachable_board_layout (BOARD_SIZE : Z) (b : Board) :
  reachable BOARD_SIZE b ->
  exists layout,
    represents BOARD_SIZE layout b /\ disjoint_layout layout.
Proof.
  intros [layout Hbuilt]%reachable_place_all. exists layout. split.
  - by apply place_all_represents.
  - by apply (place_all_disjoint BOARD_SIZE layout b).
Qed.

Lemma reachable_board_layout_witness :
  exists layout, represents 6 layout example_board /\ disjoint_layout layout.
Proof.
  apply (reachable_board_layout 6 example_board).
  by apply (reachable_load 6 [mkEntry "A" "H" 2 1 1; mkEntry "B" "V" 3 4 1;
                              mkEntry "X" "H" 2 2 3]).
Defined.

Lemma footprint_nonempty v col row :
  1 <= length v -> (col, row) ∈ footprint v col row.
Proof.
  intros Hlen. apply elem_of_footprint. exists 0. split; [lia|].
  case_bool_decide; f_equal; lia.
Qed.

Lemma footprint_length v col row loc :
  loc ∈ footprint v col row -> 1 <= length v.
Proof. intros (i & Hi & _)%elem_of_footprint. lia. Qed.

Lemma place_free_Ok sz layout self v col row :
  represents sz layout self ->
  (forall loc, loc ∈ footprint v col row ->
     in_bounds sz loc /\ forall p, p ∈ layout -> ~ covers p loc) ->
  exists b', place self v col row = Ok b'.
Proof.
  intros Hrep Hfree.
  pose proof Hrep as (Hsz & Hwf & _ & Hin & Htiles).
  destruct (place_cases self v col row (represents_wf_board _ _ _ Hrep))
    as [[_ (bd' & Hplace & _)]|(pre & l & post & Hfoot & _ & Hbad)]; [by eexists|].
  exfalso.
  assert (l ∈ footprint v col row) as Hl.
  { rewrite Hfoot. apply elem_of_app. right. by left. }
  destruct (Hfree l Hl) as [Hb Hno]. rewrite Hsz in Hbad.
  destruct Hbad as [[Hout _]|(_ & [u Hu] & _)]; [done|].
  apply Htiles in Hu as (q & Hq & _ & Hcov); [|done].
  by apply (Hno q).
Qed.

Lemma load_each_Ok sz (file : list Entry) :
  forall layout0 b0,
    represents sz layout0 b0 ->
    NoDup (name <$> (layout0 ++ (placement_of_entry <$> file)).*1) ->
    (forall e, e ∈ file -> 1 <= entry_length e) ->
    (forall e loc, e ∈ file -> covers (placement_of_entry e) loc ->
       in_bounds sz loc) ->
    disjoint_layout (layout0 ++ (placement_of_entry <$> file)) ->
    exists b,
      for_each (fun board entry =>
                  let vehicle := mkVehicle (entry_car entry)
                                   (entry_orientation entry) (entry_length entry) in
                  let col := entry_col entry - 1 in
                  let row := entry_row entry - 1 in
                  do board <- place board vehicle col row;
                  do loc <- location_of board vehicle;
                  if bool_decide (loc = Some (col, row)) then Ok board
                  else Raise AssertionError)
               b0 file = Ok b
      /\ represents sz (layout0 ++ (placement_of_entry <$> file)) b.
Proof.
  induction file as [|e file IH]; intros layout0 b0 Hrep Hnd Hlen Hin Hdis.
  - exists b0. simpl. by rewrite app_nil_r.
  - set (pe := placement_of_entry e).
    assert (layout0 ++ (placement_of_entry <$> e :: file)
            = (layout0 ++ [pe]) ++ (placement_of_entry <$> file)) as Happ.
    { by rewrite <- app_assoc. }
    rewrite Happ in Hnd, Hdis. rewrite Happ.
    destruct (place_free_Ok sz layout0 b0 pe.1 pe.2.1 pe.2.2 Hrep) as [b1 Hplace].
    { intros loc Hloc. split; [apply (Hin e); [by left|done]|].
      intros q Hq Hcov.
      apply list_elem_of_lookup in Hq as [i Hi].
      assert (i = List.length layout0) as ->.
      { apply (Hdis i (List.length layout0) q pe loc); [| |done|done].
        - rewrite <- app_assoc. by apply lookup_app_l_Some.
        - rewrite lookup_app_l by (rewrite length_app; simpl; lia).
          by rewrite lookup_app_r, Nat.sub_diag. }
      apply lookup_lt_Some in Hi. lia. }
    pose proof (place_represents sz layout0 b0 pe.1 pe.2.1 pe.2.2 b1 Hrep Hplace)
      as Hrep1.
    assert (location_of b1 pe.1 = Ok (Some pe.2)) as Hloc.
    { apply (location_of_anchor sz (layout0 ++ [pe]) b1 pe.1 pe.2 pe.2).
      - by destruct pe as [? [? ?]].
      - rewrite fmap_app, fmap_app in Hnd. by apply NoDup_app in Hnd as [? _].
      - apply elem_of_app. right. destruct pe as [? [? ?]]. by left.
      - destruct pe.2 as [c r] eqn:E. simpl. apply footprint_nonempty.
        apply (Hlen e). by left. }
    destruct (IH (layout0 ++ [pe]) b1) as (b & Hb & Hrepb); try done.
    + intros e' He'. apply Hlen. by right.
    + intros e' loc He'. apply Hin. by right.
    + exists b. split; [|done]. simpl.
      change (mkVehicle (entry_car e) (entry_orientation e) (entry_length e))
        with pe.1.
      change (entry_col e - 1) with pe.2.1.
      change (entry_row e - 1) with pe.2.2.
      rewrite Hplace. cbn [bind]. rewrite Hloc. cbn [bind].
      rewrite bool_decide_eq_true_2; [exact Hb|]. by destruct pe.2.
Qed.

(** X11. [Board.load] accepts a board file whose vehicles have pairwise
    different names and a length of at least one, lie within the walls and
    share no cell; the board it returns shows exactly these vehicles at the
    zero-based positions of the file. *)
Theorem load_distinct_Ok (BOARD_SIZE : Z) (file : list Entry) :
  NoDup (entry_car <$> file) ->
  (forall e, e ∈ file -> 1 <= entry_length e) ->
  (forall e loc, e ∈ file -> covers (placement_of_entry e) loc ->
     in_bounds BOARD_SIZE loc) ->
  disjoint_layout (placement_of_entry <$> file) ->
  exists b,
    load BOARD_SIZE file = Ok b
    /\ represents BOARD_SIZE (placement_of_entry <$> file) b.
Proof.
  intros Hnd Hlen Hin Hdis.
  apply (load_each_Ok BOARD_SIZE file [] (Board_init BOARD_SIZE)); try done.
  - apply represents_Board_init.
  - simpl. rewrite <- !list_fmap_compose.
    by replace (name ∘ fst ∘ placement_of_entry) with entry_car.
Qed.

Lemma load_distinct_Ok_witness :
  exists b,
    load 6 [mkEntry "A" "H" 2 1 1; mkEntry "X" "H" 2 2 3] = Ok b
    /\ represents 6 (placement_of_entry
                      <$> [mkEntry "A" "H" 2 1 1; mkEntry "X" "H" 2 2 3]) b.
Proof.
  assert (forall e loc,
            e ∈ [mkEntry "A" "H" 2 1 1; mkEntry "X" "H" 2 2 3] ->
            covers (placement_of_entry e) loc ->
            loc ∈ [(0, 0); (1, 0)] /\ e = mkEntry "A" "H" 2 1 1
            \/ loc ∈ [(1, 2); (2, 2)] /\ e = mkEntry "X" "H" 2 2 3) as Hcells.
  { intros e loc He Hc.
    apply elem_of_cons in He as [->|He]; [by left|].
    apply elem_of_cons in He as [->|He]; [by right|].
    by apply elem_of_nil in He. }
  apply (load_distinct_Ok 6 [mkEntry "A" "H" 2 1 1; mkEntry "X" "H" 2 2 3]).
  - apply (bool_decide_unpack _). by vm_compute.
  - intros e He.
    apply elem_of_cons in He as [->|He]; [simpl; lia|].
    apply elem_of_cons in He as [->|He]; [simpl; lia|].
    by apply elem_of_nil in He.
  - intros e loc He Hc.
    destruct (Hcells e loc He Hc) as [[Hl _]|[Hl _]];
      (apply elem_of_cons in Hl as [->|Hl]; [by vm_compute|]);
      (apply elem_of_cons in Hl as [->|Hl]; [by vm_compute|]);
      by apply elem_of_nil in Hl.
  - intros i j p q loc Hi Hj Hp Hq.
    assert (forall k r, (placement_of_entry
                           <$> [mkEntry "A" "H" 2 1 1; mkEntry "X" "H" 2 2 3])
                        !! k = Some r ->
              exists e, e ∈ [mkEntry "A" "H" 2 1 1; mkEntry "X" "H" 2 2 3]
                /\ r = placement_of_entry e
                /\ (e = mkEntry "A" "H" 2 1 1 -> k = 0%nat)
                /\ (e = mkEntry "X" "H" 2 2 3 -> k = 1%nat)) as Hk.
    { intros [|[|k]] r Hr; simpl in Hr; [| |done].
      - injection Hr as <-. eexists. split; [by left|]. by split_and!.
      - injection Hr as <-. eexists. split; [right; by left|]. by split_and!. }
    destruct (Hk i p Hi) as (ei & Hei & -> & Hi1 & Hi2).
    destruct (Hk j q Hj) as (ej & Hej & -> & Hj1 & Hj2).
    destruct (Hcells ei loc Hei Hp) as [[Hl1 E1]|[Hl1 E1]];
      destruct (Hcells ej loc Hej Hq) as [[Hl2 E2]|[Hl2 E2]].
    + by rewrite Hi1, Hj1.
    + exfalso. revert Hl2. 
      apply elem_of_cons in Hl1 as [->|Hl1]; [apply (bool_decide_unpack _); by vm_compute|].
      apply elem_of_cons in Hl1 as [->|Hl1]; [apply (bool_decide_unpack _); by vm_compute|].
      by apply elem_of_nil in Hl1.
    + exfalso. revert Hl2. 
      apply elem_of_cons in Hl1 as [->|Hl1]; [apply (bool_decide_unpack _); by vm_compute|].
      apply elem_of_cons in Hl1 as [->|Hl1]; [apply (bool_decide_unpack _); by vm_compute|].
      by apply elem_of_nil in Hl1.
    + by rewrite Hi2, Hj2.
Defined.

Lemma location_of_Some_layout sz layout self u pos :
  represents sz layout self ->
  NoDup (name <$> layout.*1) ->
  u ∈ layout.*1 ->
  location_of self u = Ok (Some pos) ->
  (u, pos) ∈ layout /\ 1 <= length u.
Proof.
  intros Hrep Hnd Hu Hloc.
  apply list_elem_of_fmap in Hu as ([u' pos0] & -> & Hu). simpl in *.
  pose proof (location_of_unique sz layout self u' pos0 pos Hrep Hnd Hu Hloc) as ->.
  split; [done|].
  pose proof Hrep as (Hsz & Hwf & _ & Hin & Htiles).
  unfold location_of in Hloc. rewrite Hsz in Hloc.
  apply (location_scan_Some sz) in Hloc as (Hb & w & Hread & Hname); [|done|].
  - apply Htiles in Hread as (p & Hp & Hp1 & Hcov); [|done].
    assert (p = (u', pos0)) as ->.
    { apply (placement_by_name layout); try done. simpl. congruence. }
    by eapply footprint_length.
  - intros l. by rewrite elem_of_scan_order.
Qed.

Lemma location_of_placed sz layout self u pos :
  represents sz layout self ->
  NoDup (name <$> layout.*1) ->
  (u, pos) ∈ layout -> 1 <= length u ->
  location_of self u = Ok (Some pos).
Proof.
  intros Hrep Hnd Hu Hlen.
  apply (location_of_anchor sz layout self u pos pos); try done.
  destruct pos as [col row]. by apply footprint_nonempty.
Qed.

(** X12. On a board of the checker whose vehicles have pairwise different
    names, a successful move of a vehicle by [n] leaves it [n] cells further
    along its orientation (rows for ["V"], columns otherwise), leaves every
    other vehicle where it was, and keeps the vehicles of the board. *)
Theorem move_locations (BOARD_SIZE : Z) (b b' : Board) (v : Vehicle) (n : Z) :
  reachable BOARD_SIZE b ->
  NoDup (name <$> vehicles b) ->
  v ∈ vehicles b ->
  move b v n = Ok b' ->
  (forall pos, location_of b v = Ok (Some pos) ->
     location_of b' v = Ok (Some (shift v pos n)))
  /\ (forall u pos, u ∈ vehicles b -> name u <> name v ->
        location_of b u = Ok (Some pos) -> location_of b' u = Ok (Some pos))
  /\ (forall u, u ∈ vehicles b' <-> u ∈ vehicles b).
Proof.
  intros [layout Hbuilt]%reachable_place_all Hnd Hv Hmove.
  apply place_all_represents in Hbuilt as Hrep.
  pose proof Hrep as (Hsz & _ & Hveh & _).
  rewrite Hveh in Hnd, Hv.
  pose proof Hv as Hv'.
  apply list_elem_of_fmap in Hv' as ([v' pos0] & -> & Hv'). simpl in *.
  pose proof (moved_refl layout v' pos0 Hnd Hv') as Hmoved0.
  destruct (move_represents BOARD_SIZE layout b v') with
    (layout := layout) (k := 0) (n := n) (b' := b')
    as (layout1 & Hrep1 & Hnd1 & Hmoved1); try done.
  { by rewrite Hveh. }
  { intros u. by rewrite Hveh. }
  { eauto. }
  pose proof Hrep1 as (_ & _ & Hveh1 & _).
  split_and!.
  - intros pos Hloc.
    destruct (location_of_Some_layout BOARD_SIZE layout b v' pos Hrep Hnd Hv Hloc)
      as [Hpos Hlen].
    apply (location_of_placed BOARD_SIZE layout1); try done.
    apply Hmoved1. right. exists pos. by rewrite Z.add_0_l.
  - intros u pos Hu Hname Hloc. rewrite Hveh in Hu.
    destruct (location_of_Some_layout BOARD_SIZE layout b u pos Hrep Hnd Hu Hloc)
      as [Hpos Hlen].
    apply (location_of_placed BOARD_SIZE layout1); try done.
    apply Hmoved1. by left.
  - intros u. rewrite Hveh1, Hveh. by eapply moved_vehicles.
Qed.

Lemma move_locations_witness :
  (forall pos, location_of example_board (mkVehicle "A" "H" 2) = Ok (Some pos) ->
     location_of example_board_there (mkVehicle "A" "H" 2)
     = Ok (Some (shift (mkVehicle "A" "H" 2) pos 1)))
  /\ (forall u pos, u ∈ vehicles example_board ->
        name u <> name (mkVehicle "A" "H" 2) ->
        location_of example_board u = Ok (Some pos) ->
        location_of example_board_there u = Ok (Some pos))
  /\ (forall u, u ∈ vehicles example_board_there <-> u ∈ vehicles example_board).
Proof.
  apply (move_locations 6 example_board example_board_there
           (mkVehicle "A" "H" 2) 1); try reflexivity.
  - by apply (reachable_load 6 [mkEntry "A" "H" 2 1 1; mkEntry "B" "V" 3 4 1;
                                mkEntry "X" "H" 2 2 3]).
  - apply (bool_decide_unpack _). by vm_compute.
  - apply (bool_decide_unpack _). by vm_compute.
Defined.

Lemma place_vehicles self v col row b' :
  place self v col row = Ok b' ->
  vehicles b' = vehicles self ++ [v] /\ size b' = size self.
Proof. intros (bd' & _ & ->)%place_Ok_inv. done. Qed.

Lemma place_located_vehicles cur (others : list Vehicle) :
  forall nb0 nb,
    for_each (fun new_board other_vehicle =>
                do loc <- location_of cur other_vehicle;
                do cr <- unpack loc;
                place new_board other_vehicle cr.1 cr.2)
             nb0 others = Ok nb ->
    vehicles nb = vehicles nb0 ++ others /\ size nb = size nb0.
Proof.
  induction others as [|o others IH]; intros nb0 nb; simpl.
  - intros [= <-]. by rewrite app_nil_r.
  - intros (nb1 & Hstep & Hrest)%bind_Ok_inv.
    apply bind_Ok_inv in Hstep as (loc & _ & Hstep).
    apply bind_Ok_inv in Hstep as (cr & _ & Hstep).
    apply place_vehicles in Hstep as [Hv1 Hs1].
    apply IH in Hrest as [-> ->]. rewrite Hv1, Hs1.
    by rewrite <- app_assoc.
Qed.

Lemma others_filter (l : list Vehicle) v :
  filter (fun u => negb (Vehicle_eq u v) = true)
         (filter (fun u => negb (Vehicle_eq u v) = true) l ++ [v])
  = filter (fun u => negb (Vehicle_eq u v) = true) l.
Proof.
  rewrite filter_app, list_filter_filter.
  rewrite filter_cons_False, filter_nil, app_nil_r.
  - apply list_filter_iff. tauto.
  - unfold Vehicle_eq. by rewrite bool_decide_eq_true_2.
Qed.

Lemma move_step_others self v cur d b' :
  move_step self v cur d = Ok b' ->
  filter (fun u => negb (Vehicle_eq u v) = true) (vehicles b')
  = filter (fun u => negb (Vehicle_eq u v) = true) (vehicles self).
Proof.
  unfold move_step.
  intros (nb & Hothers & Hrest)%bind_Ok_inv.
  apply bind_Ok_inv in Hrest as (loc & _ & Hrest).
  apply bind_Ok_inv in Hrest as (cr & _ & Hrest).
  destruct (if bool_decide (orientation v = "V"%string)
            then (cr.1, cr.2 + d) else (cr.1 + d, cr.2)) as [col row].
  apply place_vehicles in Hrest as [-> _].
  apply place_located_vehicles in Hothers as [-> _]. simpl.
  apply others_filter.
Qed.

Lemma move_step_self self self' v cur d :
  filter (fun u => negb (Vehicle_eq u v) = true) (vehicles self')
  = filter (fun u => negb (Vehicle_eq u v) = true) (vehicles self) ->
  move_step self' v cur d = move_step self v cur d.
Proof. intros Heq. unfold move_step. by rewrite Heq. Qed.

Lemma move_loop_self self self' v (moves : list Z) :
  filter (fun u => negb (Vehicle_eq u v) = true) (vehicles self')
  = filter (fun u => negb (Vehicle_eq u v) = true) (vehicles self) ->
  forall cur,
    for_each (move_step self' v) cur moves = for_each (move_step self v) cur moves.
Proof.
  intros Heq. induction moves as [|d moves IH]; intros cur; simpl; [done|].
  rewrite (move_step_self self self' v cur d Heq).
  destruct (move_step self v cur d); simpl; [apply IH|done].
Qed.

Lemma move_loop_others self v (moves : list Z) :
  forall cur b',
    filter (fun u => negb (Vehicle_eq u v) = true) (vehicles cur)
    = filter (fun u => negb (Vehicle_eq u v) = true) (vehicles self) ->
    for_each (move_step self v) cur moves = Ok b' ->
    filter (fun u => negb (Vehicle_eq u v) = true) (vehicles b')
    = filter (fun u => negb (Vehicle_eq u v) = true) (vehicles self).
Proof.
  induction moves as [|d moves IH]; intros cur b' Hcur; simpl.
  - by intros [= <-].
  - intros (b1 & Hstep & Hrest)%bind_Ok_inv.
    apply (IH b1 b'); [|done]. by eapply move_step_others.
Qed.

Lemma move_loop_compose self v d (m n : nat) :
  for_each (move_step self v) self (replicate (m + n) d)
  = (do b1 <- for_each (move_step self v) self (replicate m d);
     for_each (move_step b1 v) b1 (replicate n d)).
Proof.
  rewrite replicate_add, for_each_app.
  destruct (for_each (move_step self v) self (replicate m d)) as [b1|e] eqn:E;
    simpl; [|done].
  symmetry. apply move_loop_self.
  by apply (move_loop_others self v (replicate m d) self b1).
Qed.

(** X13. Two moves of a vehicle in the same direction compose: moving by
    [m + n] gives the result, board or exception, of moving by [m] and then
    moving the board obtained by [n]. *)
Theorem move_compose (b : Board) (v : Vehicle) (m n : Z) :
  (0 <= m /\ 0 <= n) \/ (m <= 0 /\ n <= 0) ->
  move b v (m + n) = (do b1 <- move b v m; move b1 v n).
Proof.
  intros Hdir. unfold move.
  destruct (Z.leb_spec 0 m) as [Hm|Hm]; destruct (Z.leb_spec 0 n) as [Hn|Hn].
  - rewrite (proj2 (Z.leb_le 0 (m + n))) by lia.
    rewrite Z2Nat.inj_add by lia. apply move_loop_compose.
  - assert (m = 0) as -> by lia. rewrite Z.add_0_l.
    by rewrite (proj2 (Z.leb_gt 0 n)) by lia.
  - assert (n = 0) as -> by lia. rewrite Z.add_0_r.
    rewrite (proj2 (Z.leb_gt 0 m)) by lia. simpl.
    by destruct (for_each _ _ _).
  - rewrite (proj2 (Z.leb_gt 0 (m + n))) by lia.
    replace (Z.to_nat (Z.abs (m + n)))
      with (Z.to_nat (Z.abs m) + Z.to_nat (Z.abs n))%nat by lia.
    apply move_loop_compose.
Qed.

Lemma move_compose_witness :
  move example_board (mkVehicle "B" "V" 3) (1 + 2)
  = (do b1 <- move example_board (mkVehicle "B" "V" 3) 1;
     move b1 (mkVehicle "B" "V" 3) 2).
Proof.
  apply (move_compose example_board (mkVehicle "B" "V" 3) 1 2). left. lia.
Defined.

Lemma goal_cell_in_bounds sz : 1 <= sz -> in_bounds sz (goal_cell sz).
Proof.
  intros Hsz. unfold in_bounds, goal_cell. simpl.
  pose proof (Z.div_pos (sz - 1) 2). 
  pose proof (Z.div_le_upper_bound (sz - 1) 2 (sz - 1)). lia.
Qed.

Lemma is_solved_represents sz layout b :
  represents sz layout b -> 1 <= sz ->
  exists solved,
    is_solved b = Ok solved
    /\ (solved = true
        <-> exists p, p ∈ layout /\ name p.1 = "X"%string
              /\ covers p (goal_cell sz)).
Proof.
  intros (Hsize & Hwf & _ & _ & Htiles) Hsz.
  pose proof (goal_cell_in_bounds sz Hsz) as Hgoal.
  destruct (wf_tiles_read sz (_board b) (goal_cell sz) Hwf Hgoal)
    as (column & t & Hcol & _ & Ht & Hread).
  destruct Hgoal as [Hg1 Hg2].
  assert (is_solved b
          = Ok match t with
               | None => false
               | Some u => bool_decide (name u = "X"%string)
               end) as ->.
  { unfold is_solved. rewrite Hsize.
    rewrite (getitem_nonneg _ _ column) by (done || apply Hg1). simpl.
    rewrite (getitem_nonneg _ _ t) by (done || apply Hg2). simpl.
    by destruct t. }
  eexists. split; [done|]. split.
  - destruct t as [u|]; [|done]. intros Hx%bool_decide_eq_true.
    destruct (proj1 (Htiles (goal_cell sz) u (conj Hg1 Hg2)) Hread)
      as (p & Hp & <- & Hcov).
    by exists p.
  - intros (p & Hp & Hx & Hcov).
    assert (read (_board b) (goal_cell sz) = Some (Some p.1)) as Hr.
    { apply Htiles; [done|]. by exists p. }
    rewrite Hread in Hr. injection Hr as ->. by apply bool_decide_eq_true.
Qed.

(** X14. On a board of the checker of size at least one, [is_solved] raises
    nothing, and it answers [True] exactly when a vehicle named ["X"] covers
    the last cell of row [(size - 1) // 2], whatever layout the board
    shows. *)
Theorem is_solved_goal_cell (BOARD_SIZE : Z) (b : Board) :
  reachable BOARD_SIZE b ->
  1 <= BOARD_SIZE ->
  exists solved,
    is_solved b = Ok solved
    /\ forall layout,
         represents BOARD_SIZE layout b ->
         (solved = true
          <-> exists p, p ∈ layout /\ name p.1 = "X"%string
                /\ covers p (goal_cell BOARD_SIZE)).
Proof.
  intros [layout0 Hbuilt]%reachable_place_all Hsz.
  apply place_all_represents in Hbuilt as Hrep0.
  destruct (is_solved_represents BOARD_SIZE layout0 b Hrep0 Hsz)
    as (solved & Hsolved & _).
  exists solved. split; [done|]. intros layout Hrep.
  destruct (is_solved_represents BOARD_SIZE layout b Hrep Hsz)
    as (solved' & Hsolved' & Hiff).
  rewrite Hsolved in Hsolved'. by injection Hsolved' as <-.
Qed.

Lemma is_solved_goal_cell_witness :
  exists solved,
    is_solved example_board = Ok solved
    /\ forall layout,
         represents 6 layout example_board ->
         (solved = true
          <-> exists p, p ∈ layout /\ name p.1 = "X"%string
                /\ covers p (goal_cell 6)).
Proof.
  apply (is_solved_goal_cell 6 example_board); [|lia].
  by apply (reachable_load 6 [mkEntry "A" "H" 2 1 1; mkEntry "B" "V" 3 4 1;
                              mkEntry "X" "H" 2 2 3]).
Defined.

Lemma move_loop_prefix self v d (k m : nat) b' :
  (k <= m)%nat ->
  for_each (move_step self v) self (replicate m d) = Ok b' ->
  exists bk, for_each (move_step self v) self (replicate k d) = Ok bk.
Proof.
  intros Hk. replace m with (k + (m - k))%nat by lia.
  rewrite replicate_add, for_each_app.
  intros (bk & Hbk & _)%bind_Ok_inv. by exists bk.
Qed.

Lemma move_prefix self v n k b' :
  0 <= k <= n \/ n <= k <= 0 ->
  move self v n = Ok b' ->
  exists bk, move self v k = Ok bk.
Proof.
  intros Hk. unfold move.
  destruct (Z.leb_spec 0 n) as [Hn|Hn]; destruct (Z.leb_spec 0 k) as [Hk'|Hk'].
  - apply move_loop_prefix. lia.
  - lia.
  - assert (k = 0) as -> by lia. intros _. by eexists.
  - apply move_loop_prefix. lia.
Qed.

Lemma move_path_layout sz layout b b' v pos n :
  represents sz layout b ->
  NoDup (name <$> layout.*1) ->
  (v, pos) ∈ layout ->
  move b v n = Ok b' ->
  forall k, between k n -> free_for sz layout v (shift v pos k).
Proof.
  intros Hrep Hnd Hpos Hmove k Hk loc Hcov.
  pose proof Hrep as (Hsz & Hwf & Hveh & Hin & Htiles).
  pose proof (moved_refl layout v pos Hnd Hpos) as Hmoved0.
  destruct (move_prefix b v n k b' Hk Hmove) as [bk Hbk].
  destruct (move_represents sz layout b v) with
    (layout := layout) (k := 0) (n := k) (b' := bk)
    as (layoutk & Hrepk & Hndk & Hmovedk); try done.
  { by rewrite Hveh. }
  { intros u. by rewrite Hveh. }
  { eauto. }
  rewrite Z.add_0_l in Hmovedk.
  pose proof Hrepk as (_ & _ & _ & Hink & Htilesk).
  assert ((v, shift v pos k) ∈ layoutk) as Hvk.
  { apply Hmovedk. right. by exists pos. }
  assert (in_bounds sz loc) as Hb by (by apply (Hink (v, shift v pos k))).
  split; [done|]. intros q Hq Hname Hcovq.
  assert (q ∈ layoutk) as Hqk by (apply Hmovedk; by left).
  assert (read (_board bk) loc = Some (Some q.1)) as H1.
  { apply Htilesk; [done|]. by exists q. }
  assert (read (_board bk) loc = Some (Some v)) as H2.
  { apply Htilesk; [done|]. by exists (v, shift v pos k). }
  congruence.
Qed.

(** X15. A successful move jumps over nothing: on a board of the checker
    whose vehicles have pairwise different names, every cell that the moved
    vehicle covers at any position between its old and its new one lies
    within the walls and is, on the board before the move, empty or held by
    that vehicle itself. *)
Theorem move_path_clear (BOARD_SIZE : Z) (b b' : Board) (v : Vehicle)
    (pos : Z * Z) (n : Z) :
  reachable BOARD_SIZE b ->
  NoDup (name <$> vehicles b) ->
  v ∈ vehicles b ->
  location_of b v = Ok (Some pos) ->
  move b v n = Ok b' ->
  forall k loc,
    0 <= k <= n \/ n <= k <= 0 ->
    loc ∈ footprint v (shift v pos k).1 (shift v pos k).2 ->
    in_bounds BOARD_SIZE loc
    /\ (empty_at b loc \/ read (_board b) loc = Some (Some v)).
Proof.
  intros [layout Hbuilt]%reachable_place_all Hnd Hv Hloc Hmove k loc Hk Hcov.
  apply place_all_represents in Hbuilt as Hrep.
  pose proof Hrep as (Hsz & Hwf & Hveh & Hin & Htiles).
  rewrite Hveh in Hnd, Hv.
  destruct (location_of_Some_layout BOARD_SIZE layout b v pos Hrep Hnd Hv Hloc)
    as [Hpos Hlen].
  destruct (move_path_layout BOARD_SIZE layout b b' v pos n Hrep Hnd Hpos Hmove
              k Hk loc Hcov) as [Hb Hfree].
  split; [done|].
  destruct (wf_tiles_read BOARD_SIZE (_board b) loc Hwf Hb)
    as (column & t & _ & _ & _ & Hread).
  destruct t as [u|]; [|by left]. right.
  rewrite Hread. do 2 f_equal.
  pose proof (proj1 (Htiles loc u Hb) Hread) as (p & Hp & <- & Hcovp).
  destruct (decide (name p.1 = name v)) as [Hname|Hname].
  - by rewrite (placement_by_name layout p (v, pos) Hnd Hp Hpos Hname).
  - by destruct (Hfree p Hp Hname).
Qed.

Lemma move_path_clear_witness :
  in_bounds 6 (2, 0)
  /\ (empty_at example_board (2, 0)
      \/ read (_board example_board) (2, 0) = Some (Some (mkVehicle "A" "H" 2))).
Proof.
  apply (move_path_clear 6 example_board example_board_there
           (mkVehicle "A" "H" 2) (0, 0) 1) with (k := 1).
  - by apply (reachable_load 6 [mkEntry "A" "H" 2 1 1; mkEntry "B" "V" 3 4 1;
                                mkEntry "X" "H" 2 2 3]).
  - apply (bool_decide_unpack _). by vm_compute.
  - apply (bool_decide_unpack _). by vm_compute.
  - reflexivity.
  - reflexivity.
  - left. lia.
  - apply (bool_decide_unpack _). by vm_compute.
Defined.

Lemma getitem_nil {A} (i : Z) : getitem (@nil A) i = Raise IndexError.
Proof. unfold getitem, locate. by destruct (py_index _ _). Qed.

Lemma is_solved_Ok_size sz layout b solved :
  represents sz layout b -> is_solved b = Ok solved -> 1 <= sz.
Proof.
  intros (Hsize & [Hlen _] & _) Hsolved.
  destruct (Z.le_gt_cases 1 sz) as [|Hsz]; [done|]. exfalso.
  destruct (_board b) as [|column board] eqn:E; [|simpl in Hlen; lia].
  unfold is_solved in Hsolved. rewrite E, getitem_nil in Hsolved.
  discriminate.
Qed.

Lemma check_moves_loop sz (vehicles0 : list Vehicle) (output_file : list MoveEntry) :
  forall layout b b',
    represents sz layout b ->
    NoDup (name <$> layout.*1) ->
    (forall u, u ∈ vehicles0 -> u ∈ layout.*1) ->
    for_each (fun board entry =>
                do vehicle <-
                  getitem (filter (fun vehicle => name vehicle = move_car entry)
                                  vehicles0) 0;
                match move board vehicle (move_steps entry) with
                | Ok board => Ok board
                | Raise Collision => Raise Failure
                | Raise WallHit => Raise Failure
                | Raise e => Raise e
                end)
             b output_file = Ok b' ->
    exists final, plays sz layout output_file final /\ represents sz final b'.
Proof.
  induction output_file as [|entry rest IH]; intros layout b b' Hrep Hnd Hveh0.
  - simpl. intros [= <-]. exists layout. split; [constructor|done].
  - simpl. intros (b1 & Hstep & Hrest)%bind_Ok_inv.
    apply bind_Ok_inv in Hstep as (v & Hget & Hmove).
    apply getitem_0_Ok in Hget.
    assert (v ∈ filter (fun vehicle => name vehicle = move_car entry) vehicles0)
      as Hv.
    { destruct (filter _ vehicles0) as [|v' l]; [done|].
      injection Hget as ->. by left. }
    apply list_elem_of_filter in Hv as [Hname Hv]. apply Hveh0 in Hv.
    assert (move b v (move_steps entry) = Ok b1) as Hmove'.
    { destruct (move b v (move_steps entry)) as [b2|e]; [done|].
      destruct e; discriminate. }
    clear Hmove.
    pose proof Hrep as (_ & _ & Hveh & _).
    pose proof Hv as Hv'.
    apply list_elem_of_fmap in Hv' as ([v' pos] & -> & Hpos). simpl in *.
    pose proof (moved_refl layout v' pos Hnd Hpos) as Hmoved0.
    destruct (move_represents sz layout b v') with
      (layout := layout) (k := 0) (n := move_steps entry) (b' := b1)
      as (layout1 & Hrep1 & Hnd1 & Hmoved1); try done.
    { by rewrite Hveh. }
    { intros u. by rewrite Hveh. }
    { eauto. }
    rewrite Z.add_0_l in Hmoved1.
    destruct (IH layout1 b1 b' Hrep1 Hnd1) as (final & Hplays & Hfinal);
      [|done|].
    { intros u Hu. apply (moved_vehicles layout layout1 v' pos (move_steps entry));
        auto. }
    exists final. split; [|done].
    apply (plays_move sz layout entry v' pos layout1 rest final); try done.
    by apply (move_path_layout sz layout b b1).
Qed.

(** X16. When [check_moves] passes on a board file whose vehicles have
    pairwise different names, the output is a solution of the puzzle: the
    vehicles of the board file lie within the walls and share no cell, each
    record of the output slides a vehicle of the board along its orientation
    over free cells only, and in the end a vehicle named ["X"] covers the
    last cell of row [(size - 1) // 2]. *)
Theorem check_moves_sound (BOARD_SIZE : Z) (board_file : list Entry)
    (output_file : list MoveEntry) :
  NoDup (entry_car <$> board_file) ->
  check_moves BOARD_SIZE board_file output_file = Ok tt ->
  (forall p loc, p ∈ placement_of_entry <$> board_file -> covers p loc ->
     in_bounds BOARD_SIZE loc)
  /\ disjoint_layout (placement_of_entry <$> board_file)
  /\ exists final,
       plays BOARD_SIZE (placement_of_entry <$> board_file) output_file final
       /\ exists p, p ∈ final /\ name p.1 = "X"%string
            /\ covers p (goal_cell BOARD_SIZE).
Proof.
  intros Hnd. unfold check_moves.
  intros (b0 & Hload & Hrest)%bind_Ok_inv.
  apply bind_Ok_inv in Hrest as (b' & Hloop & Hrest).
  apply bind_Ok_inv in Hrest as (solved & Hsolved & Hrest).
  destruct solved; [|discriminate]. clear Hrest.
  apply load_place_all in Hload.
  apply place_all_represents in Hload as Hrep0.
  pose proof Hrep0 as (_ & _ & Hveh & Hin & _).
  split; [exact Hin|]. split.
  - by apply (place_all_disjoint BOARD_SIZE _ b0).
  - destruct (check_moves_loop BOARD_SIZE (vehicles b0) output_file
                (placement_of_entry <$> board_file) b0 b' Hrep0)
      as (final & Hplays & Hfinal); [|by intros u; rewrite Hveh|done|].
    { rewrite <- !list_fmap_compose.
      by replace (name ∘ fst ∘ placement_of_entry) with entry_car. }
    exists final. split; [done|].
    pose proof (is_solved_Ok_size BOARD_SIZE final b' true Hfinal Hsolved) as Hsz.
    destruct (is_solved_represents BOARD_SIZE final b' Hfinal Hsz)
      as (solved & Hsolved' & Hiff).
    rewrite Hsolved in Hsolved'. injection Hsolved' as <-. by apply Hiff.
Qed.

Lemma check_moves_sound_witness :
  (forall p loc,
     p ∈ placement_of_entry
         <$> [mkEntry "A" "V" 2 6 2; mkEntry "X" "H" 2 3 3] ->
     covers p loc -> in_bounds 6 loc)
  /\ disjoint_layout (placement_of_entry
                        <$> [mkEntry "A" "V" 2 6 2; mkEntry "X" "H" 2 3 3])
  /\ exists final,
       plays 6 (placement_of_entry
                  <$> [mkEntry "A" "V" 2 6 2; mkEntry "X" "H" 2 3 3])
             [mkMoveEntry "A" 2; mkMoveEntry "X" 2] final
       /\ exists p, p ∈ final /\ name p.1 = "X"%string
            /\ covers p (goal_cell 6).
Proof.
  apply (check_moves_sound 6 [mkEntry "A" "V" 2 6 2; mkEntry "X" "H" 2 3 3]
           [mkMoveEntry "A" 2; mkMoveEntry "X" 2]).
  - apply (bool_decide_unpack _). by vm_compute.
  - reflexivity.
Defined.

End BoardMoreFacts.

(** * The schedule checks, continued *)

Section LectureMoreFacts.

Import Lectures.

Section Frames.

Context {R K : Type} `{Countable K} (key : R -> K).



End Frames.





Lemma sum_over_ext {A} (g h : A -> Z) (l : list A) :
  (forall a, a ∈ l -> g a = h a) -> Chips.sum_over g l = Chips.sum_over h l.
Proof.
  induction l as [|a l IH]; intros Hgh; simpl; [done|].
  rewrite (Hgh a) by (by left). rewrite IH; [done|].
  intros a' Ha'. apply Hgh. by right.
Qed.

Lemma sum_over_nonneg {A} (g : A -> Z) (l : list A) :
  (forall a, a ∈ l -> 0 <= g a) ->
  0 <= Chips.sum_over g l
  /\ (Chips.sum_over g l = 0 <-> forall a, a ∈ l -> g a = 0).
Proof.
  induction l as [|a l IH]; intros Hg; simpl.
  - split; [lia|]. split; [by intros _ a ?%elem_of_nil|done].
  - destruct IH as [IH0 IHz]; [intros a' Ha'; apply Hg; by right|].
    pose proof (Hg a ltac:(by left)).
    split; [lia|]. split.
    + intros Hsum a' [->|Ha']%elem_of_cons; [lia|]. apply IHz; [lia|done].
    + intros Hall. rewrite (Hall a) by (by left).
      rewrite (proj2 IHz); [done|]. intros a' Ha'. apply Hall. by right.
Qed.


Lemma int64_small (z : Z) : - 2 ^ 63 <= z < 2 ^ 63 -> int64 z = z.
Proof. intros Hz. unfold int64. rewrite Z.mod_small; lia. Qed.

Lemma for_each_add_bounded {A} (g : A -> Z) (f : Z -> A -> result Z) (M : Z)
    (l : list A) :
  (forall a, a ∈ l -> 0 <= g a <= M) ->
  (forall acc a, a ∈ l -> 0 <= acc -> acc + M < 2 ^ 63 ->
     f acc a = Ok (acc + g a)) ->
  forall acc,
    0 <= acc -> acc + Z.of_nat (length l) * M < 2 ^ 63 ->
    for_each f acc l = Ok (acc + Chips.sum_over g l).
Proof.
  induction l as [|a l IH]; intros Hg Hf acc Hacc Hbound; simpl.
  - f_equal. lia.
  - pose proof (Hg a ltac:(by left)) as Ha.
    cbn [length] in Hbound. rewrite Nat2Z.inj_succ, Z.mul_succ_l in Hbound.
    assert (0 <= Z.of_nat (length l) * M) by (apply Z.mul_nonneg_nonneg; lia).
    rewrite (Hf acc a) by (by left || lia). simpl. rewrite IH.
    + f_equal. lia.
    + intros a' Ha'. apply Hg. by right.
    + intros acc' a' Ha'. apply Hf. by right.
    + lia.
    + lia.
Qed.

Lemma sum_over_bound {A} (g : A -> Z) (M : Z) (l : list A) :
  (forall a, a ∈ l -> 0 <= g a <= M) ->
  0 <= Chips.sum_over g l <= Z.of_nat (length l) * M.
Proof.
  induction l as [|a l IH]; intros Hg; simpl; [lia|].
  pose proof (Hg a ltac:(by left)).
  destruct IH as [? ?]; [intros a' Ha'; apply Hg; by right|].
  rewrite Nat2Z.inj_succ, Z.mul_succ_l. lia.
Qed.

Section Groups.

Context {R K : Type} `{EqDecision K} (le : relation K)
  `{!forall a b, Decision (le a b)} (key : R -> option K).

Lemma groupby_keys (df : list R) :
  (groupby le key df).*1 ≡ₚ remove_dups (omap key df).
Proof.
  unfold groupby.
  assert (forall l : list K,
            ((fun k => (k, filter (fun r => key r = Some k) df)) <$> l).*1 = l)
    as ->.
  { induction l as [|k l IH]; simpl; [done|]. by f_equal. }
  apply merge_sort_Permutation.
Qed.

Lemma elem_of_groupby (df : list R) k group :
  (k, group) ∈ groupby le key df
  <-> group = filter (fun r => key r = Some k) df
      /\ exists r, r ∈ df /\ key r = Some k.
Proof.
  unfold groupby. rewrite list_elem_of_fmap.
  setoid_rewrite merge_sort_Permutation.
  setoid_rewrite elem_of_remove_dups. setoid_rewrite list_elem_of_omap.
  split.
  - intros (k' & [= -> ->] & r & Hr & Hk). split; [done|]. by exists r.
  - intros [-> (r & Hr & Hk)]. exists k. split; [done|]. by exists r.
Qed.

Lemma groupby_group (df : list R) k group :
  (k, group) ∈ groupby le key df ->
  group = filter (fun r => key r = Some k) df
  /\ exists first rest, group = first :: rest /\ key first = Some k.
Proof.
  intros [-> (r & Hr & Hk)]%elem_of_groupby. split; [done|].
  destruct (filter (fun r0 => key r0 = Some k) df) as [|first rest] eqn:E.
  - assert (r ∈ filter (fun r0 => key r0 = Some k) df) as Hin
      by (by apply list_elem_of_filter).
    rewrite E in Hin. by apply elem_of_nil in Hin.
  - exists first, rest. split; [done|].
    assert (first ∈ filter (fun r0 => key r0 = Some k) df) as Hin
      by (rewrite E; by left).
    by apply list_elem_of_filter in Hin as [? _].
Qed.

Lemma groupby_length (df : list R) :
  (length (groupby le key df) <= length df)%nat.
Proof.
  rewrite <- (length_fmap fst (groupby le key df)).
  rewrite (Permutation_length (groupby_keys df)).
  etrans; [apply submseteq_length, (NoDup_submseteq _ (omap key df))|].
  - apply NoDup_remove_dups.
  - intros k. by rewrite elem_of_remove_dups.
  - clear. induction df as [|r df IH]; simpl; [done|].
    destruct (key r); simpl; [apply le_n_S | apply Nat.le_le_succ_r]; exact IH.
Qed.


End Groups.

Lemma getitem_0_cons {A} (a : A) (l : list A) : getitem (a :: l) 0 = Ok a.
Proof. by apply getitem_head. Qed.


Lemma course_key_room (r : Row) k : course_key r = Some k -> k.1.1.2 = room r.
Proof. unfold course_key. destruct (_ || _); [done|]. by intros [= <-]. Qed.



Lemma room_loop (rooms : list RoomRow) (room : string) (students B acc : Z) :
  (forall r, r ∈ rooms -> 0 <= Max_capaciteit r < 2 ^ 63) ->
  0 <= students <= B ->
  0 <= acc -> acc + shape0 rooms * B < 2 ^ 63 ->
  for_each (fun malus_students_room i =>
              do row <- getitem rooms i;
              if bool_decide (Zaalnummber row = room) then
                do row <- getitem rooms i;
                let capacity := Max_capaciteit row in
                if int64 (capacity - students) <? 0
                then Ok (int64
                           (malus_students_room
                            + int64 (Z.abs (int64 (capacity - students)))))
                else Ok malus_students_room
              else Ok malus_students_room)
           acc (range (shape0 rooms))
  = Ok (acc + Chips.sum_over
                (fun r => if bool_decide (Zaalnummber r = room)
                          then Z.max 0 (students - Max_capaciteit r) else 0)
                rooms).
Proof.
  intros Hcap Hst Hacc Hbound.
  rewrite (for_each_range rooms
             (fun m r =>
                if bool_decide (Zaalnummber r = room) then
                  if int64 (Max_capaciteit r - students) <? 0
                  then Ok (int64
                             (m + int64 (Z.abs (int64 (Max_capaciteit r
                                                       - students)))))
                  else Ok m
                else Ok m)).
  - apply (for_each_add_bounded _ _ B); [| |done|done].
    + intros r Hr. pose proof (Hcap r Hr). case_bool_decide; lia.
    + intros m r Hr Hm Hmb. pose proof (Hcap r Hr).
      case_bool_decide; [|f_equal; lia].
      rewrite (int64_small (Max_capaciteit r - students)) by lia.
      destruct (Z.ltb_spec (Max_capaciteit r - students) 0); [|f_equal; lia].
      rewrite (int64_small (Z.abs _)) by lia.
      rewrite int64_small by lia. f_equal. lia.
  - unfold shape0. by rewrite Nat2Z.id.
  - intros m i r Hi.
    rewrite (getitem_nonneg rooms (Z.of_nat i) r) by (lia || by rewrite Nat2Z.id).
    simpl. by case_bool_decide.
Qed.

Lemma get_room_malus_sum (schedule : list Row) (rooms : list RoomRow) :
  (forall r, r ∈ rooms -> 0 <= Max_capaciteit r < 2 ^ 63) ->
  shape0 schedule * shape0 schedule * shape0 rooms < 2 ^ 63 ->
  get_room_malus schedule rooms
  = Ok (Chips.sum_over
          (fun cg : (string * string * string * Z * string) * list Row =>
             Chips.sum_over
               (fun r => if bool_decide (Zaalnummber r = cg.1.1.1.2)
                         then Z.max 0 (shape0 cg.2 - Max_capaciteit r)
                         else 0)
               rooms)
          (groupby course_key_le course_key schedule)).
Proof.
  intros Hcap Hbound. unfold get_room_malus.
  set (B := shape0 schedule) in *.
  assert (0 <= B) as HB by (unfold B, shape0; lia).
  assert (0 <= shape0 rooms) as HR by (unfold shape0; lia).
  assert (forall cg, cg ∈ groupby course_key_le course_key schedule ->
            0 <= shape0 cg.2 <= B) as Hsize.
  { intros [k group] [-> _]%groupby_group. simpl. unfold B, shape0.
    pose proof (length_filter (fun r => course_key r = Some k) schedule). lia. }
  pose proof (groupby_length course_key_le course_key schedule) as Hlen.
  assert (Z.of_nat (length (groupby course_key_le course_key schedule)) <= B)
    as Hlen' by (unfold B, shape0; lia).
  rewrite <- (Z.add_0_l (Chips.sum_over _ (groupby _ _ _))).
  apply (for_each_add_bounded _ _ (shape0 rooms * B)).
  - intros cg Hcg. rewrite Z.mul_comm.
    replace (shape0 rooms) with (Z.of_nat (length rooms)) by done.
    rewrite Z.mul_comm. apply sum_over_bound.
    intros r Hr. pose proof (Hcap r Hr). pose proof (Hsize cg Hcg).
    case_bool_decide; lia.
  - intros acc [k group] Hcg Hacc Haccb. simpl.
    pose proof (Hsize _ Hcg) as Hst. simpl in Hst.
    apply groupby_group in Hcg as (_ & first & rest & E & Hk).
    rewrite E at 1. rewrite getitem_0_cons. cbn [bind].
    etrans; [by apply (room_loop rooms (room first) (shape0 group) B acc)|].
    by rewrite (course_key_room first k Hk).
  - done.
  - assert (Z.of_nat (length (groupby course_key_le course_key schedule))
            * (shape0 rooms * B) <= B * (shape0 rooms * B)) as Hle.
    { apply Z.mul_le_mono_nonneg_r; [|done]. by apply Z.mul_nonneg_nonneg. }
    lia.
Qed.

(** X20. On a schedule whose course, activity, room and day columns hold
    text, with a schedule and a room list that are not astronomically long
    and capacities from 0 on, [get_room_malus] raises nothing and
    returns a number that is never negative; it is 0 exactly when every
    group of records with one course, activity, room, time and day fits
    every room of [zalen.csv] that has its room number (records in which
    one of these fields is missing are in no group). A room that
    [zalen.csv] does not list costs nothing. *)
Theorem get_room_malus_zero_iff (schedule : list Row) (rooms : list RoomRow) :
  text_keys schedule ->
  (forall r, r ∈ rooms -> 0 <= Max_capaciteit r < 2 ^ 63) ->
  shape0 schedule * shape0 schedule * shape0 rooms < 2 ^ 63 ->
  exists malus,
    get_room_malus schedule rooms = Ok malus
    /\ 0 <= malus
    /\ (malus = 0
        <-> forall row r,
              row ∈ schedule -> course_key row <> None ->
              r ∈ rooms -> Zaalnummber r = room row ->
              group_size schedule row <= Max_capaciteit r).
Proof.
  intros _ Hcap Hbound.
  rewrite (get_room_malus_sum schedule rooms Hcap Hbound).
  eexists. split; [done|].
  set (excess := fun (cg : (string * string * string * Z * string) * list Row)
                     (r : RoomRow) =>
         if bool_decide (Zaalnummber r = cg.1.1.1.2)
         then Z.max 0 (shape0 cg.2 - Max_capaciteit r)
         else 0).
  assert (forall cg r, 0 <= excess cg r) as Hnn.
  { intros cg r. unfold excess. case_bool_decide; lia. }
  assert (forall cg, 0 <= Chips.sum_over (excess cg) rooms) as Hnn'.
  { intros cg. by apply sum_over_nonneg. }
  destruct (sum_over_nonneg (fun cg => Chips.sum_over (excess cg) rooms)
              (groupby course_key_le course_key schedule)) as [H0 Hz];
    [by intros|].
  split; [exact H0|]. etrans; [exact Hz|]. split.
  - intros Hall row r Hrow Hkey Hr Hroom.
    destruct (course_key row) as [k|] eqn:Hk; [|done].
    assert ((k, filter (fun r' => course_key r' = Some k) schedule)
            ∈ groupby course_key_le course_key schedule) as Hcg.
    { apply elem_of_groupby. split; [done|]. by exists row. }
    apply Hall in Hcg.
    apply (proj1 (proj2 (sum_over_nonneg (excess _) rooms
                           (fun r _ => Hnn _ r)))) with (a := r) in Hcg; [|done].
    unfold excess in Hcg. simpl in Hcg.
    rewrite (course_key_room row k Hk), bool_decide_eq_true_2 in Hcg by done.
    unfold group_size. rewrite Hk. lia.
  - intros Hfit [k group] Hcg.
    apply elem_of_groupby in Hcg as [-> (row & Hrow & Hk)].
    apply sum_over_nonneg; [by intros|].
    intros r Hr. unfold excess. simpl.
    case_bool_decide as Hroom; [|done].
    rewrite (course_key_room row k Hk) in Hroom.
    assert (course_key row <> None) as Hkey by (by rewrite Hk).
    specialize (Hfit row r Hrow Hkey Hr Hroom).
    unfold group_size in Hfit. rewrite Hk in Hfit. lia.
Qed.

Lemma get_room_malus_zero_iff_witness :
  exists malus,
    get_room_malus [mkRow "s1" "A" "h1" "ma" 9 "C0.110";
                    mkRow "s2" "A" "h1" "ma" 9 "C0.110"]
                   [mkRoomRow "C0.110" 1; mkRoomRow "A1.04" 40] = Ok malus
    /\ 0 <= malus
    /\ (malus = 0
        <-> forall row r,
              row ∈ [mkRow "s1" "A" "h1" "ma" 9 "C0.110";
                     mkRow "s2" "A" "h1" "ma" 9 "C0.110"] ->
              course_key row <> None ->
              r ∈ [mkRoomRow "C0.110" 1; mkRoomRow "A1.04" 40] ->
              Zaalnummber r = room row ->
              group_size [mkRow "s1" "A" "h1" "ma" 9 "C0.110";
                          mkRow "s2" "A" "h1" "ma" 9 "C0.110"] row
              <= Max_capaciteit r).
Proof.
  apply (get_room_malus_zero_iff
           [mkRow "s1" "A" "h1" "ma" 9 "C0.110";
            mkRow "s2" "A" "h1" "ma" 9 "C0.110"]
           [mkRoomRow "C0.110" 1; mkRoomRow "A1.04" 40]).
  - intros r Hr.
    apply elem_of_cons in Hr as [->|Hr];
      [apply (bool_decide_unpack _); by vm_compute|].
    apply list_elem_of_singleton in Hr as ->.
    apply (bool_decide_unpack _). by vm_compute.
  - intros r Hr.
    apply elem_of_cons in Hr as [->|Hr]; [simpl; lia|].
    apply list_elem_of_singleton in Hr as ->. simpl. lia.
  - by vm_compute.
Defined.

Lemma drop_duplicates_sorted (courses : list Row) :
  forall seen : gset Z,
    StronglySorted time_le courses ->
    StronglySorted (fun a b => time a < time b)
      (mask_rows courses (negb <$> duplicated_go seen (time <$> courses)))
    /\ (forall r,
          r ∈ mask_rows courses (negb <$> duplicated_go seen (time <$> courses)) ->
          r ∈ courses /\ time r ∉ seen)
    /\ (forall r, r ∈ courses ->
          time r ∈ seen
          \/ exists r',
               r' ∈ mask_rows courses
                      (negb <$> duplicated_go seen (time <$> courses))
               /\ time r' = time r).
Proof.
  induction courses as [|c courses IH]; intros seen Hsorted.
  - simpl. split_and!; [constructor| |]; by intros r ?%elem_of_nil.
  - apply StronglySorted_inv in Hsorted as [Hsorted Hc].
    destruct (IH ({[time c]} ∪ seen) Hsorted) as (IHs & IHin & IHcov).
    rewrite Forall_forall in Hc.
    cbn [fmap list_fmap duplicated_go mask_rows]. fold (fmap time courses).
    fold (fmap negb (duplicated_go ({[time c]} ∪ seen) (time <$> courses))).
    case_bool_decide as Hseen; cbn [negb].
    + split_and!; [done| |].
      * intros r [Hr Hnot]%IHin. split; [by right|].
        intros Hin. apply Hnot, elem_of_union. by right.
      * intros r [->|Hr]%elem_of_cons; [by left|].
        destruct (IHcov r Hr) as [[Ht%elem_of_singleton|Hin]%elem_of_union|Hex];
          [left; by rewrite Ht|by left|by right].
    + split_and!.
      * constructor; [done|]. apply Forall_forall. intros r [Hr Hnot]%IHin.
        pose proof (Hc r Hr) as Hle. unfold time_le in Hle.
        assert (time r <> time c); [|lia].
        intros Heq. apply Hnot, elem_of_union. left. by apply elem_of_singleton.
      * intros r [->|[Hr Hnot]%IHin]%elem_of_cons; [split; [by left|done]|].
        split; [by right|]. intros Hin. apply Hnot, elem_of_union. by right.
      * intros r [->|Hr]%elem_of_cons; [right; exists c; split; [by left|done]|].
        destruct (IHcov r Hr)
          as [[Ht%elem_of_singleton|Hin]%elem_of_union|(r' & Hr' & Ht)].
        -- right. exists c. split; [by left|done].
        -- by left.
        -- right. exists r'. split; [by right|done].
Qed.

Lemma slots_spec (group : list Row) :
  StronglySorted (fun a b => time a < time b)
    (drop_duplicates_time (sort_values_time group))
  /\ (forall r, r ∈ drop_duplicates_time (sort_values_time group) -> r ∈ group)
  /\ (forall r, r ∈ group ->
        exists r', r' ∈ drop_duplicates_time (sort_values_time group)
                   /\ time r' = time r).
Proof.
  assert (StronglySorted time_le (sort_values_time group)) as Hsorted.
  { apply StronglySorted_merge_sort.
    - intros a b c. unfold time_le. lia.
    - intros a b. unfold time_le. lia. }
  destruct (drop_duplicates_sorted (sort_values_time group) ∅ Hsorted)
    as (Hs & Hin & Hcov).
  split_and!; [exact Hs| |].
  - intros r [Hr _]%Hin. unfold sort_values_time in Hr.
    by rewrite merge_sort_Permutation in Hr.
  - intros r Hr.
    destruct (Hcov r) as [Hempty|Hex]; [|by apply not_elem_of_empty in Hempty|done].
    unfold sort_values_time. by rewrite merge_sort_Permutation.
Qed.

Lemma two_slots_iff (group : list Row) :
  (exists a b, drop_duplicates_time (sort_values_time group) = [a; b]
               /\ 6 < time b - time a)
  <-> exists r1 r2,
        r1 ∈ group /\ r2 ∈ group /\ 6 < time r2 - time r1
        /\ forall r, r ∈ group -> time r = time r1 \/ time r = time r2.
Proof.
  destruct (slots_spec group) as (Hs & Hin & Hcov).
  set (slots := drop_duplicates_time (sort_values_time group)) in *.
  split.
  - intros (a & b & E & Hfar). rewrite E in Hin, Hcov.
    exists a, b. split_and!; [apply Hin; by left|apply Hin; right; by left|done|].
    intros r (r' & Hr' & <-)%Hcov.
    apply elem_of_cons in Hr' as [->|Hr']; [by left|].
    apply elem_of_cons in Hr' as [->|Hr']; [by right|].
    by apply elem_of_nil in Hr'.
  - intros (r1 & r2 & H1 & H2 & Hfar & Hall).
    destruct (Hcov r1 H1) as (s1 & Hs1 & Ht1).
    destruct (Hcov r2 H2) as (s2 & Hs2 & Ht2).
    assert (forall r, r ∈ slots -> time r = time r1 \/ time r = time r2) as Hall'.
    { intros r Hr. by apply Hall, Hin. }
    clearbody slots.
    destruct slots as [|x [|y [|z rest]]].
    + by apply elem_of_nil in Hs1.
    + apply list_elem_of_singleton in Hs1 as ->.
      apply list_elem_of_singleton in Hs2 as ->. lia.
    + apply StronglySorted_inv in Hs as [_ Hxy].
      apply Forall_cons in Hxy as [Hxy _].
      pose proof (Hall' x ltac:(by left)).
      pose proof (Hall' y ltac:(right; by left)).
      exists x, y. split; [done|]. lia.
    + exfalso.
      apply StronglySorted_inv in Hs as [Hs Hx].
      apply StronglySorted_inv in Hs as [_ Hy].
      apply Forall_cons in Hx as [Hxy Hx]. apply Forall_cons in Hx as [Hxz _].
      apply Forall_cons in Hy as [Hyz _].
      pose proof (Hall' x ltac:(by left)).
      pose proof (Hall' y ltac:(right; by left)).
      pose proof (Hall' z ltac:(right; right; by left)). lia.
Qed.

Lemma free_slots_of_group_spec (counts : Z * Z) sg :
  (forall r, r ∈ sg.2 -> - 2 ^ 62 <= time r < 2 ^ 62) ->
  exists counts',
    free_slots_of_group counts sg = Ok counts'
    /\ counts.1 <= counts'.1 /\ counts.2 <= counts'.2
    /\ (counts.2 < counts'.2
        <-> exists a b,
              drop_duplicates_time (sort_values_time sg.2) = [a; b]
              /\ 6 < time b - time a).
Proof.
  intros Htimes.
  destruct counts as [malus infeasible]. unfold free_slots_of_group.
  destruct (slots_spec sg.2) as (_ & Hin & _).
  set (slots := drop_duplicates_time (sort_values_time sg.2)) in *.
  destruct slots as [|a [|b rest]].
  - eexists. split; [done|]. simpl. split_and!; [lia..|].
    split; [lia|]. by intros (? & ? & ? & _).
  - eexists. split; [done|]. simpl. split_and!; [lia..|].
    split; [lia|]. by intros (? & ? & ? & _).
  - assert (exists final, last (a :: b :: rest) = Some final) as [final Hlast].
    { destruct (last (a :: b :: rest)) eqn:E; [by eexists|].
      by apply last_None in E. }
    assert ((1 <? shape0 (a :: b :: rest)) = true) as ->.
    { apply Z.ltb_lt. unfold shape0. simpl length. lia. }
    rewrite getitem_0_cons, (getitem_last _ final Hlast). cbn [bind].
    assert (int64 (time final - time a) = time final - time a) as ->.
    { apply int64_small.
      assert (a ∈ sg.2) as Ha by (apply Hin; by left).
      assert (final ∈ sg.2) as Hf.
      { apply Hin. apply last_Some in Hlast as [l' ->].
        apply elem_of_app. right. by left. }
      pose proof (Htimes a Ha). pose proof (Htimes final Hf). lia. }
    destruct rest as [|c rest].
    + injection Hlast as <-.
      assert ((shape0 [a; b] =? 2) = true) as -> by done.
      destruct (Z.eqb_spec (time b - time a) 4);
        [|destruct (Z.eqb_spec (time b - time a) 6);
          [|destruct (Z.ltb_spec 6 (time b - time a))]];
        (eexists; split; [done|]; simpl; split_and!; [lia..|]).
      * split; [lia|]. intros (a' & b' & [= <- <-] & ?). lia.
      * split; [lia|]. intros (a' & b' & [= <- <-] & ?). lia.
      * split; [intros _; by exists a, b|lia].
      * split; [lia|]. intros (a' & b' & [= <- <-] & ?). lia.
    + assert ((shape0 (a :: b :: c :: rest) =? 2) = false) as ->.
      { apply Z.eqb_neq. unfold shape0. simpl length. lia. }
      assert (forall counts' : Z * Z,
                counts'.1 >= malus -> counts'.2 = infeasible ->
                malus <= counts'.1 /\ infeasible <= counts'.2
                /\ (infeasible < counts'.2
                    <-> exists a' b', a :: b :: c :: rest = [a'; b']
                                      /\ 6 < time b' - time a')) as Hsame.
      { intros counts' H1 H2. split_and!; [lia..|].
        split; [lia|]. by intros (? & ? & ? & _). }
      repeat match goal with
             | |- context [if ?c then _ else _] => destruct c
             end;
        (eexists; split; [done|]; apply Hsame; simpl; lia).
Qed.

Lemma check_free_slots_loop (groups : list ((string * string) * list Row)) :
  (forall sg r, sg ∈ groups -> r ∈ sg.2 -> - 2 ^ 62 <= time r < 2 ^ 62) ->
  forall counts : Z * Z,
    exists counts',
      for_each free_slots_of_group counts groups = Ok counts'
      /\ counts.1 <= counts'.1 /\ counts.2 <= counts'.2
      /\ (counts.2 < counts'.2
          <-> exists sg a b,
                sg ∈ groups
                /\ drop_duplicates_time (sort_values_time sg.2) = [a; b]
                /\ 6 < time b - time a).
Proof.
  induction groups as [|sg groups IH]; intros Htimes counts.
  - exists counts. split; [done|]. split_and!; [lia..|].
    split; [lia|]. by intros (? & ? & ? & ?%elem_of_nil & _).
  - destruct (free_slots_of_group_spec counts sg)
      as (counts1 & Hstep & H1 & H2 & Hiff1).
    { intros r Hr. apply (Htimes sg r); [by left|done]. }
    destruct (IH (fun sg' r Hsg' => Htimes sg' r
                    (proj2 (elem_of_cons _ _ _) (or_intror Hsg'))) counts1)
      as (counts' & Hrest & H1' & H2' & Hiff).
    exists counts'. simpl. rewrite Hstep. simpl.
    split; [done|]. split_and!; [lia..|]. split.
    + intros Hlt. destruct (decide (counts.2 < counts1.2)) as [Hd|Hd].
      * apply Hiff1 in Hd as (a & b & E & Hfar). exists sg, a, b.
        split; [by left|done].
      * destruct (proj1 Hiff) as (sg' & a & b & Hsg & E & Hfar); [lia|].
        exists sg', a, b. split; [by right|done].
    + intros (sg' & a & b & [->|Hsg]%elem_of_cons & E & Hfar).
      * assert (counts.2 < counts1.2); [|lia]. apply Hiff1. by exists a, b.
      * assert (counts1.2 < counts'.2); [|lia]. apply Hiff. by exists sg', a, b.
Qed.

(** X21. On a schedule whose student and day columns hold text and whose
    times are far from the ends of [int64],
    [not_exceed_free_slots] either returns a malus that is not negative or
    raises the failure, nothing else; it raises the failure exactly when some
    student has, on some day, records at exactly two different times that
    are more than six hours apart (records without a student or a day are
    in no group). *)
Theorem not_exceed_free_slots_iff (schedule : list Row) :
  text_student_days schedule ->
  (forall r, r ∈ schedule -> - 2 ^ 62 <= time r < 2 ^ 62) ->
  ((exists malus, not_exceed_free_slots schedule = Ok malus /\ 0 <= malus)
   \/ not_exceed_free_slots schedule = Raise Failure)
  /\ (not_exceed_free_slots schedule = Raise Failure
      <-> two_times_far_apart schedule).
Proof.
  intros _ Htimes.
  unfold not_exceed_free_slots, check_free_slots.
  destruct (check_free_slots_loop
              (groupby student_day_le student_day_key schedule))
    with (counts := (0, 0)) as ([malus infeasible] & -> & H1 & H2 & Hiff).
  { intros [k group] r [-> _]%groupby_group [_ Hr]%list_elem_of_filter.
    by apply Htimes. }
  simpl in *.
  assert ((exists sg a b,
             sg ∈ groupby student_day_le student_day_key schedule
             /\ drop_duplicates_time (sort_values_time sg.2) = [a; b]
             /\ 6 < time b - time a)
          <-> two_times_far_apart schedule) as Hgroups.
  { split.
    - intros ([k group] & a & b & Hsg & E & Hfar).
      apply groupby_group in Hsg as (-> & _). simpl in E.
      destruct (proj1 (two_slots_iff _) (ex_intro _ a (ex_intro _ b (conj E Hfar))))
        as (r1 & r2 & Hr1 & Hr2 & Hfar' & Hall).
      apply list_elem_of_filter in Hr1 as [Hk1 Hr1].
      apply list_elem_of_filter in Hr2 as [Hk2 Hr2].
      exists k, r1, r2. split_and!; try done.
      intros r Hr Hk. apply Hall, list_elem_of_filter. by split.
    - intros (k & r1 & r2 & Hr1 & Hr2 & Hk1 & Hk2 & Hfar & Hall).
      exists (k, filter (fun r => student_day_key r = Some k) schedule).
      destruct (proj2 (two_slots_iff
                         (filter (fun r => student_day_key r = Some k)
                                 schedule)))
        as (a & b & E & Hfar').
      { exists r1, r2.
        split_and!; [by apply list_elem_of_filter..|done|].
        intros r [Hk Hr]%list_elem_of_filter. by apply Hall. }
      exists a, b. split; [|done].
      apply elem_of_groupby. split; [done|]. by exists r1. }
  rewrite <- Hgroups, <- Hiff.
  destruct (Z.ltb_spec 0 infeasible).
  - split; [by right|]. split; [lia|done].
  - split; [left; exists malus; split; [done|lia]|]. split; [done|lia].
Qed.

Lemma not_exceed_free_slots_iff_witness :
  ((exists malus,
      not_exceed_free_slots [mkRow "s1" "A" "h1" "ma" 9 "C0.110";
                             mkRow "s1" "B" "h1" "ma" 17 "C0.110"] = Ok malus
      /\ 0 <= malus)
   \/ not_exceed_free_slots [mkRow "s1" "A" "h1" "ma" 9 "C0.110";
                             mkRow "s1" "B" "h1" "ma" 17 "C0.110"]
      = Raise Failure)
  /\ (not_exceed_free_slots [mkRow "s1" "A" "h1" "ma" 9 "C0.110";
                             mkRow "s1" "B" "h1" "ma" 17 "C0.110"]
      = Raise Failure
      <-> two_times_far_apart [mkRow "s1" "A" "h1" "ma" 9 "C0.110";
                               mkRow "s1" "B" "h1" "ma" 17 "C0.110"]).
Proof.
  apply (not_exceed_free_slots_iff
           [mkRow "s1" "A" "h1" "ma" 9 "C0.110";
            mkRow "s1" "B" "h1" "ma" 17 "C0.110"]).
  - intros r Hr.
    apply elem_of_cons in Hr as [->|Hr];
      [apply (bool_decide_unpack _); by vm_compute|].
    apply list_elem_of_singleton in Hr as ->.
    apply (bool_decide_unpack _). by vm_compute.
  - intros r Hr.
    apply elem_of_cons in Hr as [->|Hr]; [simpl; lia|].
    apply list_elem_of_singleton in Hr as ->. simpl. lia.
Defined.

End LectureMoreFacts.

(** * Solutions of the puzzle are accepted *)

Section SolutionFacts.

Import RushHour.

Lemma represents_disjoint sz layout b p q loc :
  represents sz layout b ->
  p ∈ layout -> q ∈ layout -> covers p loc -> covers q loc -> p.1 = q.1.
Proof.
  intros (_ & _ & _ & Hin & Htiles) Hp Hq Hcp Hcq.
  pose proof (Hin p loc Hp Hcp) as Hb.
  assert (read (_board b) loc = Some (Some p.1)) as H1.
  { apply Htiles; [done|]. by exists p. }
  assert (read (_board b) loc = Some (Some q.1)) as H2.
  { apply Htiles; [done|]. by exists q. }
  congruence.
Qed.

Lemma place_others_Ok sz layout cur :
  represents sz layout cur ->
  NoDup (name <$> layout.*1) ->
  (forall p, p ∈ layout -> 1 <= length p.1) ->
  forall (others : list Vehicle) nb0 acc,
    NoDup others ->
    (forall o, o ∈ others -> o ∈ layout.*1) ->
    represents sz acc nb0 ->
    (forall p, p ∈ acc -> p ∈ layout /\ p.1 ∉ others) ->
    exists nb,
      for_each (fun new_board other_vehicle =>
                  do loc <- location_of cur other_vehicle;
                  do cr <- unpack loc;
                  place new_board other_vehicle cr.1 cr.2)
               nb0 others = Ok nb.
Proof.
  intros Hrep Hnd Hlen.
  induction others as [|o others IH]; intros nb0 acc Hnd' Hin Hacc Hsub.
  - by exists nb0.
  - apply NoDup_cons in Hnd' as [Ho Hnd'].
    destruct (proj1 (list_elem_of_fmap _ _ _) (Hin o ltac:(by left)))
      as ([o' pos] & Heq & Hpos). simpl in Heq. subst o'.
    pose proof (location_of_placed sz layout cur o pos Hrep Hnd Hpos
                  (Hlen _ Hpos)) as Hloc.
    destruct (place_free_Ok sz acc nb0 o pos.1 pos.2 Hacc) as [nb1 Hplace].
    { intros loc Hcov. split.
      - destruct Hrep as (_ & _ & _ & Hbounds & _).
        by apply (Hbounds (o, pos) loc).
      - intros q Hq Hcovq. destruct (Hsub q Hq) as [Hql Hqo].
        apply Hqo, elem_of_cons. left.
        by apply (represents_disjoint sz layout cur q (o, pos) loc). }
    pose proof (place_represents _ _ _ _ _ _ _ Hacc Hplace) as Hacc1.
    destruct (IH nb1 (acc ++ [(o, (pos.1, pos.2))]) Hnd') as [nb Hnb]; [|done| |].
    + intros o' Ho'. apply Hin. by right.
    + intros p [Hp|Hp%list_elem_of_singleton]%elem_of_app.
      * destruct (Hsub p Hp) as [? Hno]. split; [done|].
        intros ?. apply Hno, elem_of_cons. by right.
      * subst p. rewrite <- surjective_pairing. by split.
    + exists nb. simpl. rewrite Hloc. simpl. by rewrite Hplace.
Qed.

Section StepOk.

Variables (sz : Z) (layout0 : list Placement) (self : Board) (v : Vehicle)
  (pos0 : Z * Z).
Hypothesis self_names : NoDup (name <$> vehicles self).
Hypothesis self_vehicles : forall u, u ∈ vehicles self <-> u ∈ layout0.*1.
Hypothesis layout0_names : NoDup (name <$> layout0.*1).
Hypothesis layout0_lengths : forall p, p ∈ layout0 -> 1 <= length p.1.
Hypothesis v_placed : (v, pos0) ∈ layout0.

Lemma moved_lengths layout k :
  moved layout0 v k layout -> forall p, p ∈ layout -> 1 <= length p.1.
Proof.
  intros Hmoved p [[Hp _]|(pos & Hpos & ->)]%Hmoved; [by apply layout0_lengths|].
  by apply (layout0_lengths _ Hpos).
Qed.

Lemma move_step_Ok layout cur k d :
  represents sz layout cur ->
  NoDup (name <$> layout.*1) ->
  moved layout0 v k layout ->
  free_for sz layout0 v (shift v pos0 (k + d)) ->
  exists b', move_step self v cur d = Ok b'.
Proof.
  intros Hrep Hnd Hmoved Hfree. unfold move_step.
  assert (size cur = sz) as Hsz by apply Hrep. rewrite Hsz.
  set (others := filter (fun u => negb (Vehicle_eq u v) = true) (vehicles self)).
  assert (forall o, o ∈ others <-> o ∈ layout0.*1 /\ name o <> name v)
    as Hothers_spec.
  { intros o. unfold others. rewrite list_elem_of_filter, self_vehicles.
    unfold Vehicle_eq. rewrite negb_true_iff, bool_decide_eq_false. tauto. }
  assert (forall o, o ∈ others -> exists pos, (o, pos) ∈ layout) as Hothers_in.
  { intros o [Ho Hname]%Hothers_spec.
    apply list_elem_of_fmap in Ho as ([o' pos] & -> & Hp). simpl in *.
    exists pos. apply Hmoved. by left. }
  destruct (place_others_Ok sz layout cur Hrep Hnd (moved_lengths layout k Hmoved)
              others (Board_init sz) []) as [nb Hnb].
  { apply NoDup_filter. by eapply NoDup_fmap_1. }
  { intros o [pos Hpos]%Hothers_in. apply list_elem_of_fmap. by exists (o, pos). }
  { apply represents_Board_init. }
  { by intros p ?%elem_of_nil. }
  rewrite Hnb. cbn [bind].
  destruct (place_others sz layout cur others Hrep Hnd Hothers_in
              (Board_init sz) [] nb (represents_Board_init sz) Hnb)
    as (lo & Hlo & Hfst & Hsub).
  simpl in Hlo.
  assert ((v, shift v pos0 k) ∈ layout) as Hv by (apply Hmoved; right; eauto).
  rewrite (location_of_placed sz layout cur v (shift v pos0 k) Hrep Hnd Hv)
    by (by apply (layout0_lengths _ v_placed)).
  cbn [bind unpack].
  assert ((if bool_decide (orientation v = "V"%string)
           then ((shift v pos0 k).1, (shift v pos0 k).2 + d)
           else ((shift v pos0 k).1 + d, (shift v pos0 k).2))
          = shift v pos0 (k + d)) as ->.
  { rewrite <- shift_shift. generalize (shift v pos0 k). intros pos.
    unfold shift. by destruct (bool_decide (orientation v = "V"%string)). }
  destruct (shift v pos0 (k + d)) as [col row] eqn:E.
  apply (place_free_Ok sz lo nb v col row Hlo).
  intros loc Hcov. destruct (Hfree loc Hcov) as [Hb Hno]. split; [done|].
  intros q Hq Hcovq.
  assert (q.1 ∈ others) as [_ Hname]%Hothers_spec.
  { rewrite <- Hfst. apply list_elem_of_fmap. by exists q. }
  apply (Hno q); [|done..].
  apply Hsub, Hmoved in Hq as [[? _]|(pos & _ & ->)]; [done|].
  by destruct Hname.
Qed.

Lemma move_loop_Ok d (m : nat) :
  forall layout cur k,
    represents sz layout cur ->
    NoDup (name <$> layout.*1) ->
    moved layout0 v k layout ->
    (forall j : nat, (1 <= j <= m)%nat ->
       free_for sz layout0 v (shift v pos0 (k + Z.of_nat j * d))) ->
    exists b', for_each (move_step self v) cur (replicate m d) = Ok b'.
Proof.
  induction m as [|m IH]; intros layout cur k Hrep Hnd Hmoved Hfree.
  - by exists cur.
  - destruct (move_step_Ok layout cur k d Hrep Hnd Hmoved) as [b1 Hstep].
    { specialize (Hfree 1%nat ltac:(lia)).
      by replace (k + Z.of_nat 1 * d) with (k + d) in Hfree by lia. }
    destruct (move_step_represents sz layout0 self v self_names self_vehicles
                layout0_names (ex_intro _ pos0 v_placed) layout cur d k b1
                Hrep Hnd Hmoved Hstep) as (layout1 & Hrep1 & Hnd1 & Hmoved1).
    destruct (IH layout1 b1 (k + d) Hrep1 Hnd1 Hmoved1) as [b' Hb'].
    { intros j Hj. specialize (Hfree (S j) ltac:(lia)).
      by replace (k + Z.of_nat (S j) * d) with (k + d + Z.of_nat j * d)
        in Hfree by lia. }
    exists b'. simpl. by rewrite Hstep.
Qed.

Lemma move_Ok n :
  represents sz layout0 self ->
  (forall k, between k n -> free_for sz layout0 v (shift v pos0 k)) ->
  exists b', move self v n = Ok b'.
Proof.
  intros Hrep Hfree. unfold move.
  pose proof (moved_refl layout0 v pos0 layout0_names v_placed) as Hmoved.
  destruct (Z.leb_spec 0 n) as [Hn|Hn].
  - apply (move_loop_Ok 1 (Z.to_nat n) layout0 self 0 Hrep layout0_names Hmoved).
    intros j Hj. apply Hfree. left. lia.
  - apply (move_loop_Ok (-1) (Z.to_nat (Z.abs n)) layout0 self 0 Hrep
             layout0_names Hmoved).
    intros j Hj. apply Hfree. right. lia.
Qed.

End StepOk.

Lemma vehicle_by_name (l : list Vehicle) u w :
  NoDup (name <$> l) -> u ∈ l -> w ∈ l -> name u = name w -> u = w.
Proof.
  intros Hnd [i Hi]%list_elem_of_lookup [j Hj]%list_elem_of_lookup Hname.
  assert (i = j) as ->; [|congruence].
  eapply (NoDup_lookup _ i j (name u) Hnd);
    rewrite !list_lookup_fmap; [by rewrite Hi | by rewrite Hj, Hname].
Qed.

Lemma check_moves_loop_complete sz (vehicles0 : list Vehicle)
    (L : list Placement) (output_file : list MoveEntry) (final : list Placement) :
  plays sz L output_file final ->
  NoDup (name <$> vehicles0) ->
  forall Lb b,
    represents sz Lb b ->
    NoDup (name <$> Lb.*1) ->
    (forall p, p ∈ Lb <-> p ∈ L) ->
    (forall p, p ∈ Lb -> 1 <= length p.1) ->
    (forall u, u ∈ vehicles0 <-> u ∈ Lb.*1) ->
    exists b' Lb',
      for_each (fun board entry =>
                  do vehicle <-
                    getitem (filter (fun vehicle => name vehicle = move_car entry)
                                    vehicles0) 0;
                  match move board vehicle (move_steps entry) with
                  | Ok board => Ok board
                  | Raise Collision => Raise Failure
                  | Raise WallHit => Raise Failure
                  | Raise e => Raise e
                  end)
               b output_file = Ok b'
      /\ represents sz Lb' b'
      /\ (forall p, p ∈ Lb' <-> p ∈ final).
Proof.
  intros Hplays Hnd0.
  induction Hplays
    as [L|L entry v pos L' rest final Hpos Hname Hfree Hmoved _ IH];
    intros Lb b Hrep Hnd Heq Hlen Hveh0.
  - exists b, Lb. by split_and!.
  - pose proof Hrep as (_ & _ & Hveh & _).
    assert ((v, pos) ∈ Lb) as Hposb by (by apply Heq).
    assert (v ∈ Lb.*1) as Hvb.
    { apply list_elem_of_fmap. by exists (v, pos). }
    assert (getitem (filter (fun vehicle => name vehicle = move_car entry)
                            vehicles0) 0 = Ok v) as Hget.
    { assert (v ∈ filter (fun vehicle => name vehicle = move_car entry) vehicles0)
        as Hin.
      { apply list_elem_of_filter. split; [done|]. by apply Hveh0. }
      destruct (filter _ vehicles0) as [|u l] eqn:E;
        [by apply elem_of_nil in Hin|].
      assert (u ∈ filter (fun vehicle => name vehicle = move_car entry) vehicles0)
        as [Hu1 Hu2]%list_elem_of_filter by (rewrite E; by left).
      rewrite (vehicle_by_name vehicles0 u v Hnd0 Hu2); [apply getitem_0_cons| |].
      - by apply Hveh0.
      - congruence. }
    destruct (move_Ok sz Lb b v pos) with (n := move_steps entry)
      as [b1 Hmove]; try done.
    { by rewrite Hveh. }
    { intros u. by rewrite Hveh. }
    { intros k Hk loc Hcov. destruct (Hfree k Hk loc Hcov) as [Hb Hno].
      split; [done|]. intros q Hq. apply Hno. by apply Heq. }
    pose proof (moved_refl Lb v pos Hnd Hposb) as Hmoved0.
    destruct (move_represents sz Lb b v) with
      (layout := Lb) (k := 0) (n := move_steps entry) (b' := b1)
      as (Lb1 & Hrep1 & Hnd1 & Hmoved1); try done.
    { by rewrite Hveh. }
    { intros u. by rewrite Hveh. }
    { eauto. }
    rewrite Z.add_0_l in Hmoved1.
    destruct (IH Lb1 b1 Hrep1 Hnd1) as (b' & Lb' & Hloop & Hrep' & Heq').
    { intros p. rewrite (Hmoved1 p), (Hmoved p). rewrite Heq.
      split; (intros [?|(pos' & Hpos' & ->)]; [by left|right; exists pos']);
        (split; [by apply Heq|done]). }
    { by apply (moved_lengths Lb v Hlen Lb1 (move_steps entry)). }
    { intros u. rewrite Hveh0. symmetry.
      by apply (moved_vehicles Lb Lb1 v pos (move_steps entry)). }
    exists b', Lb'. split; [|done].
    simpl. rewrite Hget. cbn [bind]. by rewrite Hmove.
Qed.

(** X22. [check_moves] accepts every solution of the puzzle: when the
    vehicles of the board file have pairwise different names and a length of
    at least one, lie within the walls and share no cell, when the records of
    the output slide vehicles of the board along their orientation over free
    cells only, and a vehicle named ["X"] covers the last cell of row
    [(size - 1) // 2] in the end, the check passes. *)
Theorem check_moves_complete (BOARD_SIZE : Z) (board_file : list Entry)
    (output_file : list MoveEntry) (final : list Placement) :
  NoDup (entry_car <$> board_file) ->
  (forall e, e ∈ board_file -> 1 <= entry_length e) ->
  (forall e loc, e ∈ board_file -> covers (placement_of_entry e) loc ->
     in_bounds BOARD_SIZE loc) ->
  disjoint_layout (placement_of_entry <$> board_file) ->
  plays BOARD_SIZE (placement_of_entry <$> board_file) output_file final ->
  (exists p, p ∈ final /\ name p.1 = "X"%string
             /\ covers p (goal_cell BOARD_SIZE)) ->
  check_moves BOARD_SIZE board_file output_file = Ok tt.
Proof.
  intros Hnd Hlen Hin Hdis Hplays (px & Hpx & Hx & Hcov).
  assert (NoDup (name <$> (placement_of_entry <$> board_file).*1)) as Hnd'.
  { rewrite <- !list_fmap_compose.
    by replace (name ∘ fst ∘ placement_of_entry) with entry_car. }
  destruct (load_each_Ok BOARD_SIZE board_file [] (Board_init BOARD_SIZE))
    as (b0 & Hload & Hrep0); try done; [apply represents_Board_init|].
  simpl in Hrep0. pose proof Hrep0 as (_ & _ & Hveh & _).
  destruct (check_moves_loop_complete BOARD_SIZE (vehicles b0)
              (placement_of_entry <$> board_file) output_file final Hplays)
    with (Lb := placement_of_entry <$> board_file) (b := b0)
    as (b' & Lb' & Hloop & Hrep' & Heq'); try done.
  { by rewrite Hveh. }
  { intros p (e & -> & He)%list_elem_of_fmap. simpl. by apply Hlen. }
  { intros u. by rewrite Hveh. }
  apply Heq' in Hpx.
  assert (1 <= BOARD_SIZE) as Hsz.
  { destruct Hrep' as (_ & _ & _ & Hbounds & _).
    destruct (Hbounds px _ Hpx Hcov) as [Hb _]. simpl in Hb. lia. }
  destruct (is_solved_represents BOARD_SIZE Lb' b' Hrep' Hsz)
    as (solved & Hsolved & Hiff).
  assert (solved = true) as -> by (apply Hiff; by exists px).
  assert (load BOARD_SIZE board_file = Ok b0) as Hload' by exact Hload.
  unfold check_moves. rewrite Hload'. cbn [bind]. cbv zeta.
  rewrite Hloop. cbn [bind]. by rewrite Hsolved.
Qed.

Lemma check_moves_complete_witness :
  check_moves 6 [mkEntry "X" "H" 2 4 3] [mkMoveEntry "X" 1] = Ok tt.
Proof.
  assert (forall loc, loc ∈ [(3, 2); (4, 2); (5, 2)] -> in_bounds 6 loc) as Hb.
  { intros loc Hl. repeat (apply elem_of_cons in Hl as [->|Hl]; [by vm_compute|]).
    by apply elem_of_nil in Hl. }
  apply (check_moves_complete 6 [mkEntry "X" "H" 2 4 3] [mkMoveEntry "X" 1]
           [(mkVehicle "X" "H" 2, (4, 2))]).
  - apply (bool_decide_unpack _). by vm_compute.
  - intros e ->%list_elem_of_singleton. simpl. lia.
  - intros e loc ->%list_elem_of_singleton Hcov. apply Hb.
    change (loc ∈ [(3, 2); (4, 2)]) in Hcov.
    apply elem_of_cons in Hcov as [->|Hcov]; [by left|].
    apply list_elem_of_singleton in Hcov as ->. right. by left.
  - intros [|i] [|j] p q loc Hi Hj; done.
  - apply (plays_move 6 _ (mkMoveEntry "X" 1) (mkVehicle "X" "H" 2) (3, 2)
             [(mkVehicle "X" "H" 2, (4, 2))] [] [(mkVehicle "X" "H" 2, (4, 2))]).
    + by left.
    + reflexivity.
    + intros k Hk loc Hcov. split.
      * apply Hb. unfold between in Hk. simpl in Hk.
        assert (k = 0 \/ k = 1) as [-> | ->] by lia.
        -- change (loc ∈ [(3, 2); (4, 2)]) in Hcov.
           apply elem_of_cons in Hcov as [->|Hcov]; [by left|].
           apply list_elem_of_singleton in Hcov as ->. right. by left.
        -- change (loc ∈ [(4, 2); (5, 2)]) in Hcov. by right.
      * by intros q ->%list_elem_of_singleton.
    + intros p. split.
      * intros ->%list_elem_of_singleton. right. exists (3, 2).
        split; [by left|done].
      * intros [[->%list_elem_of_singleton Hn]|(pos & Hp & ->)]; [done|].
        change ((mkVehicle "X" "H" 2, pos) ∈ [(mkVehicle "X" "H" 2, (3, 2))])
          in Hp.
        apply list_elem_of_singleton in Hp. injection Hp as ->. by left.
    + apply plays_done.
  - exists (mkVehicle "X" "H" 2, (4, 2)). split_and!; [by left|done|].
    change ((5, 2) ∈ [(4, 2); (5, 2)]). right. by left.
Defined.

End SolutionFacts.
